(** * voctree: a voxel octree with split / coalesce on write

    A shallow embedding of [voctree.go] (package [voctree]) and the
    properties of its node algebra and of the [Voctree] container.

    Conventions of the embedding
    - Go's [uint8], [uint16] and (64-bit) [int] are values of [Z]; every
      operation that can wrap is followed by the wrap of its type.
    - A fixed array [[8]T] is the record [arr8 T]; indexing with an [int]
      is partial, the failure being Go's index-out-of-range panic.
    - Methods return in the [result] monad: [Ok], [Panic] (a Go run-time
      panic) or [OutOfFuel] (the recursion / loop budget ran out).
    - Nodes are exclusively owned in the source (no aliasing), so the
      in-place updates of a method are modelled by the node it returns. *)

From Stdlib Require Import ZArith List Lia Bool.
Import ListNotations.
Local Open Scope Z_scope.

(* ================================================================== *)
(** ** Machine integers *)

Definition uint8 (z : Z) : Z := z mod 2 ^ 8.
Definition uint16 (z : Z) : Z := z mod 2 ^ 16.
(** Go's [int] on a 64-bit target: two's complement wrap-around. *)
Definition int (z : Z) : Z := (z + 2 ^ 63) mod 2 ^ 64 - 2 ^ 63.

Definition is_uint8 (z : Z) : Prop := 0 <= z < 2 ^ 8.
Definition is_uint16 (z : Z) : Prop := 0 <= z < 2 ^ 16.
Definition is_int (z : Z) : Prop := - 2 ^ 63 <= z < 2 ^ 63.

(* ================================================================== *)
(** ** Outcomes of a call *)

Inductive result (A : Type) : Type :=
| Ok (a : A)
| Panic
| OutOfFuel.
Arguments Ok {A} a.
Arguments Panic {A}.
Arguments OutOfFuel {A}.

Definition bind {A B : Type} (m : result A) (k : A -> result B) : result B :=
  match m with
  | Ok a => k a
  | Panic => Panic
  | OutOfFuel => OutOfFuel
  end.

Notation "x <- m ;; k" := (bind m (fun x => k))
  (at level 61, m at next level, right associativity).

(* ================================================================== *)
(** ** Fixed arrays of eight elements *)

Record arr8 (A : Type) : Type := Arr8
  { e0 : A; e1 : A; e2 : A; e3 : A; e4 : A; e5 : A; e6 : A; e7 : A }.
Arguments Arr8 {A}.
Arguments e0 {A}.
Arguments e1 {A}.
Arguments e2 {A}.
Arguments e3 {A}.
Arguments e4 {A}.
Arguments e5 {A}.
Arguments e6 {A}.
Arguments e7 {A}.

Section Arr8.
Context {A : Type}.

(** [select a i k] runs [k] on [a[i]]; an index outside [0..7] panics. *)
Definition select {B : Type} (a : arr8 A) (i : Z) (k : A -> result B)
  : result B :=
  match i with
  | 0 => k (e0 a) | 1 => k (e1 a) | 2 => k (e2 a) | 3 => k (e3 a)
  | 4 => k (e4 a) | 5 => k (e5 a) | 6 => k (e6 a) | 7 => k (e7 a)
  | _ => Panic
  end.

(** [a[i]] *)
Definition idx (a : arr8 A) (i : Z) : result A := select a i Ok.

(** [a[i] = x] *)
Definition upd (a : arr8 A) (i : Z) (x : A) : result (arr8 A) :=
  let '(Arr8 a0 a1 a2 a3 a4 a5 a6 a7) := a in
  match i with
  | 0 => Ok (Arr8 x a1 a2 a3 a4 a5 a6 a7)
  | 1 => Ok (Arr8 a0 x a2 a3 a4 a5 a6 a7)
  | 2 => Ok (Arr8 a0 a1 x a3 a4 a5 a6 a7)
  | 3 => Ok (Arr8 a0 a1 a2 x a4 a5 a6 a7)
  | 4 => Ok (Arr8 a0 a1 a2 a3 x a5 a6 a7)
  | 5 => Ok (Arr8 a0 a1 a2 a3 a4 x a6 a7)
  | 6 => Ok (Arr8 a0 a1 a2 a3 a4 a5 x a7)
  | 7 => Ok (Arr8 a0 a1 a2 a3 a4 a5 a6 x)
  | _ => Panic
  end.

(** The elements in index order, as a [range] loop visits them. *)
Definition to_list (a : arr8 A) : list A :=
  [e0 a; e1 a; e2 a; e3 a; e4 a; e5 a; e6 a; e7 a].

(** The pairs [(i, a[i])] of a [for i, c := range a] loop. *)
Definition enumerate (a : arr8 A) : list (Z * A) :=
  [(0, e0 a); (1, e1 a); (2, e2 a); (3, e3 a);
   (4, e4 a); (5, e5 a); (6, e6 a); (7, e7 a)].

(** An array whose eight slots hold [x]. *)
Definition fill (x : A) : arr8 A := Arr8 x x x x x x x x.
End Arr8.

Scheme All for arr8.

Definition arr8_map {A B : Type} (f : A -> B) (a : arr8 A) : arr8 B :=
  Arr8 (f (e0 a)) (f (e1 a)) (f (e2 a)) (f (e3 a))
       (f (e4 a)) (f (e5 a)) (f (e6 a)) (f (e7 a)).

(** A loop that fills a fresh array from [a], slot by slot, and stops at
    the first slot on which [f] does not return. *)
Definition arr8_mapM {A B : Type} (f : A -> result B) (a : arr8 A)
  : result (arr8 B) :=
  b0 <- f (e0 a) ;; b1 <- f (e1 a) ;; b2 <- f (e2 a) ;; b3 <- f (e3 a) ;;
  b4 <- f (e4 a) ;; b5 <- f (e5 a) ;; b6 <- f (e6 a) ;; b7 <- f (e7 a) ;;
  Ok (Arr8 b0 b1 b2 b3 b4 b5 b6 b7).

(* ================================================================== *)
(** ** Data model *)

(** [color.Gray] of the Go image library: one 8-bit intensity. *)
Module color.
Record Gray : Set := mkGray { Y : Z }.
Definition eqb (a b : Gray) : bool := Y a =? Y b.
End color.

Record Point : Set := mkPoint { PX : Z; PY : Z; PZ : Z }.

(** [Cube] embeds a [Point] and adds the side length as a power of two. *)
Record Cube : Set := mkCube { CPoint : Point; SideShift : Z }.

Definition valid_point (p : Point) : Prop :=
  is_uint16 (PX p) /\ is_uint16 (PY p) /\ is_uint16 (PZ p).

Definition valid_cube (c : Cube) : Prop :=
  valid_point (CPoint c) /\ is_uint8 (SideShift c).

(** The three implementers of the [Vocelish] interface. *)
Inductive Vocelish : Type :=
| Vocel1 (pixel : color.Gray)
| Vocel8 (pixel : arr8 color.Gray)
| VocelTree (subtree : arr8 Vocelish).

(* ================================================================== *)
(** ** Octant addressing *)

Definition octIndex (cube : Cube) : Z * Cube :=
  let k := uint8 (SideShift cube - 1) in
  let side := uint16 (Z.shiftl 1 k) in
  let p := CPoint cube in
  let isx := 0 <? Z.shiftr (PX p) k in
  let isy := 0 <? Z.shiftr (PY p) k in
  let isz := 0 <? Z.shiftr (PZ p) k in
  let index := 0 in
  let index := if isx then Z.lor index (Z.shiftl 1 0) else index in
  let index := if isy then Z.lor index (Z.shiftl 1 1) else index in
  let index := if isz then Z.lor index (Z.shiftl 1 2) else index in
  let here :=
    {| SideShift := k;
       CPoint := {| PX := Z.land (PX p) (uint16 (side - 1));
                    PY := Z.land (PY p) (uint16 (side - 1));
                    PZ := Z.land (PZ p) (uint16 (side - 1)) |} |} in
  (index, here).

(* ================================================================== *)
(** ** Node methods: [Nodes], [At], [Set] *)

Fixpoint Nodes (v : Vocelish) : Z :=
  match v with
  | Vocel1 _ => 1
  | Vocel8 _ => 8
  | VocelTree sub =>
      1 + fold_left (fun sum n => sum + n) (to_list (arr8_map Nodes sub)) 0
  end.

Fixpoint At (v : Vocelish) (cube : Cube) : result color.Gray :=
  match v with
  | Vocel1 pixel => Ok pixel
  | Vocel8 pixel => let '(index, _) := octIndex cube in idx pixel index
  | VocelTree subtree =>
      let '(index, here) := octIndex cube in
      select subtree index (fun sub => At sub here)
  end.

(** The type assertion of [sub] to [Vocel1]: its two-value form is
    [isVocel1], its one-value form panics on another variant. *)
Definition isVocel1 (v : Vocelish) : bool :=
  match v with Vocel1 _ => true | _ => false end.

Definition asVocel1 (v : Vocelish) : result color.Gray :=
  match v with Vocel1 pixel => Ok pixel | _ => Panic end.

Section Methods.
(** [dyn] is the call through the [Vocelish] interface. *)
Variable dyn : Vocelish -> Cube -> color.Gray -> result Vocelish.

Definition VocelTree_Set (vt : arr8 Vocelish) (cube : Cube)
           (pixel : color.Gray) : result Vocelish :=
  let '(index, here) := octIndex cube in
  sub <- idx vt index ;;
  vnew <- dyn sub here pixel ;;
  vt <- upd vt index vnew ;;
  let allVocel1 := forallb isVocel1 (to_list vt) in
  if negb allVocel1 then Ok (VocelTree vt)
  else
    pixels <- arr8_mapM asVocel1 vt ;;
    let allSame :=
      forallb (fun ic => negb ((0 <? fst ic)
                               && negb (color.eqb (snd ic) (e0 pixels))))
              (enumerate pixels) in
    if negb allSame then Ok (Vocel8 pixels)
    else Ok (Vocel1 (e0 pixels)).

Definition Vocel8_Set (v8 : arr8 color.Gray) (cube : Cube)
           (pixel : color.Gray) : result Vocelish :=
  let '(index, _) := octIndex cube in
  old <- idx v8 index ;;
  if color.eqb old pixel then Ok (Vocel8 v8)
  else if SideShift cube =? 1 then
    let allSame :=
      forallb (fun ic => negb (negb (index =? fst ic)
                               && negb (color.eqb (snd ic) pixel)))
              (enumerate v8) in
    if negb allSame then
      v8 <- upd v8 index pixel ;; Ok (Vocel8 v8)
    else Ok (Vocel1 pixel)
  else
    dyn (VocelTree (arr8_map Vocel1 v8)) cube pixel.

Definition Vocel1_Set (v1 : color.Gray) (cube : Cube)
           (pixel : color.Gray) : result Vocelish :=
  if (SideShift cube =? 0) || color.eqb pixel v1 then Ok (Vocel1 pixel)
  else dyn (Vocel8 (fill v1)) cube pixel.
End Methods.

(** [Set_ fuel v cube pixel] is [v.Set(cube, pixel)] with at most [fuel]
    nested method calls. *)
Fixpoint Set_ (fuel : nat) (v : Vocelish) (cube : Cube) (pixel : color.Gray)
  : result Vocelish :=
  match fuel with
  | O => OutOfFuel
  | S fuel =>
      match v with
      | Vocel1 v1 => Vocel1_Set (Set_ fuel) v1 cube pixel
      | Vocel8 v8 => Vocel8_Set (Set_ fuel) v8 cube pixel
      | VocelTree vt => VocelTree_Set (Set_ fuel) vt cube pixel
      end
  end.


(** The longest chain of [VocelTree] nodes below [v]. *)
Fixpoint height (v : Vocelish) : nat :=
  match v with
  | VocelTree sub =>
      S (fold_right Nat.max O (to_list (arr8_map height sub)))
  | _ => O
  end.

(** A call budget that is enough for every node and every cube: the
    descent through the stored tree takes [height v] calls, and a leaf
    that splits re-enters [Set] at most three times per unit of
    [SideShift], which is below 256. *)
Definition fuel_of (v : Vocelish) : nat := (height v + 768)%nat.

(** [v.Set(cube, pixel)] *)
Definition Vocelish_Set (v : Vocelish) (cube : Cube) (pixel : color.Gray)
  : result Vocelish :=
  Set_ (fuel_of v) v cube pixel.

(* ================================================================== *)
(** ** The part of Go's [image] package that the container uses *)

Module image.
Record Point : Set := mkPoint { X : Z; Y : Z }.
Record Rectangle : Set := mkRectangle { Min : Point; Max : Point }.

(** [image.Rect] orders its corners. *)
Definition Rect (x0 y0 x1 y1 : Z) : Rectangle :=
  let '(x0, x1) := if x1 <? x0 then (x1, x0) else (x0, x1) in
  let '(y0, y1) := if y1 <? y0 then (y1, y0) else (y0, y1) in
  {| Min := mkPoint x0 y0; Max := mkPoint x1 y1 |}.

Definition Size (r : Rectangle) : Point :=
  {| X := int (X (Max r) - X (Min r)); Y := int (Y (Max r) - Y (Min r)) |}.

Record Gray : Set := mkGray { Pix : list Z; Stride : Z; Bounds : Rectangle }.
End image.

(* ================================================================== *)
(** ** Slices and counted loops *)

Definition len {A : Type} (s : list A) : Z := Z.of_nat (length s).

(** [s[i]]: panics outside [0 .. len s - 1]. *)
Definition load {A : Type} (s : list A) (i : Z) : result A :=
  if i <? 0 then Panic
  else match nth_error s (Z.to_nat i) with
       | Some a => Ok a
       | None => Panic
       end.

Fixpoint replace_nth {A : Type} (s : list A) (n : nat) (a : A) : list A :=
  match s, n with
  | [], _ => []
  | _ :: s, O => a :: s
  | b :: s, S n => b :: replace_nth s n a
  end.

(** [s[i] = a]: panics outside [0 .. len s - 1]. *)
Definition store {A : Type} (s : list A) (i : Z) (a : A) : result (list A) :=
  if (i <? 0) || (len s <=? i) then Panic
  else Ok (replace_nth s (Z.to_nat i) a).

(** [make([]byte, n)]: panics on a negative length. *)
Definition make (n : Z) : result (list Z) :=
  if n <? 0 then Panic else Ok (repeat 0 (Z.to_nat n)).

(** The values [0, 1, .., n-1] of [for i := 0; i < n; i++]. *)
Definition range (n : Z) : list Z := map Z.of_nat (seq 0 (Z.to_nat n)).

(** A loop over [l] that threads the state [s] and stops when the body
    does not return. *)
Fixpoint for_ {S : Type} (l : list Z) (s : S) (body : S -> Z -> result S)
  : result S :=
  match l with
  | [] => Ok s
  | i :: l => s <- body s i ;; for_ l s body
  end.

(* ================================================================== *)
(** ** The container *)

Record Voctree : Type := mkVoctree
  { vocelish : Vocelish;          (* the embedded root node *)
    rectangle : image.Rectangle;  (* the embedded X/Y extent *)
    sideShift : Z }.

Definition black : color.Gray := color.mkGray 0.

(** One of the two loops of [NewVoctree]:
    [for (1 << sideShift) < size { sideShift++ }].  The counter is an
    [int]: [sideShift++] wraps around, and [1 << sideShift] panics on a
    negative count. *)
Fixpoint grow_until (fuel : nat) (shift size : Z) : result Z :=
  match fuel with
  | O => OutOfFuel
  | S fuel =>
      if shift <? 0 then Panic
      else if int (Z.shiftl 1 shift) <? size
      then grow_until fuel (int (shift + 1)) size
      else Ok shift
  end.

(** [NewVoctree] with [fuel] rounds for each of its two loops. *)
Definition NewVoctree_ (fuel : nat) (sizex sizey : Z) : result Voctree :=
  s <- grow_until fuel 0 sizex ;;
  s <- grow_until fuel s sizey ;;
  Ok {| rectangle := image.Rect 0 0 sizex sizey;
        vocelish := Vocel1 black;
        sideShift := uint8 s |}.

(** A loop of [NewVoctree] that returns does so within 63 rounds, at a
    count of at most 62.  Past that count the test [(1 << k) < size] is
    true for good ([1 << 63] is negative and [1 << k] is 0 from [k = 64]
    on): the source then runs until the counter wraps to a negative value
    and the shift panics, which 65 rounds report as [OutOfFuel]. *)
Definition NewVoctree (sizex sizey : Z) : result Voctree :=
  NewVoctree_ 65 sizex sizey.

(** The body of the loop of [resizeSideShift]. *)
Definition wrap_root (v : Voctree) : Voctree :=
  {| sideShift := uint8 (sideShift v + 1);
     vocelish :=
       VocelTree (Arr8 (vocelish v) (Vocel1 black) (Vocel1 black)
                       (Vocel1 black) (Vocel1 black) (Vocel1 black)
                       (Vocel1 black) (Vocel1 black));
     rectangle := rectangle v |}.

Fixpoint resize_ (fuel : nat) (v : Voctree) (z : Z) : result Voctree :=
  match fuel with
  | O => OutOfFuel
  | S fuel =>
      if int (Z.shiftl 1 (sideShift v)) <? z
      then resize_ fuel (wrap_root v) z
      else Ok v
  end.

(** [SideShift] has 256 values and the loop test depends on it alone, so
    a loop that has not stopped after 256 tests never stops. *)
Definition resizeSideShift (v : Voctree) (z : Z) : result Voctree :=
  resize_ 256 v z.

Definition with_root (v : Voctree) (root : Vocelish) : Voctree :=
  {| vocelish := root; rectangle := rectangle v; sideShift := sideShift v |}.

Definition Voctree_Set (v : Voctree) (point : Point) (pixel : color.Gray)
  : result Voctree :=
  root <- Vocelish_Set (vocelish v)
            {| SideShift := sideShift v; CPoint := point |} pixel ;;
  Ok (with_root v root).

Definition Voctree_At (v : Voctree) (point : Point) : result color.Gray :=
  At (vocelish v) {| SideShift := sideShift v; CPoint := point |}.

Definition Voctree_Nodes (v : Voctree) : Z := Nodes (vocelish v).

(** The one checked failure: [fmt.Errorf("pix: expected %v bytes, got %v")]. *)
Inductive error : Set :=
| ShapeMismatch (expected got : Z).

Definition SetPlane (v : Voctree) (z : Z) (gray : image.Gray)
  : result (Voctree * option error) :=
  let size := image.Size (rectangle v) in
  let pix := image.Pix gray in
  let area := int (image.X size * image.Y size) in
  if negb (len pix =? area) then Ok (v, Some (ShapeMismatch area (len pix)))
  else
    v <- resizeSideShift v z ;;
    let cube y x :=
      {| SideShift := sideShift v;
         CPoint := {| PX := uint16 x; PY := uint16 y; PZ := uint16 z |} |} in
    v <- for_ (range (image.Y size)) v (fun v y =>
           for_ (range (image.X size)) v (fun v x =>
             c <- load pix (int (int (y * image.X size) + x)) ;;
             root <- Vocelish_Set (vocelish v) (cube y x) (color.mkGray c) ;;
             Ok (with_root v root))) ;;
    Ok (v, None).

Definition GetPlane (v : Voctree) (z : Z) : result (Voctree * image.Gray) :=
  let size := image.Size (rectangle v) in
  v <- resizeSideShift v z ;;
  pix <- make (int (image.X size * image.Y size)) ;;
  let cube y x :=
    {| SideShift := sideShift v;
       CPoint := {| PX := uint16 x; PY := uint16 y; PZ := uint16 z |} |} in
  pix <- for_ (range (image.Y size)) pix (fun pix y =>
           for_ (range (image.X size)) pix (fun pix x =>
             c <- At (vocelish v) (cube y x) ;;
             store pix (int (int (y * image.X size) + x)) (color.Y c))) ;;
  Ok (v, {| image.Bounds := rectangle v;
            image.Stride := image.X size;
            image.Pix := pix |}).

(* ================================================================== *)
(** ** Vocabulary of the statements *)

(** The valid indices of an [arr8]. *)
Definition in_range8 (i : Z) : Prop := 0 <= i < 8.


(** Total views of indexing, for indices known to be in range. *)
Definition get {A : Type} (a : arr8 A) (i : Z) : A :=
  match i with
  | 0 => e0 a | 1 => e1 a | 2 => e2 a | 3 => e3 a
  | 4 => e4 a | 5 => e5 a | 6 => e6 a | _ => e7 a
  end.

Definition put {A : Type} (a : arr8 A) (i : Z) (x : A) : arr8 A :=
  match i with
  | 0 => Arr8 x (e1 a) (e2 a) (e3 a) (e4 a) (e5 a) (e6 a) (e7 a)
  | 1 => Arr8 (e0 a) x (e2 a) (e3 a) (e4 a) (e5 a) (e6 a) (e7 a)
  | 2 => Arr8 (e0 a) (e1 a) x (e3 a) (e4 a) (e5 a) (e6 a) (e7 a)
  | 3 => Arr8 (e0 a) (e1 a) (e2 a) x (e4 a) (e5 a) (e6 a) (e7 a)
  | 4 => Arr8 (e0 a) (e1 a) (e2 a) (e3 a) x (e5 a) (e6 a) (e7 a)
  | 5 => Arr8 (e0 a) (e1 a) (e2 a) (e3 a) (e4 a) x (e6 a) (e7 a)
  | 6 => Arr8 (e0 a) (e1 a) (e2 a) (e3 a) (e4 a) (e5 a) x (e7 a)
  | _ => Arr8 (e0 a) (e1 a) (e2 a) (e3 a) (e4 a) (e5 a) (e6 a) x
  end.

(** The tail of [VocelTree.Set], after the child slot has been stored:
    the node re-evaluates its own variant. *)
Definition coalesce (vt : arr8 Vocelish) : result Vocelish :=
  let allVocel1 := forallb isVocel1 (to_list vt) in
  if negb allVocel1 then Ok (VocelTree vt)
  else
    pixels <- arr8_mapM asVocel1 vt ;;
    let allSame :=
      forallb (fun ic => negb ((0 <? fst ic)
                               && negb (color.eqb (snd ic) (e0 pixels))))
              (enumerate pixels) in
    if negb allSame then Ok (Vocel8 pixels)
    else Ok (Vocel1 (e0 pixels)).

(** Every slot of [a] holds [c]. *)
Definition all_equal {A : Type} (a : arr8 A) (c : A) : Prop :=
  forall i, in_range8 i -> get a i = c.

(** [d'] returns whatever [d] returns. *)
Definition dyn_le (d d' : Vocelish -> Cube -> color.Gray -> result Vocelish)
  : Prop :=
  forall v cube pixel r, d v cube pixel = Ok r -> d' v cube pixel = Ok r.

(** The eight slots of [a] hold one value. *)
Definition all_same {A : Type} (a : arr8 A) : Prop :=
  forall i j, in_range8 i -> in_range8 j -> get a i = get a j.

(** The write of a UniformLeaf as the design document words it: store in
    place at [shift = 0] or on an equal value; otherwise materialize an
    InternalNode of eight UniformLeafs of the original value and delegate
    the write to it. *)
Definition UniformLeaf_write (stored : color.Gray) (cube : Cube)
           (value : color.Gray) : result Vocelish :=
  if (SideShift cube =? 0) || color.eqb value stored
  then Ok (Vocel1 value)
  else Vocelish_Set (VocelTree (fill (Vocel1 stored))) cube value.

(** The volume states that a program can reach through the public
    operations.  [At] is a read of the node tree and leaves the volume as
    it is. *)
Inductive reachable : Voctree -> Prop :=
| reach_New sizex sizey v :
    NewVoctree sizex sizey = Ok v -> reachable v
| reach_Set v point pixel v' :
    reachable v -> valid_point point ->
    Voctree_Set v point pixel = Ok v' -> reachable v'
| reach_At v point pixel :
    reachable v -> valid_point point ->
    Voctree_At v point = Ok pixel -> reachable v
| reach_SetPlane v z gray v' err :
    reachable v -> is_int z ->
    SetPlane v z gray = Ok (v', err) -> reachable v'
| reach_GetPlane v z v' gray :
    reachable v -> is_int z ->
    GetPlane v z = Ok (v', gray) -> reachable v'.

(** The states that a program can reach from [NewVoctree(sizex, sizey)]:
    [reachable], with the arguments of the creation kept. *)
Inductive created (sizex sizey : Z) : Voctree -> Prop :=
| cr_New v :
    NewVoctree sizex sizey = Ok v -> created sizex sizey v
| cr_Set v point pixel v' :
    created sizex sizey v -> valid_point point ->
    Voctree_Set v point pixel = Ok v' -> created sizex sizey v'
| cr_At v point pixel :
    created sizex sizey v -> valid_point point ->
    Voctree_At v point = Ok pixel -> created sizex sizey v
| cr_SetPlane v z gray v' err :
    created sizex sizey v -> is_int z ->
    SetPlane v z gray = Ok (v', err) -> created sizex sizey v'
| cr_GetPlane v z v' gray :
    created sizex sizey v -> is_int z ->
    GetPlane v z = Ok (v', gray) -> created sizex sizey v'.

(** The shifts a terminating [NewVoctree] or [resizeSideShift] can leave:
    [1 << 63] is negative and [1 << 64] is 0 in an [int]. *)
Definition shift_ok (v : Voctree) : Prop := 0 <= sideShift v <= 62.

(** [v.Size()], promoted from the embedded rectangle: the fixed extent. *)
Definition Voctree_Size (v : Voctree) : image.Point :=
  image.Size (rectangle v).

(** [n] rounds of the loop body of [resizeSideShift]. *)
Definition grown (n : nat) (v : Voctree) : Voctree :=
  Nat.iter n wrap_root v.

(** The compactness invariant of a node addressed at shift [n]: a
    [VocelTree] never has eight [Vocel1] children, a [Vocel8] never holds
    eight equal pixels, and at shift 0 there is only [Vocel1]. *)
Fixpoint compact (n : nat) (v : Vocelish) {struct n} : Prop :=
  match v with
  | Vocel1 _ => True
  | Vocel8 px => n <> O /\ ~ all_same px
  | VocelTree sub =>
      match n with
      | O => False
      | S m =>
          (forall i, in_range8 i -> compact m (get sub i)) /\
          ~ (forall i, in_range8 i -> isVocel1 (get sub i) = true)
      end
  end.

Definition Voctree_compact (v : Voctree) : Prop :=
  compact (Z.to_nat (sideShift v)) (vocelish v).

(** A plane operation at [z] either needs no growth or grows over a root
    that is not a [Vocel1]. *)
Definition no_leaf_growth (v : Voctree) (z : Z) : Prop :=
  z <= 2 ^ sideShift v \/ isVocel1 (vocelish v) = false.

(** The states reachable without ever growing the depth over a [Vocel1]
    root. *)
Inductive reachable_compact : Voctree -> Prop :=
| rc_New sizex sizey v :
    NewVoctree sizex sizey = Ok v -> reachable_compact v
| rc_Set v point pixel v' :
    reachable_compact v -> valid_point point ->
    Voctree_Set v point pixel = Ok v' -> reachable_compact v'
| rc_At v point pixel :
    reachable_compact v -> valid_point point ->
    Voctree_At v point = Ok pixel -> reachable_compact v
| rc_SetPlane v z gray v' err :
    reachable_compact v -> is_int z -> no_leaf_growth v z ->
    SetPlane v z gray = Ok (v', err) -> reachable_compact v'
| rc_GetPlane v z v' gray :
    reachable_compact v -> is_int z -> no_leaf_growth v z ->
    GetPlane v z = Ok (v', gray) -> reachable_compact v'.

(** The points of a cube of shift [s]: every axis below [2^s]. *)
Definition in_cube (s : Z) (p : Point) : Prop :=
  0 <= PX p < 2 ^ s /\ 0 <= PY p < 2 ^ s /\ 0 <= PZ p < 2 ^ s.

(** The voxels of a volume: 16-bit points inside its cube. *)
Definition in_volume (v : Voctree) (p : Point) : Prop :=
  valid_point p /\ in_cube (sideShift v) p.

(** The point of octant [i] of a cube of shift [m + 1] whose residue in
    that octant is [p]. *)
Definition corner (m i : Z) (p : Point) : Point :=
  {| PX := (if Z.testbit i 0 then 2 ^ m else 0) + PX p;
     PY := (if Z.testbit i 1 then 2 ^ m else 0) + PY p;
     PZ := (if Z.testbit i 2 then 2 ^ m else 0) + PZ p |}.

(** A sequence of voxel writes. *)
Fixpoint Voctree_Sets (v : Voctree) (writes : list (Point * color.Gray))
  : result Voctree :=
  match writes with
  | [] => Ok v
  | (point, pixel) :: writes =>
      v <- Voctree_Set v point pixel ;; Voctree_Sets v writes
  end.

(** The shape every node has when addressed at shift [n]: below a
    [VocelTree] the shift drops by one, and nothing but a [Vocel1] sits
    at shift 0.  (Compactness without its two "never all equal"
    clauses.) *)
Fixpoint shaped (n : nat) (v : Vocelish) {struct n} : Prop :=
  match v with
  | Vocel1 _ => True
  | Vocel8 _ => n <> O
  | VocelTree sub =>
      match n with
      | O => False
      | S m => forall i, in_range8 i -> shaped m (get sub i)
      end
  end.

(** [p] and [q] select the same octant at every level of a descent that
    starts at shift [n]. *)
Fixpoint same_path (n : nat) (p q : Point) : bool :=
  match n with
  | O => true
  | S m =>
      let cp := octIndex {| SideShift := Z.of_nat (S m); CPoint := p |} in
      let cq := octIndex {| SideShift := Z.of_nat (S m); CPoint := q |} in
      (fst cp =? fst cq)
      && same_path m (CPoint (snd cp)) (CPoint (snd cq))
  end.

Definition Voctree_shaped (v : Voctree) : Prop :=
  shaped (Z.to_nat (sideShift v)) (vocelish v).

Definition Point_eqb (p q : Point) : bool :=
  (PX p =? PX q) && (PY p =? PY q) && (PZ p =? PZ q).

(** The pixel of the last write to [q] in a sequence of writes. *)
Fixpoint last_write (q : Point) (writes : list (Point * color.Gray))
  : option color.Gray :=
  match writes with
  | [] => None
  | (p, c) :: writes =>
      match last_write q writes with
      | Some c' => Some c'
      | None => if Point_eqb p q then Some c else None
      end
  end.

(** Where an unchecked coordinate lands in a cube of shift [s]: the bit
    tested by [octIndex] says which half, the low [s - 1] bits say where
    in that half. *)
Definition alias_axis (s x : Z) : Z :=
  (if 0 <? Z.shiftr x (s - 1) then 2 ^ (s - 1) else 0) + x mod 2 ^ (s - 1).

Definition alias (s : Z) (p : Point) : Point :=
  {| PX := alias_axis s (PX p);
     PY := alias_axis s (PY p);
     PZ := alias_axis s (PZ p) |}.

(** What a node reads for a cube, as a value ([At] always returns). *)
Definition peek (v : Vocelish) (cube : Cube) : color.Gray :=
  match At v cube with
  | Ok c => c
  | _ => black
  end.

(** The point [SetPlane] and [GetPlane] address for column [x], row [y]
    of plane [z]. *)
Definition plane_point (z x y : Z) : Point :=
  {| PX := uint16 x; PY := uint16 y; PZ := uint16 z |}.

(** The byte [GetPlane] stores for column [x], row [y] of plane [z]. *)
Definition plane_read (v : Voctree) (z x y : Z) : Z :=
  color.Y (peek (vocelish v)
                {| SideShift := sideShift v; CPoint := plane_point z x y |}).

(** A row-major buffer of [h] rows of [w] entries. *)
Definition row_major {A : Type} (w h : Z) (entry : Z -> Z -> A) : list A :=
  flat_map (fun y => map (fun x => entry y x) (range w)) (range h).

(** The writes of one [SetPlane], in the order of its two loops. *)
Definition plane_writes (z w h : Z) (pix : list Z)
  : list (Point * color.Gray) :=
  row_major w h
    (fun y x => (plane_point z x y,
                 color.mkGray (nth (Z.to_nat (y * w + x)) pix 0))).

(** [q] is a voxel of plane [z] inside a [w] by [h] extent. *)
Definition in_plane (z w h : Z) (q : Point) : bool :=
  (PZ q =? z) && (PX q <? w) && (PY q <? h).

(** A sequence of [SetPlane] calls whose error result is dropped, as in
    [for z := ...; v.SetPlane(z, img)]. *)
Fixpoint SetPlanes (v : Voctree) (planes : list (Z * image.Gray))
  : result Voctree :=
  match planes with
  | [] => Ok v
  | (z, gray) :: planes =>
      r <- SetPlane v z gray ;; SetPlanes (fst r) planes
  end.

(* ================================================================== *)
(** * Properties *)

(** ** The [result] monad *)

Lemma bind_Ok_inv {A B : Type} (m : result A) (k : A -> result B) (b : B) :
  bind m k = Ok b -> exists a, m = Ok a /\ k a = Ok b.
Proof. destruct m; simpl; intros H; try discriminate. eauto. Qed.

Ltac inv_bind H :=
  let a := fresh "a" in
  let Ha := fresh "Ha" in
  apply bind_Ok_inv in H; destruct H as (a & Ha & H).

(** ** Arrays *)

Lemma in_range8_cases (i : Z) :
  in_range8 i ->
  i = 0 \/ i = 1 \/ i = 2 \/ i = 3 \/ i = 4 \/ i = 5 \/ i = 6 \/ i = 7.
Proof. unfold in_range8; lia. Qed.

Ltac case_index i H :=
  let E := fresh "E" in
  destruct (in_range8_cases i H) as [E|[E|[E|[E|[E|[E|[E|E]]]]]]]; subst i.

Lemma select_get {A B : Type} (a : arr8 A) (i : Z) (k : A -> result B) :
  in_range8 i -> select a i k = k (get a i).
Proof. intros H; case_index i H; reflexivity. Qed.

Lemma idx_get {A : Type} (a : arr8 A) (i : Z) :
  in_range8 i -> idx a i = Ok (get a i).
Proof. apply select_get. Qed.

Lemma upd_put {A : Type} (a : arr8 A) (i : Z) (x : A) :
  in_range8 i -> upd a i x = Ok (put a i x).
Proof. intros H; destruct a; case_index i H; reflexivity. Qed.

Lemma idx_Ok_range {A : Type} (a : arr8 A) (i : Z) (x : A) :
  idx a i = Ok x -> in_range8 i.
Proof.
  unfold idx, select, in_range8.
  destruct i as [|p|p]; try discriminate; [lia|].
  do 3 (destruct p as [p|p|]; try discriminate; try lia).
Qed.

Lemma get_put_same {A : Type} (a : arr8 A) (i : Z) (x : A) :
  in_range8 i -> get (put a i x) i = x.
Proof. intros H; case_index i H; reflexivity. Qed.

Lemma get_put_other {A : Type} (a : arr8 A) (i j : Z) (x : A) :
  in_range8 i -> in_range8 j -> i <> j -> get (put a i x) j = get a j.
Proof.
  intros Hi Hj Hne; case_index i Hi; case_index j Hj;
    try reflexivity; contradiction.
Qed.

Lemma put_get_id {A : Type} (a : arr8 A) (i : Z) :
  put a i (get a i) = a.
Proof.
  destruct a; unfold put, get; simpl.
  destruct i as [|p|p]; try reflexivity.
  do 3 (destruct p as [p|p|]; try reflexivity).
Qed.

Lemma put_put {A : Type} (a : arr8 A) (i : Z) (x y : A) :
  put (put a i x) i y = put a i y.
Proof.
  destruct a; unfold put; simpl.
  destruct i as [|p|p]; try reflexivity.
  do 3 (destruct p as [p|p|]; try reflexivity).
Qed.

Lemma get_map {A B : Type} (f : A -> B) (a : arr8 A) (i : Z) :
  get (arr8_map f a) i = f (get a i).
Proof.
  unfold get, arr8_map; simpl.
  destruct i as [|p|p]; try reflexivity.
  do 3 (destruct p as [p|p|]; try reflexivity).
Qed.

Lemma get_fill {A : Type} (x : A) (i : Z) : get (fill x) i = x.
Proof.
  unfold get, fill; simpl.
  destruct i as [|p|p]; try reflexivity.
  do 3 (destruct p as [p|p|]; try reflexivity).
Qed.

Lemma get_In {A : Type} (a : arr8 A) (i : Z) : In (get a i) (to_list a).
Proof.
  unfold get, to_list.
  destruct i as [|p|p]; simpl; auto 10.
  do 3 (destruct p as [p|p|]; simpl; auto 10).
Qed.

Lemma arr8_ext {A : Type} (a b : arr8 A) :
  (forall i, in_range8 i -> get a i = get b i) -> a = b.
Proof.
  intros H; destruct a, b.
  pose proof (H 0) as H0; pose proof (H 1) as H1; pose proof (H 2) as H2;
  pose proof (H 3) as H3; pose proof (H 4) as H4; pose proof (H 5) as H5;
  pose proof (H 6) as H6; pose proof (H 7) as H7.
  unfold in_range8 in *; simpl in *.
  rewrite H0, H1, H2, H3, H4, H5, H6, H7 by lia. reflexivity.
Qed.

Lemma to_list_forall {A : Type} (P : A -> Prop) (a : arr8 A) :
  (forall x, In x (to_list a) -> P x) <->
  (forall i, in_range8 i -> P (get a i)).
Proof.
  split.
  - intros H i _. apply H, get_In.
  - intros H x Hin. unfold to_list in Hin; simpl in Hin.
    destruct Hin as [<-|[<-|[<-|[<-|[<-|[<-|[<-|[<-|[]]]]]]]]];
      [apply (H 0)|apply (H 1)|apply (H 2)|apply (H 3)
      |apply (H 4)|apply (H 5)|apply (H 6)|apply (H 7)];
      unfold in_range8; lia.
Qed.

(** ** Gray values *)

Lemma color_eqb_eq (a b : color.Gray) : color.eqb a b = true <-> a = b.
Proof.
  unfold color.eqb; destruct a, b; simpl; rewrite Z.eqb_eq.
  split; [intros ->; reflexivity | intros [= ->]; reflexivity].
Qed.

Lemma color_eqb_refl (a : color.Gray) : color.eqb a a = true.
Proof. apply color_eqb_eq; reflexivity. Qed.

Lemma color_eqb_neq (a b : color.Gray) : color.eqb a b = false <-> a <> b.
Proof.
  rewrite <- color_eqb_eq. destruct (color.eqb a b); split; congruence.
Qed.

Lemma color_eqb_sym (a b : color.Gray) : color.eqb a b = color.eqb b a.
Proof. unfold color.eqb; apply Z.eqb_sym. Qed.

(** ** Octant addressing *)

Lemma forallb_range (f : Z -> bool) (n : Z) :
  forallb f (range n) = true -> forall k, 0 <= k < n -> f k = true.
Proof.
  intros H k Hk. rewrite forallb_forall in H. apply H.
  unfold range. apply in_map_iff. exists (Z.to_nat k).
  split; [lia | apply in_seq; lia].
Qed.

(** The mask [side - 1] keeps the low [k] bits, all sixteen once [side]
    has overflowed to 0. *)
Lemma octIndex_mask (k : Z) :
  0 <= k < 256 ->
  uint16 (uint16 (Z.shiftl 1 k) - 1) = Z.ones (Z.min k 16).
Proof.
  intros Hk. apply Z.eqb_eq.
  apply (forallb_range
           (fun k => uint16 (uint16 (Z.shiftl 1 k) - 1) =? Z.ones (Z.min k 16))
           256); [vm_compute; reflexivity | exact Hk].
Qed.

Lemma uint8_range (z : Z) : is_uint8 (uint8 z).
Proof. unfold is_uint8, uint8. apply Z.mod_pos_bound. lia. Qed.

Lemma uint8_small (z : Z) : is_uint8 z -> uint8 z = z.
Proof. unfold is_uint8, uint8. intros H. apply Z.mod_small. exact H. Qed.

Lemma uint16_small (z : Z) : is_uint16 z -> uint16 z = z.
Proof. unfold is_uint16, uint16. intros H. apply Z.mod_small. exact H. Qed.

Lemma octIndex_index (cube : Cube) : in_range8 (fst (octIndex cube)).
Proof.
  unfold octIndex, in_range8; simpl.
  destruct (0 <? Z.shiftr (PX (CPoint cube)) _),
           (0 <? Z.shiftr (PY (CPoint cube)) _),
           (0 <? Z.shiftr (PZ (CPoint cube)) _); simpl; lia.
Qed.

Lemma octIndex_shift (cube : Cube) :
  SideShift (snd (octIndex cube)) = uint8 (SideShift cube - 1).
Proof. reflexivity. Qed.

Lemma masked_coord (x k : Z) :
  is_uint16 x -> 0 <= k < 256 ->
  Z.land x (uint16 (uint16 (Z.shiftl 1 k) - 1)) = x mod 2 ^ Z.min k 16.
Proof.
  intros Hx Hk. rewrite octIndex_mask by exact Hk.
  apply Z.land_ones. lia.
Qed.

Lemma masked_coord_bound (x k : Z) :
  is_uint16 x -> 0 <= k < 256 ->
  0 <= Z.land x (uint16 (uint16 (Z.shiftl 1 k) - 1)) < 2 ^ k /\
  is_uint16 (Z.land x (uint16 (uint16 (Z.shiftl 1 k) - 1))).
Proof.
  intros Hx Hk. rewrite masked_coord by assumption.
  assert (Hm : 0 <= x mod 2 ^ Z.min k 16 < 2 ^ Z.min k 16)
    by (apply Z.mod_pos_bound; apply Z.pow_pos_nonneg; lia).
  assert (H1 : 2 ^ Z.min k 16 <= 2 ^ k)
    by (apply Z.pow_le_mono_r; lia).
  assert (H2 : 2 ^ Z.min k 16 <= 2 ^ 16)
    by (apply Z.pow_le_mono_r; lia).
  unfold is_uint16. lia.
Qed.

Lemma octIndex_valid (cube : Cube) :
  valid_cube cube -> valid_cube (snd (octIndex cube)).
Proof.
  intros [(Hx & Hy & Hz) Hs].
  pose proof (uint8_range (SideShift cube - 1)) as Hk.
  unfold octIndex, valid_cube, valid_point; simpl.
  repeat split; try apply masked_coord_bound; try apply Hk; assumption.
Qed.

(** The residual descriptor of a cube with [SideShift >= 1]. *)
Lemma octIndex_here (cube : Cube) :
  valid_cube cube -> 1 <= SideShift cube ->
  let here := snd (octIndex cube) in
  SideShift here = SideShift cube - 1 /\
  0 <= PX (CPoint here) < 2 ^ (SideShift cube - 1) /\
  0 <= PY (CPoint here) < 2 ^ (SideShift cube - 1) /\
  0 <= PZ (CPoint here) < 2 ^ (SideShift cube - 1).
Proof.
  intros [(Hx & Hy & Hz) Hs] H1.
  assert (Hk : uint8 (SideShift cube - 1) = SideShift cube - 1)
    by (apply uint8_small; unfold is_uint8 in *; lia).
  unfold octIndex; simpl. rewrite Hk.
  assert (Hr : 0 <= SideShift cube - 1 < 256)
    by (unfold is_uint8 in Hs; lia).
  repeat split; try apply masked_coord_bound; assumption.
Qed.

Arguments octIndex : simpl never.

(** ** Loops over an array *)

Lemma forallb_enumerate {A : Type} (f : Z * A -> bool) (a : arr8 A) :
  forallb f (enumerate a) = true <->
  (forall i, in_range8 i -> f (i, get a i) = true).
Proof.
  unfold enumerate; simpl. rewrite !andb_true_iff. split.
  - intros H i Hi. case_index i Hi; simpl; tauto.
  - intros H.
    repeat split;
      first [ apply (H 0) | apply (H 1) | apply (H 2) | apply (H 3)
            | apply (H 4) | apply (H 5) | apply (H 6) | apply (H 7) ];
      unfold in_range8; lia.
Qed.

Lemma forallb_to_list {A : Type} (f : A -> bool) (a : arr8 A) :
  forallb f (to_list a) = true <->
  (forall i, in_range8 i -> f (get a i) = true).
Proof.
  rewrite forallb_forall. apply (to_list_forall (fun x => f x = true)).
Qed.

Lemma all_Vocel1 (vt : arr8 Vocelish) :
  (forall i, in_range8 i -> isVocel1 (get vt i) = true) ->
  exists px, vt = arr8_map Vocel1 px.
Proof.
  intros H. destruct vt as [s0 s1 s2 s3 s4 s5 s6 s7].
  pose proof (H 0) as H0; pose proof (H 1) as H1; pose proof (H 2) as H2;
  pose proof (H 3) as H3; pose proof (H 4) as H4; pose proof (H 5) as H5;
  pose proof (H 6) as H6; pose proof (H 7) as H7. clear H.
  unfold in_range8 in *; simpl in *.
  destruct s0; try (discriminate H0; lia). clear H0.
  destruct s1; try (discriminate H1; lia). clear H1.
  destruct s2; try (discriminate H2; lia). clear H2.
  destruct s3; try (discriminate H3; lia). clear H3.
  destruct s4; try (discriminate H4; lia). clear H4.
  destruct s5; try (discriminate H5; lia). clear H5.
  destruct s6; try (discriminate H6; lia). clear H6.
  destruct s7; try (discriminate H7; lia). clear H7.
  eexists (Arr8 _ _ _ _ _ _ _ _). reflexivity.
Qed.

Lemma mapM_asVocel1 (px : arr8 color.Gray) :
  arr8_mapM asVocel1 (arr8_map Vocel1 px) = Ok px.
Proof. destruct px; reflexivity. Qed.

Lemma allSame_first (px : arr8 color.Gray) :
  forallb (fun ic => negb ((0 <? fst ic)
                           && negb (color.eqb (snd ic) (e0 px))))
          (enumerate px) = true <-> all_equal px (e0 px).
Proof.
  rewrite forallb_enumerate. unfold all_equal.
  split; intros H i Hi; specialize (H i Hi); simpl in *.
  - case_index i Hi; simpl in *; try reflexivity;
      rewrite negb_involutive in H; apply color_eqb_eq; exact H.
  - rewrite H, color_eqb_refl. simpl. rewrite andb_false_r. reflexivity.
Qed.

Lemma allSame_others (px : arr8 color.Gray) (index : Z) (pixel : color.Gray) :
  forallb (fun ic => negb (negb (index =? fst ic)
                           && negb (color.eqb (snd ic) pixel)))
          (enumerate px) = true <->
  (forall i, in_range8 i -> i <> index -> get px i = pixel).
Proof.
  rewrite forallb_enumerate.
  split; intros H i Hi.
  - intros Hne. specialize (H i Hi). simpl in H.
    destruct (Z.eqb_spec index i); [congruence|]. simpl in H.
    rewrite negb_involutive in H. apply color_eqb_eq; exact H.
  - simpl. destruct (Z.eqb_spec index i); [reflexivity|]. simpl.
    rewrite negb_involutive. apply color_eqb_eq. apply H; auto.
Qed.

(** ** What [coalesce] returns *)

Lemma coalesce_cases (vt : arr8 Vocelish) :
  (forallb isVocel1 (to_list vt) = false /\ coalesce vt = Ok (VocelTree vt))
  \/ (exists px, vt = arr8_map Vocel1 px /\
        ((all_equal px (e0 px) /\ coalesce vt = Ok (Vocel1 (e0 px))) \/
         (~ all_equal px (e0 px) /\ coalesce vt = Ok (Vocel8 px)))).
Proof.
  unfold coalesce.
  destruct (forallb isVocel1 (to_list vt)) eqn:E; cbn [negb];
    [right | left; auto].
  rewrite forallb_to_list in E. destruct (all_Vocel1 vt E) as [px ->].
  exists px. split; [reflexivity|].
  rewrite mapM_asVocel1; cbn [bind].
  match goal with |- context [forallb ?f ?l] =>
    destruct (forallb f l) eqn:E2 end; cbn [negb].
  - left. split; [apply allSame_first; exact E2 | reflexivity].
  - right. split; [|reflexivity].
    intros H. apply allSame_first in H. congruence.
Qed.

Lemma coalesce_total (vt : arr8 Vocelish) : exists r, coalesce vt = Ok r.
Proof.
  destruct (coalesce_cases vt) as [[_ H]|(px & _ & [[_ H]|[_ H]])]; eauto.
Qed.

(** ** The three [Set] methods, with indexing known to be in range *)

Lemma VocelTree_Set_eq d (vt : arr8 Vocelish) cube pixel :
  VocelTree_Set d vt cube pixel =
  (vnew <- d (get vt (fst (octIndex cube))) (snd (octIndex cube)) pixel ;;
   coalesce (put vt (fst (octIndex cube)) vnew)).
Proof.
  unfold VocelTree_Set. pose proof (octIndex_index cube) as Hi.
  destruct (octIndex cube) as [index here]; simpl in *.
  rewrite idx_get by exact Hi. simpl.
  destruct (d (get vt index) here pixel); simpl; try reflexivity.
  rewrite upd_put by exact Hi. reflexivity.
Qed.

Lemma Vocel8_Set_eq d (v8 : arr8 color.Gray) cube pixel :
  Vocel8_Set d v8 cube pixel =
  let index := fst (octIndex cube) in
  if color.eqb (get v8 index) pixel then Ok (Vocel8 v8)
  else if SideShift cube =? 1 then
    if forallb (fun ic => negb (negb (index =? fst ic)
                                && negb (color.eqb (snd ic) pixel)))
               (enumerate v8)
    then Ok (Vocel1 pixel)
    else Ok (Vocel8 (put v8 index pixel))
  else d (VocelTree (arr8_map Vocel1 v8)) cube pixel.
Proof.
  unfold Vocel8_Set. pose proof (octIndex_index cube) as Hi.
  destruct (octIndex cube) as [index here]; cbn [fst snd] in *.
  rewrite idx_get by exact Hi. cbn [bind].
  destruct (color.eqb (get v8 index) pixel); [reflexivity|].
  destruct (SideShift cube =? 1); [|reflexivity].
  match goal with |- context [forallb ?f ?l] => destruct (forallb f l) end;
    cbn [negb]; [reflexivity|].
  rewrite upd_put by exact Hi. reflexivity.
Qed.

(** ** More fuel never changes a result *)

Lemma Vocel1_Set_mono d d' v1 cube pixel r :
  dyn_le d d' ->
  Vocel1_Set d v1 cube pixel = Ok r -> Vocel1_Set d' v1 cube pixel = Ok r.
Proof.
  intros Hd. unfold Vocel1_Set.
  destruct ((SideShift cube =? 0) || color.eqb pixel v1); auto.
Qed.

Lemma Vocel8_Set_mono d d' v8 cube pixel r :
  dyn_le d d' ->
  Vocel8_Set d v8 cube pixel = Ok r -> Vocel8_Set d' v8 cube pixel = Ok r.
Proof.
  intros Hd. rewrite !Vocel8_Set_eq. simpl.
  destruct (color.eqb _ pixel); auto.
  destruct (SideShift cube =? 1); auto.
Qed.

Lemma VocelTree_Set_mono d d' vt cube pixel r :
  dyn_le d d' ->
  VocelTree_Set d vt cube pixel = Ok r ->
  VocelTree_Set d' vt cube pixel = Ok r.
Proof.
  intros Hd. rewrite !VocelTree_Set_eq. intros H. inv_bind H.
  rewrite (Hd _ _ _ _ Ha). exact H.
Qed.

Lemma Set_mono_S (fuel : nat) :
  dyn_le (Set_ fuel) (Set_ (S fuel)).
Proof.
  induction fuel as [|fuel IH]; intros v cube pixel r H;
    [discriminate|].
  destruct v; simpl in H |- *.
  - eapply Vocel1_Set_mono; eauto.
  - eapply Vocel8_Set_mono; eauto.
  - eapply VocelTree_Set_mono; eauto.
Qed.

Lemma Set_mono (fuel fuel' : nat) :
  (fuel <= fuel')%nat -> dyn_le (Set_ fuel) (Set_ fuel').
Proof.
  induction 1 as [|m _ IH]; intros v cube pixel r H; [exact H|].
  apply Set_mono_S, IH, H.
Qed.

Lemma Set_det (fuel fuel' : nat) v cube pixel r r' :
  Set_ fuel v cube pixel = Ok r -> Set_ fuel' v cube pixel = Ok r' -> r = r'.
Proof.
  intros H H'.
  destruct (Nat.le_ge_cases fuel fuel') as [Hle|Hle].
  - apply (Set_mono _ _ Hle) in H. congruence.
  - apply (Set_mono _ _ Hle) in H'. congruence.
Qed.

(** ** Every call returns: the budget [fuel_of] is enough *)

Lemma arr8_all_get {A : Type} (P : A -> Prop) (a : arr8 A) :
  arr8_all A P a -> forall i, P (get a i).
Proof.
  intros [x0 p0 x1 p1 x2 p2 x3 p3 x4 p4 x5 p5 x6 p6 x7 p7] i.
  unfold get; simpl.
  destruct i as [|p|p]; try assumption.
  do 3 (destruct p as [p|p|]; try assumption).
Qed.

Lemma height_child (sub : arr8 Vocelish) (i : Z) :
  (height (get sub i) < height (VocelTree sub))%nat.
Proof.
  destruct sub; unfold get; simpl.
  destruct i as [|p|p]; try lia.
  do 3 (destruct p as [p|p|]; try lia).
Qed.

Lemma here_shift_nat (cube : Cube) (n : nat) :
  SideShift cube = Z.of_nat (S n) -> is_uint8 (SideShift cube) ->
  SideShift (snd (octIndex cube)) = Z.of_nat n.
Proof.
  intros Hs Hr. rewrite octIndex_shift. rewrite uint8_small.
  - lia.
  - unfold is_uint8 in *. lia.
Qed.

Lemma Set_Vocel1_total (n : nat) :
  forall fuel cube o pixel,
    valid_cube cube -> SideShift cube = Z.of_nat n ->
    (3 * n + 1 <= fuel)%nat ->
    exists r, Set_ fuel (Vocel1 o) cube pixel = Ok r.
Proof.
  induction n as [|n IH]; intros fuel cube o pixel Hv Hs Hf;
    (destruct fuel as [|fuel]; [lia|]); simpl; unfold Vocel1_Set.
  - rewrite Hs. simpl. eauto.
  - destruct ((SideShift cube =? 0) || color.eqb pixel o); [eauto|].
    destruct fuel as [|fuel]; [lia|]. simpl. rewrite Vocel8_Set_eq.
    cbn zeta.
    destruct (color.eqb _ pixel); [eauto|].
    destruct (SideShift cube =? 1).
    { match goal with |- context [forallb ?f ?l] =>
        destruct (forallb f l) end; eauto. }
    destruct fuel as [|fuel]; [lia|]. simpl. rewrite VocelTree_Set_eq.
    rewrite get_map.
    destruct (IH fuel (snd (octIndex cube)) (get (fill o) (fst (octIndex cube)))
                 pixel) as [vnew Hvnew].
    + apply octIndex_valid; exact Hv.
    + apply here_shift_nat; [exact Hs | apply Hv].
    + lia.
    + rewrite Hvnew. cbn [bind]. apply coalesce_total.
Qed.

Lemma Set_Vocel8_total fuel cube (px : arr8 color.Gray) pixel :
  valid_cube cube -> (768 <= fuel)%nat ->
  exists r, Set_ fuel (Vocel8 px) cube pixel = Ok r.
Proof.
  intros Hv Hf.
  destruct fuel as [|fuel]; [lia|]. simpl. rewrite Vocel8_Set_eq.
  cbn zeta.
  destruct (color.eqb _ pixel); [eauto|].
  destruct (SideShift cube =? 1).
  { match goal with |- context [forallb ?f ?l] =>
      destruct (forallb f l) end; eauto. }
  destruct fuel as [|fuel]; [lia|]. simpl. rewrite VocelTree_Set_eq.
  rewrite get_map.
  pose proof (octIndex_valid cube Hv) as Hh.
  destruct (Set_Vocel1_total (Z.to_nat (SideShift (snd (octIndex cube))))
              fuel (snd (octIndex cube)) (get px (fst (octIndex cube))) pixel)
    as [vnew Hvnew].
  - exact Hh.
  - destruct Hh as [_ Hh]. unfold is_uint8 in Hh. lia.
  - destruct Hh as [_ Hh]. unfold is_uint8 in Hh. lia.
  - rewrite Hvnew. cbn [bind]. apply coalesce_total.
Qed.

Lemma Set_total (v : Vocelish) :
  forall fuel cube pixel,
    valid_cube cube -> (height v + 768 <= fuel)%nat ->
    exists r, Set_ fuel v cube pixel = Ok r.
Proof.
  induction v as [o|px|sub IH]; intros fuel cube pixel Hv Hf.
  - apply (Set_Vocel1_total (Z.to_nat (SideShift cube))); auto.
    + destruct Hv as [_ Hs]. unfold is_uint8 in Hs. lia.
    + destruct Hv as [_ Hs]. unfold is_uint8 in Hs. simpl in Hf. lia.
  - apply Set_Vocel8_total; auto.
  - destruct fuel as [|fuel]; [lia|]. simpl. rewrite VocelTree_Set_eq.
    pose proof (height_child sub (fst (octIndex cube))) as Hh.
    destruct (arr8_all_get _ _ IH (fst (octIndex cube)) fuel
                (snd (octIndex cube)) pixel) as [vnew Hvnew].
    + apply octIndex_valid; exact Hv.
    + lia.
    + rewrite Hvnew. cbn [bind]. apply coalesce_total.
Qed.

Lemma Vocelish_Set_total v cube pixel :
  valid_cube cube -> exists r, Vocelish_Set v cube pixel = Ok r.
Proof.
  intros Hv. apply Set_total; [exact Hv | unfold fuel_of; lia].
Qed.

(** A result obtained with any budget is the result of the method. *)
Lemma Vocelish_Set_fuel fuel v cube pixel r :
  valid_cube cube ->
  Set_ fuel v cube pixel = Ok r -> Vocelish_Set v cube pixel = Ok r.
Proof.
  intros Hv H. destruct (Vocelish_Set_total v cube pixel Hv) as [r' Hr'].
  rewrite Hr'. f_equal. unfold Vocelish_Set in Hr'.
  symmetry. eapply Set_det; eauto.
Qed.

(** ** [At] with indexing known to be in range *)

Lemma At_Vocel8_eq (px : arr8 color.Gray) cube :
  At (Vocel8 px) cube = Ok (get px (fst (octIndex cube))).
Proof.
  cbn [At]. pose proof (octIndex_index cube) as Hi.
  destruct (octIndex cube) as [index here]; cbn [fst snd] in Hi |- *.
  apply idx_get; exact Hi.
Qed.

Lemma At_VocelTree_eq (sub : arr8 Vocelish) cube :
  At (VocelTree sub) cube =
  At (get sub (fst (octIndex cube))) (snd (octIndex cube)).
Proof.
  cbn [At]. pose proof (octIndex_index cube) as Hi.
  destruct (octIndex cube) as [index here]; cbn [fst snd] in Hi |- *.
  apply (select_get sub index (fun s => At s here)); exact Hi.
Qed.

(** [At] returns for every node and every cube. *)
Lemma At_total (v : Vocelish) :
  forall cube, exists g, At v cube = Ok g.
Proof.
  induction v as [o|px|sub IH]; intros cube.
  - simpl; eauto.
  - rewrite At_Vocel8_eq. eauto.
  - rewrite At_VocelTree_eq. apply (arr8_all_get _ _ IH).
Qed.

(* ================================================================== *)
(** * Octant addressing is safe for every 16-bit coordinate *)

(** C9. For a cube descriptor with [SideShift >= 1] and arbitrary 16-bit
    coordinates (in or out of the cube's side), [octIndex] returns an
    index in [0, 8) and a residual descriptor whose shift is one less and
    whose axes are all below [2^(shift-1)]; hence [At] and [Set] on any
    node return normally for that cube: no indexing panic, and the
    descent ends. *)
Theorem octIndex_safe (cube : Cube) :
  valid_cube cube -> 1 <= SideShift cube ->
  let index := fst (octIndex cube) in
  let here := snd (octIndex cube) in
  (0 <= index < 8) /\
  SideShift here = SideShift cube - 1 /\
  0 <= PX (CPoint here) < 2 ^ (SideShift cube - 1) /\
  0 <= PY (CPoint here) < 2 ^ (SideShift cube - 1) /\
  0 <= PZ (CPoint here) < 2 ^ (SideShift cube - 1) /\
  (forall v, exists g, At v cube = Ok g) /\
  (forall v pixel, exists r, Vocelish_Set v cube pixel = Ok r).
Proof.
  intros Hv H1. cbn zeta.
  split; [apply octIndex_index|].
  destruct (octIndex_here cube Hv H1) as (Hs & Hx & Hy & Hz).
  repeat (split; [assumption|]).
  split.
  - intros v. apply At_total.
  - intros v pixel. apply Vocelish_Set_total. exact Hv.
Qed.

Lemma octIndex_safe_witness :
  let cube := {| SideShift := 3;
                 CPoint := {| PX := 65535; PY := 40000; PZ := 7 |} |} in
  fst (octIndex cube) = 7 /\
  (forall v pixel, exists r, Vocelish_Set v cube pixel = Ok r).
Proof.
  cbn zeta. split; [reflexivity|].
  apply (octIndex_safe
           {| SideShift := 3;
              CPoint := {| PX := 65535; PY := 40000; PZ := 7 |} |});
    unfold valid_cube, valid_point, is_uint16, is_uint8; simpl; lia.
Defined.

(* ================================================================== *)
(** * The write of an OctantLeaf *)

Lemma all_same_put (v8 : arr8 color.Gray) (index : Z) (pixel : color.Gray) :
  in_range8 index ->
  all_same (put v8 index pixel) <->
  (forall i, in_range8 i -> i <> index -> get v8 i = pixel).
Proof.
  intros Hi. split.
  - intros H i Hr Hne. specialize (H i index Hr Hi).
    rewrite get_put_same in H by exact Hi.
    rewrite get_put_other in H by auto. exact H.
  - intros H i j Hri Hrj.
    assert (Hall : forall k, in_range8 k -> get (put v8 index pixel) k = pixel).
    { intros k Hk. destruct (Z.eq_dec k index) as [->|Hne].
      - apply get_put_same; exact Hi.
      - rewrite get_put_other by auto. apply H; auto. }
    rewrite !Hall by assumption. reflexivity.
Qed.

(** C7. [Set] on a [Vocel8] whose slot at the octant index differs from
    the new pixel: at [SideShift = 1] it coalesces to a [Vocel1] of the
    pixel when replacing that slot makes the eight values equal, and
    otherwise stores the pixel in place and stays a [Vocel8]; at any
    other [SideShift] it returns what [Set] returns on the [VocelTree]
    of eight [Vocel1] seeded from the stored values. *)
Theorem Vocel8_Set_cases (v8 : arr8 color.Gray) (cube : Cube)
        (pixel : color.Gray) :
  valid_cube cube ->
  let index := fst (octIndex cube) in
  get v8 index <> pixel ->
  (SideShift cube = 1 -> all_same (put v8 index pixel) ->
   Vocelish_Set (Vocel8 v8) cube pixel = Ok (Vocel1 pixel)) /\
  (SideShift cube = 1 -> ~ all_same (put v8 index pixel) ->
   Vocelish_Set (Vocel8 v8) cube pixel = Ok (Vocel8 (put v8 index pixel))) /\
  (SideShift cube <> 1 ->
   exists r,
     Vocelish_Set (VocelTree (arr8_map Vocel1 v8)) cube pixel = Ok r /\
     Vocelish_Set (Vocel8 v8) cube pixel = Ok r).
Proof.
  intros Hv index Hne.
  assert (Hi : in_range8 index) by apply octIndex_index.
  apply color_eqb_neq in Hne.
  assert (Hstep : forall fuel,
             Set_ (S fuel) (Vocel8 v8) cube pixel =
             if SideShift cube =? 1 then
               if forallb (fun ic => negb (negb (index =? fst ic)
                                           && negb (color.eqb (snd ic) pixel)))
                          (enumerate v8)
               then Ok (Vocel1 pixel)
               else Ok (Vocel8 (put v8 index pixel))
             else Set_ fuel (VocelTree (arr8_map Vocel1 v8)) cube pixel).
  { intros fuel. simpl. rewrite Vocel8_Set_eq. cbn zeta.
    fold index. rewrite Hne. reflexivity. }
  split; [|split].
  - intros Hs Hall. apply (Vocelish_Set_fuel 1); [exact Hv|].
    rewrite Hstep, Hs. simpl (1 =? 1).
    pose proof (proj1 (all_same_put v8 index pixel Hi) Hall) as Hoth.
    rewrite (proj2 (allSame_others v8 index pixel) Hoth). reflexivity.
  - intros Hs Hall. apply (Vocelish_Set_fuel 1); [exact Hv|].
    rewrite Hstep, Hs. simpl (1 =? 1).
    match goal with |- context [forallb ?f ?l] =>
      destruct (forallb f l) eqn:E end; [|reflexivity].
    exfalso. apply Hall. apply (proj2 (all_same_put v8 index pixel Hi)).
    apply (proj1 (allSame_others v8 index pixel) E).
  - intros Hs.
    destruct (Vocelish_Set_total (VocelTree (arr8_map Vocel1 v8)) cube pixel Hv)
      as [r Hr].
    exists r. split; [exact Hr|].
    apply (Vocelish_Set_fuel (S (fuel_of (VocelTree (arr8_map Vocel1 v8)))));
      [exact Hv|].
    rewrite Hstep. apply Z.eqb_neq in Hs. rewrite Hs. exact Hr.
Qed.

Lemma Vocel8_Set_cases_witness :
  let g := color.mkGray in
  let v8 := Arr8 (g 9) (g 9) (g 9) (g 5) (g 9) (g 9) (g 9) (g 9) in
  let cube := {| SideShift := 1;
                 CPoint := {| PX := 1; PY := 1; PZ := 0 |} |} in
  Vocelish_Set (Vocel8 v8) cube (g 9) = Ok (Vocel1 (g 9)).
Proof.
  cbn zeta.
  refine (proj1 (Vocel8_Set_cases
            (Arr8 (color.mkGray 9) (color.mkGray 9) (color.mkGray 9)
                  (color.mkGray 5) (color.mkGray 9) (color.mkGray 9)
                  (color.mkGray 9) (color.mkGray 9))
            {| SideShift := 1; CPoint := {| PX := 1; PY := 1; PZ := 0 |} |}
            (color.mkGray 9) _ _) _ _).
  - unfold valid_cube, valid_point, is_uint16, is_uint8; simpl; lia.
  - vm_compute. discriminate.
  - reflexivity.
  - intros i j Hi Hj.
    destruct (in_range8_cases i Hi) as [E|[E|[E|[E|[E|[E|[E|E]]]]]]];
    destruct (in_range8_cases j Hj) as [F|[F|[F|[F|[F|[F|[F|F]]]]]]];
    subst i j; reflexivity.
Defined.

(* ================================================================== *)
(** * The write of a UniformLeaf *)

Lemma fill_Vocel1 (o : color.Gray) :
  arr8_map Vocel1 (fill o) = fill (Vocel1 o).
Proof. reflexivity. Qed.

(** At [SideShift = 1] the [VocelTree] of eight equal [Vocel1] takes the
    write in one child and coalesces to the [Vocel8] with that slot
    replaced. *)
Lemma VocelTree_fill_Set_1 fuel (o pixel : color.Gray) (cube : Cube) :
  SideShift cube = 1 -> pixel <> o ->
  Set_ (S (S fuel)) (VocelTree (fill (Vocel1 o))) cube pixel =
  Ok (Vocel8 (put (fill o) (fst (octIndex cube)) pixel)).
Proof.
  intros Hs Hne.
  assert (Hne1 : color.eqb pixel o = false) by (apply color_eqb_neq; exact Hne).
  assert (Hne2 : color.eqb o pixel = false)
    by (rewrite color_eqb_sym; exact Hne1).
  change (Set_ (S (S fuel)) (VocelTree (fill (Vocel1 o))) cube pixel)
    with (VocelTree_Set (Set_ (S fuel)) (fill (Vocel1 o)) cube pixel).
  rewrite VocelTree_Set_eq.
  pose proof (octIndex_index cube) as Hi.
  remember (fst (octIndex cube)) as index eqn:Eidx. clear Eidx.
  rewrite get_fill.
  assert (Hchild : forall here, SideShift here = 0 ->
             Set_ (S fuel) (Vocel1 o) here pixel = Ok (Vocel1 pixel)).
  { intros here H0. simpl. unfold Vocel1_Set. rewrite H0. reflexivity. }
  assert (H0 : SideShift (snd (octIndex cube)) = 0)
    by (rewrite octIndex_shift, Hs; reflexivity).
  rewrite (Hchild _ H0). cbn [bind].
  case_index index Hi; unfold coalesce; simpl;
    rewrite ?color_eqb_refl, ?Hne1, ?Hne2; reflexivity.
Qed.

Lemma allSame_others_fill (o pixel : color.Gray) (index : Z) :
  in_range8 index -> pixel <> o ->
  forallb (fun ic => negb (negb (index =? fst ic)
                           && negb (color.eqb (snd ic) pixel)))
          (enumerate (fill o)) = false.
Proof.
  intros Hi Hne.
  match goal with |- ?b = false => destruct b eqn:E end; [|reflexivity].
  exfalso. pose proof (proj1 (allSame_others _ _ _) E) as H.
  assert (Ho : exists i, in_range8 i /\ i <> index).
  { destruct (Z.eq_dec index 0).
    - exists 1. unfold in_range8. lia.
    - exists 0. unfold in_range8. lia. }
  destruct Ho as (i & Hr & Hd). specialize (H i Hr Hd).
  rewrite get_fill in H. congruence.
Qed.

(** C8. [Set] on a [Vocel1] with [SideShift <> 0] and a pixel different
    from the stored one returns exactly what the design document's
    wording returns: the write delegated to a [VocelTree] of eight
    [Vocel1] carrying the original pixel.  (The source goes through a
    [Vocel8] of eight equal pixels; the results coincide.) *)
Theorem Vocel1_Set_refines (o : color.Gray) (cube : Cube)
        (pixel : color.Gray) :
  valid_cube cube -> SideShift cube <> 0 -> pixel <> o ->
  Vocelish_Set (Vocel1 o) cube pixel = UniformLeaf_write o cube pixel /\
  UniformLeaf_write o cube pixel =
    Vocelish_Set (VocelTree (fill (Vocel1 o))) cube pixel /\
  exists r, Vocelish_Set (Vocel1 o) cube pixel = Ok r.
Proof.
  intros Hv Hs Hne.
  assert (Hs0 : (SideShift cube =? 0) = false) by (apply Z.eqb_neq; exact Hs).
  assert (Hne1 : color.eqb pixel o = false) by (apply color_eqb_neq; exact Hne).
  assert (Hne2 : color.eqb o pixel = false)
    by (rewrite color_eqb_sym; exact Hne1).
  assert (Hspec : UniformLeaf_write o cube pixel =
                  Vocelish_Set (VocelTree (fill (Vocel1 o))) cube pixel).
  { unfold UniformLeaf_write. rewrite Hs0, Hne1. reflexivity. }
  destruct (Vocelish_Set_total (VocelTree (fill (Vocel1 o))) cube pixel Hv)
    as [r Hr].
  assert (Hcode : Vocelish_Set (Vocel1 o) cube pixel = Ok r).
  { pose proof (octIndex_index cube) as Hi.
    destruct (Z.eq_dec (SideShift cube) 1) as [H1|H1].
    - (* the minimal cube: both routes end in the same Vocel8 *)
      assert (Hr' : r = Vocel8 (put (fill o) (fst (octIndex cube)) pixel)).
      { eapply Set_det; [exact Hr|].
        apply (VocelTree_fill_Set_1 0); assumption. }
      subst r. apply (Vocelish_Set_fuel 2); [exact Hv|].
      cbn [Set_]. unfold Vocel1_Set. rewrite Hs0, Hne1. cbn [orb].
      rewrite Vocel8_Set_eq. cbn zeta.
      rewrite get_fill, Hne2, H1. simpl (1 =? 1).
      rewrite allSame_others_fill by assumption. reflexivity.
    - (* a larger cube: the Vocel8 splits into that very VocelTree *)
      apply (Vocelish_Set_fuel
               (S (S (fuel_of (VocelTree (fill (Vocel1 o))))))); [exact Hv|].
      cbn [Set_]. unfold Vocel1_Set. rewrite Hs0, Hne1. cbn [orb].
      rewrite Vocel8_Set_eq. cbn zeta.
      rewrite get_fill, Hne2.
      apply Z.eqb_neq in H1. rewrite H1.
      rewrite fill_Vocel1. exact Hr. }
  split; [|split].
  - rewrite Hspec, Hr. exact Hcode.
  - exact Hspec.
  - exists r. exact Hcode.
Qed.

Lemma Vocel1_Set_refines_witness :
  let cube := {| SideShift := 1;
                 CPoint := {| PX := 0; PY := 1; PZ := 0 |} |} in
  Vocelish_Set (Vocel1 black) cube (color.mkGray 255) =
  UniformLeaf_write black cube (color.mkGray 255).
Proof.
  cbn zeta.
  refine (proj1 (Vocel1_Set_refines black
            {| SideShift := 1; CPoint := {| PX := 0; PY := 1; PZ := 0 |} |}
            (color.mkGray 255) _ _ _)).
  - unfold valid_cube, valid_point, is_uint16, is_uint8; simpl; lia.
  - simpl. lia.
  - discriminate.
Defined.

(* ================================================================== *)
(** * Writing the same pixel twice *)

Lemma Set_S_Vocel1 fuel o cube pixel :
  Set_ (S fuel) (Vocel1 o) cube pixel = Vocel1_Set (Set_ fuel) o cube pixel.
Proof. reflexivity. Qed.

Lemma Set_S_Vocel8 fuel px cube pixel :
  Set_ (S fuel) (Vocel8 px) cube pixel = Vocel8_Set (Set_ fuel) px cube pixel.
Proof. reflexivity. Qed.

Lemma Set_S_VocelTree fuel sub cube pixel :
  Set_ (S fuel) (VocelTree sub) cube pixel =
  VocelTree_Set (Set_ fuel) sub cube pixel.
Proof. reflexivity. Qed.

Lemma map_Vocel1_get (vt : arr8 Vocelish) (px : arr8 color.Gray) (i : Z) :
  vt = arr8_map Vocel1 px -> get vt i = Vocel1 (get px i).
Proof. intros ->. apply get_map. Qed.

(** A [Set] that returns a [Vocel1] returns the written pixel. *)
Lemma Set_returns_Vocel1 (fuel : nat) :
  forall v cube pixel x,
    Set_ fuel v cube pixel = Ok (Vocel1 x) -> x = pixel.
Proof.
  induction fuel as [|fuel IH]; intros v cube pixel x H; [discriminate|].
  destruct v as [o|px|sub].
  - rewrite Set_S_Vocel1 in H. unfold Vocel1_Set in H.
    destruct ((SideShift cube =? 0) || color.eqb pixel o).
    + congruence.
    + eapply IH; eauto.
  - rewrite Set_S_Vocel8, Vocel8_Set_eq in H. cbn zeta in H.
    destruct (color.eqb _ pixel); [discriminate|].
    destruct (SideShift cube =? 1).
    + match type of H with context [forallb ?f ?l] =>
        destruct (forallb f l) end; congruence.
    + eapply IH; eauto.
  - rewrite Set_S_VocelTree, VocelTree_Set_eq in H. inv_bind H.
    pose proof (octIndex_index cube) as Hi.
    destruct (coalesce_cases (put sub (fst (octIndex cube)) a))
      as [[_ Hc]|(px & Hpx & [[Heq Hc]|[_ Hc]])];
      rewrite Hc in H; try discriminate.
    injection H as <-.
    pose proof (map_Vocel1_get _ _ (fst (octIndex cube)) Hpx) as Hg.
    rewrite get_put_same in Hg by exact Hi. subst a.
    apply IH in Ha. rewrite <- Ha. symmetry. apply Heq. exact Hi.
Qed.

Lemma Set_idem (fuel : nat) :
  forall v cube pixel r,
    Set_ fuel v cube pixel = Ok r -> Set_ fuel r cube pixel = Ok r.
Proof.
  induction fuel as [|fuel IH]; intros v cube pixel r H; [discriminate|].
  pose proof (octIndex_index cube) as Hi.
  destruct v as [o|px|sub].
  - rewrite Set_S_Vocel1 in H. unfold Vocel1_Set in H.
    destruct ((SideShift cube =? 0) || color.eqb pixel o).
    + injection H as <-. rewrite Set_S_Vocel1. unfold Vocel1_Set.
      rewrite color_eqb_refl, orb_true_r. reflexivity.
    + apply Set_mono_S. eapply IH; eauto.
  - rewrite Set_S_Vocel8, Vocel8_Set_eq in H. cbn zeta in H.
    destruct (color.eqb (get px (fst (octIndex cube))) pixel) eqn:E.
    { injection H as <-. rewrite Set_S_Vocel8, Vocel8_Set_eq. cbn zeta.
      rewrite E. reflexivity. }
    destruct (SideShift cube =? 1).
    + match type of H with context [forallb ?f ?l] =>
        destruct (forallb f l) end; injection H as <-.
      * rewrite Set_S_Vocel1. unfold Vocel1_Set.
        rewrite color_eqb_refl, orb_true_r. reflexivity.
      * rewrite Set_S_Vocel8, Vocel8_Set_eq. cbn zeta.
        rewrite get_put_same by exact Hi.
        rewrite color_eqb_refl. reflexivity.
    + apply Set_mono_S. eapply IH; eauto.
  - rewrite Set_S_VocelTree, VocelTree_Set_eq in H. inv_bind H.
    destruct (coalesce_cases (put sub (fst (octIndex cube)) a))
      as [[_ Hc]|(px & Hpx & [[Heq Hc]|[_ Hc]])];
      rewrite Hc in H; injection H as <-.
    + rewrite Set_S_VocelTree, VocelTree_Set_eq.
      rewrite get_put_same by exact Hi.
      rewrite (IH _ _ _ _ Ha). cbn [bind].
      rewrite put_put. exact Hc.
    + pose proof (map_Vocel1_get _ _ (fst (octIndex cube)) Hpx) as Hg.
      rewrite get_put_same in Hg by exact Hi. subst a.
      apply Set_returns_Vocel1 in Ha.
      rewrite <- (Heq _ Hi), Ha.
      rewrite Set_S_Vocel1. unfold Vocel1_Set.
      rewrite color_eqb_refl, orb_true_r. reflexivity.
    + pose proof (map_Vocel1_get _ _ (fst (octIndex cube)) Hpx) as Hg.
      rewrite get_put_same in Hg by exact Hi. subst a.
      apply Set_returns_Vocel1 in Ha.
      rewrite Set_S_Vocel8, Vocel8_Set_eq. cbn zeta.
      rewrite Ha, color_eqb_refl. reflexivity.
Qed.

Lemma Vocelish_Set_idem v cube pixel r :
  valid_cube cube ->
  Vocelish_Set v cube pixel = Ok r -> Vocelish_Set r cube pixel = Ok r.
Proof.
  intros Hv H. apply (Vocelish_Set_fuel (fuel_of v)); [exact Hv|].
  apply (Set_idem (fuel_of v) v). exact H.
Qed.

(* ================================================================== *)
(** * The container: shifts, growth and loops *)

Lemma int_small (z : Z) : is_int z -> int z = z.
Proof.
  unfold is_int, int. intros H.
  rewrite Z.mod_small by lia. lia.
Qed.

Lemma shift_test_small (s : Z) :
  0 <= s <= 62 -> int (Z.shiftl 1 s) = 2 ^ s.
Proof.
  intros Hs. apply Z.eqb_eq.
  apply (forallb_range (fun s => int (Z.shiftl 1 s) =? 2 ^ s) 63);
    [vm_compute; reflexivity | lia].
Qed.

(** Whatever the shift count, [1 << s] in an [int] is at most [2^62]. *)
Lemma shift_test_le (s : Z) : 0 <= s -> int (Z.shiftl 1 s) <= 2 ^ 62.
Proof.
  intros Hs. destruct (Z_lt_le_dec s 64) as [Hlt|Hge].
  - apply Z.leb_le.
    apply (forallb_range (fun s => int (Z.shiftl 1 s) <=? 2 ^ 62) 64);
      [vm_compute; reflexivity | lia].
  - unfold int. rewrite Z.shiftl_mul_pow2 by lia. rewrite Z.mul_1_l.
    replace s with (64 + (s - 64)) by lia.
    rewrite Z.pow_add_r by lia.
    rewrite (Z.mul_comm (2 ^ 64)), Z.add_comm, Z.mod_add by lia.
    vm_compute. discriminate.
Qed.

Lemma grow_until_S (fuel : nat) (s size : Z) :
  grow_until (S fuel) s size
  = if s <? 0 then Panic
    else if int (Z.shiftl 1 s) <? size
         then grow_until fuel (int (s + 1)) size
         else Ok s.
Proof. reflexivity. Qed.

(** One round of the loop at a count the shift can hold. *)
Lemma grow_until_step (fuel : nat) (s size : Z) :
  0 <= s <= 62 ->
  grow_until (S fuel) s size
  = if 2 ^ s <? size then grow_until fuel (s + 1) size else Ok s.
Proof.
  intros Hs. rewrite grow_until_S.
  destruct (Z.ltb_spec s 0); [lia|].
  rewrite shift_test_small by exact Hs.
  rewrite int_small; [reflexivity|].
  unfold is_int. assert (2 ^ 6 <= 2 ^ 63) by (apply Z.pow_le_mono_r; lia).
  change (2 ^ 6) with 64 in *. lia.
Qed.

(** A size above [2^62] keeps the test true at every count: the loop goes
    on until the counter wraps to [-2^63], where the shift panics. *)
Lemma grow_until_beyond (fuel : nat) :
  forall s size, 0 <= s < 2 ^ 63 -> 2 ^ 62 < size ->
    grow_until fuel s size
    = if Z.of_nat fuel <=? 2 ^ 63 - s then OutOfFuel else Panic.
Proof.
  induction fuel as [|fuel IH]; intros s size Hs Hz.
  - cbn [grow_until]. destruct (Z.leb_spec (Z.of_nat 0) (2 ^ 63 - s));
      [reflexivity | lia].
  - rewrite grow_until_S.
    destruct (Z.ltb_spec s 0); [lia|].
    pose proof (shift_test_le s (proj1 Hs)) as Hle.
    destruct (Z.ltb_spec (int (Z.shiftl 1 s)) size); [|lia].
    destruct (Z.eq_dec s (2 ^ 63 - 1)) as [->|Hne].
    + replace (int (2 ^ 63 - 1 + 1)) with (- 2 ^ 63)
        by (vm_compute; reflexivity).
      replace (2 ^ 63 - (2 ^ 63 - 1)) with 1 by lia.
      destruct fuel as [|fuel].
      * reflexivity.
      * rewrite grow_until_S.
        replace (- 2 ^ 63 <? 0) with true by (vm_compute; reflexivity).
        destruct (Z.leb_spec (Z.of_nat (S (S fuel))) 1); [lia | reflexivity].
    + rewrite int_small by (unfold is_int; lia).
      rewrite IH by lia.
      destruct (Z.leb_spec (Z.of_nat fuel) (2 ^ 63 - (s + 1))),
               (Z.leb_spec (Z.of_nat (S fuel)) (2 ^ 63 - s));
        try reflexivity; lia.
Qed.

Lemma grow_until_never_returns (fuel : nat) (s size s' : Z) :
  0 <= s < 2 ^ 63 -> 2 ^ 62 < size -> grow_until fuel s size <> Ok s'.
Proof.
  intros Hs Hz. rewrite grow_until_beyond by assumption.
  destruct (_ <=? _); discriminate.
Qed.

Lemma pow2_62_lt_63 : 2 ^ 62 < 2 ^ 63.
Proof. apply Z.pow_lt_mono_r; lia. Qed.

Lemma grow_until_shift (fuel : nat) :
  forall s size s',
    0 <= s <= 62 -> grow_until fuel s size = Ok s' ->
    s <= s' <= 62 /\ size <= 2 ^ s'.
Proof.
  pose proof pow2_62_lt_63 as H63.
  induction fuel as [|fuel IH]; intros s size s' Hs H;
    [discriminate|].
  rewrite grow_until_step in H by exact Hs.
  destruct (Z.ltb_spec (2 ^ s) size) as [Hlt|Hge].
  - destruct (Z.eq_dec s 62) as [->|Hne].
    + exfalso. revert H. apply grow_until_never_returns; lia.
    + apply IH in H; [|lia]. lia.
  - injection H as <-. lia.
Qed.

Lemma NewVoctree_inv sizex sizey v :
  NewVoctree sizex sizey = Ok v ->
  shift_ok v /\ vocelish v = Vocel1 black /\
  rectangle v = image.Rect 0 0 sizex sizey /\
  sizex <= 2 ^ sideShift v /\ sizey <= 2 ^ sideShift v.
Proof.
  unfold NewVoctree, NewVoctree_. intros H.
  inv_bind H. inv_bind H. injection H as <-.
  apply grow_until_shift in Ha; [|lia].
  apply grow_until_shift in Ha0; [|lia].
  unfold shift_ok; simpl.
  assert (Hu : uint8 a0 = a0)
    by (apply uint8_small; unfold is_uint8; lia).
  rewrite Hu.
  assert (2 ^ a <= 2 ^ a0) by (apply Z.pow_le_mono_r; lia).
  repeat split; try reflexivity; lia.
Qed.

Lemma resize_diverges (fuel : nat) :
  forall v z, 0 <= sideShift v -> 2 ^ 62 < z ->
    resize_ fuel v z = OutOfFuel.
Proof.
  induction fuel as [|fuel IH]; intros v z Hs Hz; simpl; [reflexivity|].
  pose proof (shift_test_le (sideShift v) Hs) as Hle.
  destruct (Z.ltb_spec (int (Z.shiftl 1 (sideShift v))) z); [|lia].
  apply IH; [|exact Hz]. simpl.
  pose proof (uint8_range (sideShift v + 1)) as Hr.
  unfold is_uint8 in Hr. lia.
Qed.

Lemma wrap_root_shift (v : Voctree) :
  0 <= sideShift v < 62 -> sideShift (wrap_root v) = sideShift v + 1.
Proof.
  intros Hs. simpl. apply uint8_small. unfold is_uint8. lia.
Qed.

Lemma resize_shift (fuel : nat) :
  forall v z v',
    shift_ok v -> resize_ fuel v z = Ok v' ->
    shift_ok v' /\ sideShift v <= sideShift v' /\ z <= 2 ^ sideShift v' /\
    rectangle v' = rectangle v.
Proof.
  induction fuel as [|fuel IH]; intros v z v' Hs H; simpl in H;
    [discriminate|].
  unfold shift_ok in *.
  rewrite shift_test_small in H by exact Hs.
  destruct (Z.ltb_spec (2 ^ sideShift v) z) as [Hlt|Hge].
  - destruct (Z.eq_dec (sideShift v) 62) as [E|Hne].
    + rewrite resize_diverges in H; [discriminate| |rewrite <- E; exact Hlt].
      simpl. pose proof (uint8_range (sideShift v + 1)) as Hr.
      unfold is_uint8 in Hr. lia.
    + pose proof (wrap_root_shift v) as Hw.
      apply IH in H; [|rewrite Hw; lia].
      rewrite Hw in H by lia. simpl in H. repeat split; try lia. apply H.
  - injection H as <-. repeat split; try lia.
Qed.

(** Both growth loops return whenever the bound they chase is at most
    [2^62]: the budgets of [NewVoctree] and [resizeSideShift] are never
    what stops them. *)
Lemma grow_until_returns (k : nat) :
  forall fuel s size,
    0 <= s <= 62 -> size <= 2 ^ 62 ->
    62 - s < Z.of_nat k -> (k <= fuel)%nat ->
    exists s', grow_until fuel s size = Ok s'.
Proof.
  induction k as [|k IH]; intros fuel s size Hs Hz Hk Hf; [lia|].
  destruct fuel as [|fuel]; [lia|].
  rewrite grow_until_step by exact Hs.
  destruct (Z.ltb_spec (2 ^ s) size) as [Hlt|Hge]; [|eauto].
  assert (s <> 62) by (intros ->; lia).
  apply IH; lia.
Qed.

Lemma NewVoctree_total (sizex sizey : Z) :
  sizex <= 2 ^ 62 -> sizey <= 2 ^ 62 ->
  exists v, NewVoctree sizex sizey = Ok v.
Proof.
  intros Hx Hy. unfold NewVoctree, NewVoctree_.
  destruct (grow_until_returns 63 65 0 sizex) as [s Hs]; try lia.
  rewrite Hs. cbn [bind].
  assert (H0 : 0 <= 0 <= 62) by lia.
  pose proof (grow_until_shift 65 0 sizex s H0 Hs) as [Hr _].
  destruct (grow_until_returns 63 65 s sizey) as [s' Hs']; try lia.
  rewrite Hs'. cbn [bind]. eauto.
Qed.

Lemma resize_returns (k : nat) :
  forall fuel v z,
    shift_ok v -> z <= 2 ^ 62 ->
    62 - sideShift v < Z.of_nat k -> (k <= fuel)%nat ->
    exists v', resize_ fuel v z = Ok v'.
Proof.
  induction k as [|k IH]; intros fuel v z Hs Hz Hk Hf;
    unfold shift_ok in *; [lia|].
  destruct fuel as [|fuel]; [lia|]. simpl.
  rewrite shift_test_small by exact Hs.
  destruct (Z.ltb_spec (2 ^ sideShift v) z) as [Hlt|Hge]; [|eauto].
  assert (sideShift v <> 62) by (intros E; rewrite E in Hlt; lia).
  apply IH; try lia; unfold shift_ok; rewrite wrap_root_shift; lia.
Qed.

Lemma resizeSideShift_total (v : Voctree) (z : Z) :
  shift_ok v -> z <= 2 ^ 62 -> exists v', resizeSideShift v z = Ok v'.
Proof.
  intros Hs Hz. apply (resize_returns 63); unfold shift_ok in *; lia.
Qed.

Lemma for_inv {S : Type} (P : S -> Prop) (body : S -> Z -> result S) :
  (forall s i s', P s -> body s i = Ok s' -> P s') ->
  forall l s s', P s -> for_ l s body = Ok s' -> P s'.
Proof.
  intros Hb l. induction l as [|i l IH]; intros s s' Hs H; simpl in H.
  - injection H as <-. exact Hs.
  - inv_bind H. eapply IH; [|exact H]. eapply Hb; eauto.
Qed.

(** The double loop of [SetPlane] only replaces the root. *)
Lemma plane_loop_inv (P : Voctree -> Prop) ys xs
      (pix : list Z) (stride : Z) (cube : Voctree -> Z -> Z -> Cube) :
  (forall v y x c root,
      P v -> Vocelish_Set (vocelish v) (cube v y x) c = Ok root ->
      P (with_root v root)) ->
  forall v v',
    P v ->
    for_ ys v (fun v y =>
      for_ xs v (fun v x =>
        c <- load pix (int (int (y * stride) + x)) ;;
        root <- Vocelish_Set (vocelish v) (cube v y x) (color.mkGray c) ;;
        Ok (with_root v root))) = Ok v' ->
    P v'.
Proof.
  intros Hstep v v' Hv H.
  revert v v' Hv H. apply for_inv. intros v y v' Hv H.
  revert v v' Hv H. apply for_inv. intros v x v' Hv H.
  inv_bind H. inv_bind H. injection H as <-.
  eapply Hstep; eauto.
Qed.

Lemma SetPlane_inv v z gray v' err :
  SetPlane v z gray = Ok (v', err) ->
  (err <> None /\ v' = v) \/
  (err = None /\
   len (image.Pix gray) =
     int (image.X (image.Size (rectangle v))
          * image.Y (image.Size (rectangle v))) /\
   exists v1, resizeSideShift v z = Ok v1 /\
     for_ (range (image.Y (image.Size (rectangle v)))) v1 (fun w y =>
       for_ (range (image.X (image.Size (rectangle v)))) w (fun w x =>
         c <- load (image.Pix gray)
                (int (int (y * image.X (image.Size (rectangle v))) + x)) ;;
         root <- Vocelish_Set (vocelish w)
                   {| SideShift := sideShift v1;
                      CPoint := {| PX := uint16 x; PY := uint16 y;
                                   PZ := uint16 z |} |} (color.mkGray c) ;;
         Ok (with_root w root))) = Ok v').
Proof.
  unfold SetPlane. cbn zeta.
  destruct (Z.eqb_spec (len (image.Pix gray))
              (int (image.X (image.Size (rectangle v))
                    * image.Y (image.Size (rectangle v))))) as [E|E];
    cbn [negb]; intros H.
  - right. inv_bind H. inv_bind H. injection H as <- <-.
    split; [reflexivity|]. split; [exact E|]. eauto.
  - left. injection H as <- <-. split; [discriminate | reflexivity].
Qed.

Lemma GetPlane_inv v z v' gray :
  GetPlane v z = Ok (v', gray) -> resizeSideShift v z = Ok v'.
Proof.
  unfold GetPlane. cbn zeta. intros H.
  inv_bind H. inv_bind H. inv_bind H. injection H as <- _. exact Ha.
Qed.

Lemma Voctree_Set_inv v point pixel v' :
  Voctree_Set v point pixel = Ok v' ->
  exists root,
    Vocelish_Set (vocelish v) {| SideShift := sideShift v; CPoint := point |}
                 pixel = Ok root /\
    v' = with_root v root.
Proof.
  unfold Voctree_Set. intros H. inv_bind H. injection H as <-. eauto.
Qed.

Lemma reachable_shift_ok v : reachable v -> shift_ok v.
Proof.
  induction 1 as [sx sy v H | v p c v' _ IH _ H | v p c _ IH _ _
                 | v z g v' e _ IH _ H | v z v' g _ IH _ H].
  - apply (NewVoctree_inv _ _ _ H).
  - apply Voctree_Set_inv in H. destruct H as (root & _ & ->). exact IH.
  - exact IH.
  - apply SetPlane_inv in H.
    destruct H as [[_ ->]|(_ & _ & v1 & Hr & Hloop)]; [exact IH|].
    apply resize_shift in Hr; [|exact IH].
    revert Hloop. apply plane_loop_inv with (cube := fun _ y x => _);
      [|apply Hr].
    intros v0 y x c root Hv0 _. exact Hv0.
  - apply GetPlane_inv in H. apply resize_shift in H; [|exact IH]. apply H.
Qed.

Lemma shift_ok_valid v point :
  shift_ok v -> valid_point point ->
  valid_cube {| SideShift := sideShift v; CPoint := point |}.
Proof.
  intros Hs Hp. split; [exact Hp|]. unfold shift_ok, is_uint8 in *.
  simpl. lia.
Qed.

(* ================================================================== *)
(** * Idempotence of a voxel write *)

(** C6. On a reachable volume, writing pixel [c] at point [p] twice in
    succession leaves exactly the volume that one write leaves: the same
    node count and the same read at every coordinate. *)
Theorem Voctree_Set_idempotent v point pixel :
  reachable v -> valid_point point ->
  exists v1 v2,
    Voctree_Set v point pixel = Ok v1 /\
    Voctree_Set v1 point pixel = Ok v2 /\
    v2 = v1 /\
    Voctree_Nodes v2 = Voctree_Nodes v1 /\
    (forall q, Voctree_At v2 q = Voctree_At v1 q).
Proof.
  intros Hr Hp.
  pose proof (shift_ok_valid v point (reachable_shift_ok v Hr) Hp) as Hv.
  destruct (Vocelish_Set_total (vocelish v) _ pixel Hv) as [root Hroot].
  exists (with_root v root), (with_root v root).
  assert (H1 : Voctree_Set v point pixel = Ok (with_root v root))
    by (unfold Voctree_Set; rewrite Hroot; reflexivity).
  split; [exact H1|]. split; [|auto].
  unfold Voctree_Set. simpl.
  rewrite (Vocelish_Set_idem _ _ _ _ Hv Hroot). reflexivity.
Qed.

Lemma Voctree_Set_idempotent_witness :
  exists v, NewVoctree 4 4 = Ok v /\
  exists v1 v2,
    Voctree_Set v (mkPoint 1 2 3) (color.mkGray 200) = Ok v1 /\
    Voctree_Set v1 (mkPoint 1 2 3) (color.mkGray 200) = Ok v2 /\
    v2 = v1 /\
    Voctree_Nodes v2 = Voctree_Nodes v1 /\
    (forall q, Voctree_At v2 q = Voctree_At v1 q).
Proof.
  eexists. split; [reflexivity|].
  apply Voctree_Set_idempotent.
  - apply (reach_New 4 4). reflexivity.
  - unfold valid_point, is_uint16; simpl; lia.
Defined.

(* ================================================================== *)
(** * A plane of the wrong size is rejected before anything changes *)






(* ================================================================== *)
(** * Which operations grow the depth *)

Lemma resize_grown (fuel : nat) :
  forall v z v',
    shift_ok v -> resize_ fuel v z = Ok v' ->
    exists n, v' = grown n v /\
              (n = O <-> z <= 2 ^ sideShift v).
Proof.
  induction fuel as [|fuel IH]; intros v z v' Hs H; simpl in H;
    [discriminate|].
  unfold shift_ok in *.
  rewrite shift_test_small in H by exact Hs.
  destruct (Z.ltb_spec (2 ^ sideShift v) z) as [Hlt|Hge].
  - destruct (Z.eq_dec (sideShift v) 62) as [E|Hne].
    + rewrite resize_diverges in H; [discriminate| |rewrite <- E; exact Hlt].
      simpl. pose proof (uint8_range (sideShift v + 1)) as Hr.
      unfold is_uint8 in Hr. lia.
    + apply IH in H; [|rewrite wrap_root_shift; lia].
      destruct H as (n & -> & _). exists (S n). split.
      * unfold grown. rewrite Nat.iter_succ_r. reflexivity.
      * split; [discriminate | lia].
  - injection H as <-. exists O. split; [reflexivity|]. tauto.
Qed.

(** The per-voxel write at a [Z] beyond the capacity leaves the shift as
    it was: the property claimed for [write] fails on a fresh volume. *)
Lemma Voctree_Set_does_not_grow :
  ~ (forall v point pixel v',
        reachable v -> valid_point point ->
        2 ^ sideShift v < PZ point ->
        Voctree_Set v point pixel = Ok v' ->
        PZ point <= 2 ^ sideShift v').
Proof.
  intros H.
  specialize (H {| vocelish := Vocel1 black;
                   rectangle := image.Rect 0 0 1 1;
                   sideShift := 0 |}
                (mkPoint 0 0 5) (color.mkGray 255)
                {| vocelish := Vocel1 (color.mkGray 255);
                   rectangle := image.Rect 0 0 1 1;
                   sideShift := 0 |}).
  assert (Habs : 5 <= 2 ^ 0); [|vm_compute in Habs; apply Habs; reflexivity].
  apply H.
  - apply (reach_New 1 1). reflexivity.
  - unfold valid_point, is_uint16; simpl; lia.
  - simpl. lia.
  - reflexivity.
Qed.

(** C1 (as the code has it). [Set] and [At] of the container never grow
    the depth: they delegate to the root with the current shift, whatever
    [Z] is.  Growth belongs to [SetPlane] and [GetPlane]: when [z]
    exceeds [2^shift] they first wrap the root, some [n >= 1] times, as
    octant 0 of a new [VocelTree] whose other seven children are black
    [Vocel1], incrementing the shift each time, and after the call
    [2^shift >= z]; that growth returns for every [z] up to [2^62]. *)
Theorem depth_growth (v : Voctree) :
  reachable v ->
  (forall point pixel v',
      Voctree_Set v point pixel = Ok v' ->
      sideShift v' = sideShift v /\
      Vocelish_Set (vocelish v)
        {| SideShift := sideShift v; CPoint := point |} pixel
      = Ok (vocelish v')) /\
  (forall point,
      Voctree_At v point =
      At (vocelish v) {| SideShift := sideShift v; CPoint := point |}) /\
  (forall z gray v',
      SetPlane v z gray = Ok (v', None) ->
      exists n, resizeSideShift v z = Ok (grown n v) /\
                (n = O <-> z <= 2 ^ sideShift v) /\
                sideShift v' = sideShift (grown n v) /\
                z <= 2 ^ sideShift v') /\
  (forall z v' gray,
      GetPlane v z = Ok (v', gray) ->
      exists n, v' = grown n v /\
                (n = O <-> z <= 2 ^ sideShift v) /\
                z <= 2 ^ sideShift v') /\
  (forall z, z <= 2 ^ 62 ->
      exists n, resizeSideShift v z = Ok (grown n v) /\
                (n = O <-> z <= 2 ^ sideShift v) /\
                z <= 2 ^ sideShift (grown n v)).
Proof.
  intros Hr. pose proof (reachable_shift_ok v Hr) as Hs.
  split; [|split; [|split; [|split]]].
  - intros point pixel v' H. apply Voctree_Set_inv in H.
    destruct H as (root & Hroot & ->). split; [reflexivity | exact Hroot].
  - reflexivity.
  - intros z gray v' H. apply SetPlane_inv in H.
    destruct H as [[Hne _]|(_ & _ & v1 & Hres & Hloop)]; [congruence|].
    pose proof (resize_shift _ _ _ _ Hs Hres) as (_ & _ & Hz & _).
    destruct (resize_grown _ _ _ _ Hs Hres) as (n & -> & Hn).
    exists n. split; [exact Hres|]. split; [exact Hn|].
    assert (Hk : sideShift v' = sideShift (grown n v)).
    { revert Hloop.
      apply (plane_loop_inv (fun w => sideShift w = sideShift (grown n v)))
        with (cube := fun _ y x => _); [|reflexivity].
      intros v0 y x c root Hv0 _. exact Hv0. }
    split; [exact Hk|]. rewrite Hk. exact Hz.
  - intros z v' gray H. apply GetPlane_inv in H.
    pose proof (resize_shift _ _ _ _ Hs H) as (_ & _ & Hz & _).
    destruct (resize_grown _ _ _ _ Hs H) as (n & -> & Hn).
    exists n. auto.
  - intros z Hz62.
    destruct (resizeSideShift_total v z Hs Hz62) as [v' H].
    pose proof (resize_shift _ _ _ _ Hs H) as (_ & _ & Hz & _).
    destruct (resize_grown _ _ _ _ Hs H) as (n & -> & Hn).
    exists n. auto.
Qed.

Lemma depth_growth_witness :
  exists v, NewVoctree 1 1 = Ok v /\
  exists n, GetPlane v 4 =
            Ok (grown n v, image.mkGray [0] 1 (image.Rect 0 0 1 1)) /\
            4 <= 2 ^ sideShift (grown n v).
Proof.
  eexists. split; [reflexivity|].
  match goal with |- exists n, GetPlane ?v _ = _ /\ _ =>
    destruct (depth_growth v (reach_New 1 1 _ eq_refl))
      as (_ & _ & _ & H & _);
    destruct (H 4 (grown 2 v) (image.mkGray [0] 1 (image.Rect 0 0 1 1))
                eq_refl) as (n & Hn & _ & Hz)
  end.
  exists 2%nat. split; [reflexivity | exact Hz].
Defined.

(* ================================================================== *)
(** * The plane at [z = 2^shift] *)

Lemma for_ext {S : Type} (body body' : S -> Z -> result S) :
  (forall s i, body s i = body' s i) ->
  forall l s, for_ l s body = for_ l s body'.
Proof.
  intros Hb l. induction l as [|i l IH]; intros s; simpl; [reflexivity|].
  rewrite Hb. destruct (body' s i); simpl; auto.
Qed.

(** [Set] and [At] read a cube only through its shift and [octIndex]. *)
Lemma Set_cube_ext (c1 c2 : Cube) :
  SideShift c1 = SideShift c2 -> octIndex c1 = octIndex c2 ->
  forall fuel v pixel, Set_ fuel v c1 pixel = Set_ fuel v c2 pixel.
Proof.
  intros Hs Ho fuel. induction fuel as [|fuel IH]; intros v pixel;
    [reflexivity|].
  destruct v as [o|px|sub].
  - rewrite !Set_S_Vocel1. unfold Vocel1_Set. rewrite Hs, IH. reflexivity.
  - rewrite !Set_S_Vocel8, !Vocel8_Set_eq. cbn zeta.
    rewrite Hs, Ho, IH. reflexivity.
  - rewrite !Set_S_VocelTree, !VocelTree_Set_eq. rewrite Ho. reflexivity.
Qed.

Lemma At_cube_ext (c1 c2 : Cube) :
  octIndex c1 = octIndex c2 -> forall v, At v c1 = At v c2.
Proof.
  intros Ho v. destruct v as [o|px|sub].
  - reflexivity.
  - rewrite !At_Vocel8_eq, Ho. reflexivity.
  - rewrite !At_VocelTree_eq, Ho. reflexivity.
Qed.

(** On the [Z] axis, [2^s] and [2^(s-1)] select the same octant and
    leave the same residue, except when [2^s] is exactly the [uint16]
    modulus. *)
Lemma top_plane_axis (s : Z) :
  1 <= s <= 62 -> s <> 16 ->
  (0 <? Z.shiftr (uint16 (2 ^ s)) (uint8 (s - 1))) =
  (0 <? Z.shiftr (uint16 (2 ^ (s - 1))) (uint8 (s - 1))) /\
  Z.land (uint16 (2 ^ s))
         (uint16 (uint16 (Z.shiftl 1 (uint8 (s - 1))) - 1)) =
  Z.land (uint16 (2 ^ (s - 1)))
         (uint16 (uint16 (Z.shiftl 1 (uint8 (s - 1))) - 1)).
Proof.
  intros Hs Hne.
  assert (H : (s =? 0) || (s =? 16) ||
              (Bool.eqb (0 <? Z.shiftr (uint16 (2 ^ s)) (uint8 (s - 1)))
                        (0 <? Z.shiftr (uint16 (2 ^ (s - 1))) (uint8 (s - 1)))
               && (Z.land (uint16 (2 ^ s))
                     (uint16 (uint16 (Z.shiftl 1 (uint8 (s - 1))) - 1))
                   =? Z.land (uint16 (2 ^ (s - 1)))
                        (uint16 (uint16 (Z.shiftl 1 (uint8 (s - 1))) - 1))))
              = true).
  { apply (forallb_range
             (fun s => (s =? 0) || (s =? 16) ||
                (Bool.eqb (0 <? Z.shiftr (uint16 (2 ^ s)) (uint8 (s - 1)))
                     (0 <? Z.shiftr (uint16 (2 ^ (s - 1))) (uint8 (s - 1)))
                 && (Z.land (uint16 (2 ^ s))
                       (uint16 (uint16 (Z.shiftl 1 (uint8 (s - 1))) - 1))
                     =? Z.land (uint16 (2 ^ (s - 1)))
                       (uint16 (uint16 (Z.shiftl 1 (uint8 (s - 1))) - 1)))))
             63); [vm_compute; reflexivity | lia]. }
  destruct (Z.eqb_spec s 0); [lia|].
  destruct (Z.eqb_spec s 16); [lia|].
  simpl in H. apply andb_prop in H. destruct H as [H1 H2].
  split; [apply Bool.eqb_prop; exact H1 | apply Z.eqb_eq; exact H2].
Qed.

Lemma top_plane_octIndex (s x y : Z) :
  1 <= s <= 62 -> s <> 16 ->
  octIndex {| SideShift := s;
              CPoint := {| PX := x; PY := y; PZ := uint16 (2 ^ s) |} |} =
  octIndex {| SideShift := s;
              CPoint := {| PX := x; PY := y; PZ := uint16 (2 ^ (s - 1)) |} |}.
Proof.
  intros Hs Hne. destruct (top_plane_axis s Hs Hne) as [H1 H2].
  unfold octIndex. cbn [SideShift CPoint PX PY PZ].
  rewrite H1, H2. reflexivity.
Qed.

Lemma no_growth_needed (v : Voctree) (z : Z) :
  shift_ok v -> z <= 2 ^ sideShift v -> resizeSideShift v z = Ok v.
Proof.
  intros Hs Hz. unfold resizeSideShift.
  change (resize_ 256 v z)
    with (if int (Z.shiftl 1 (sideShift v)) <? z
          then resize_ 255 (wrap_root v) z else Ok v).
  rewrite shift_test_small by exact Hs.
  destruct (Z.ltb_spec (2 ^ sideShift v) z); [lia | reflexivity].
Qed.

(** At shift 16 the claim of C10 fails: [uint16(1 << 16)] is 0, so the
    call with [z = 2^16] addresses plane 0, not plane [2^15]. *)
Lemma top_plane_at_shift_16 :
  exists v0 v gray v',
    NewVoctree 1 1 = Ok v0 /\ GetPlane v0 65536 = Ok (v, gray) /\
    sideShift v = 16 /\
    SetPlane v (2 ^ sideShift v)
             (image.mkGray [255] 1 (image.Rect 0 0 1 1)) = Ok (v', None) /\
    Voctree_At v' (mkPoint 0 0 (2 ^ (sideShift v - 1))) = Ok black /\
    Voctree_At v' (mkPoint 0 0 0) = Ok (color.mkGray 255) /\
    SetPlane v (2 ^ sideShift v)
             (image.mkGray [255] 1 (image.Rect 0 0 1 1))
    <> SetPlane v (2 ^ (sideShift v - 1))
                (image.mkGray [255] 1 (image.Rect 0 0 1 1)).
Proof.
  do 4 eexists.
  split; [reflexivity|].
  split; [vm_compute; reflexivity|].
  split; [reflexivity|].
  split; [vm_compute; reflexivity|].
  split; [vm_compute; reflexivity|].
  split; [vm_compute; reflexivity|].
  vm_compute. discriminate.
Qed.

(** C10 (as the code has it). With [1 <= shift <= 62] and [shift <> 16],
    [SetPlane] and [GetPlane] called with [z = 2^shift] perform no depth
    growth, and do exactly what the same call with [z = 2^(shift-1)]
    does: they write, and read, that plane. *)
Theorem top_plane_aliases (v : Voctree) (gray : image.Gray) :
  shift_ok v -> 1 <= sideShift v -> sideShift v <> 16 ->
  resizeSideShift v (2 ^ sideShift v) = Ok v /\
  SetPlane v (2 ^ sideShift v) gray
    = SetPlane v (2 ^ (sideShift v - 1)) gray /\
  GetPlane v (2 ^ sideShift v) = GetPlane v (2 ^ (sideShift v - 1)).
Proof.
  intros Hs H1 H16. set (s := sideShift v) in *.
  assert (Hr : 1 <= s <= 62) by (unfold shift_ok in Hs; fold s in Hs; lia).
  assert (Hz : resizeSideShift v (2 ^ s) = Ok v)
    by (apply no_growth_needed; [exact Hs | fold s; lia]).
  assert (Hz' : resizeSideShift v (2 ^ (s - 1)) = Ok v).
  { apply no_growth_needed; [exact Hs|]. fold s.
    apply Z.pow_le_mono_r; lia. }
  split; [exact Hz|]. split.
  - unfold SetPlane. cbn zeta. rewrite Hz, Hz'. cbn [bind]. fold s.
    destruct (negb _); [reflexivity|]. f_equal.
    apply for_ext. intros w y. apply for_ext. intros w' x.
    destruct (load _ _); cbn [bind]; try reflexivity.
    unfold Vocelish_Set.
    rewrite (Set_cube_ext
               {| SideShift := s;
                  CPoint := {| PX := uint16 x; PY := uint16 y;
                               PZ := uint16 (2 ^ s) |} |}
               {| SideShift := s;
                  CPoint := {| PX := uint16 x; PY := uint16 y;
                               PZ := uint16 (2 ^ (s - 1)) |} |}
               eq_refl (top_plane_octIndex s _ _ Hr H16)).
    reflexivity.
  - unfold GetPlane. cbn zeta. rewrite Hz, Hz'. cbn [bind]. fold s.
    destruct (make _); cbn [bind]; try reflexivity. f_equal.
    apply for_ext. intros w y. apply for_ext. intros w' x.
    rewrite (At_cube_ext
               {| SideShift := s;
                  CPoint := {| PX := uint16 x; PY := uint16 y;
                               PZ := uint16 (2 ^ s) |} |}
               {| SideShift := s;
                  CPoint := {| PX := uint16 x; PY := uint16 y;
                               PZ := uint16 (2 ^ (s - 1)) |} |}
               (top_plane_octIndex s _ _ Hr H16)).
    reflexivity.
Qed.

Lemma top_plane_aliases_witness :
  exists v, NewVoctree 2 2 = Ok v /\
  SetPlane v 2 (image.mkGray [7; 7; 7; 9] 2 (image.Rect 0 0 2 2))
  = SetPlane v 1 (image.mkGray [7; 7; 7; 9] 2 (image.Rect 0 0 2 2)).
Proof.
  eexists. split; [reflexivity|].
  refine (proj1 (proj2 (top_plane_aliases
            {| vocelish := Vocel1 black;
               rectangle := image.Rect 0 0 2 2;
               sideShift := 1 |} _ _ _ _)));
    unfold shift_ok; simpl; lia.
Defined.

(* ================================================================== *)
(** * The compactness invariant *)

Lemma compact_Vocel1 (n : nat) (o : color.Gray) : compact n (Vocel1 o).
Proof. destruct n; exact I. Qed.

Lemma compact_S_Vocel8 (m : nat) (px : arr8 color.Gray) :
  compact (S m) (Vocel8 px) <-> ~ all_same px.
Proof. simpl. split; [tauto | intros H; split; [discriminate | exact H]]. Qed.

Lemma all_same_equal {A : Type} (a : arr8 A) :
  all_same a <-> all_equal a (e0 a).
Proof.
  unfold all_same, all_equal. split.
  - intros H i Hi. apply (H i 0); unfold in_range8 in *; lia.
  - intros H i j Hi Hj. rewrite (H i Hi), (H j Hj). reflexivity.
Qed.

Lemma other_index (i : Z) : exists j, in_range8 j /\ j <> i.
Proof.
  destruct (Z.eq_dec i 0).
  - exists 1. unfold in_range8. lia.
  - exists 0. unfold in_range8. lia.
Qed.

(** What [coalesce] returns on a tree with a child that is no [Vocel1]. *)
Lemma coalesce_not_leaf (sub : arr8 Vocelish) (i : Z) :
  in_range8 i -> isVocel1 (get sub i) = false ->
  coalesce sub = Ok (VocelTree sub).
Proof.
  intros Hi Hn.
  destruct (coalesce_cases sub) as [[_ H]|(px & Hpx & _)]; [exact H|].
  rewrite (map_Vocel1_get _ _ i Hpx) in Hn. discriminate.
Qed.

(** A [Vocel1] written with another pixel in a cube of shift at least 1
    does not stay a [Vocel1]. *)
Lemma Set_Vocel1_splits fuel (o pixel : color.Gray) (cube : Cube) r :
  SideShift cube <> 0 -> pixel <> o ->
  Set_ fuel (Vocel1 o) cube pixel = Ok r -> isVocel1 r = false.
Proof.
  intros Hs Hne H.
  assert (Hs0 : (SideShift cube =? 0) = false) by (apply Z.eqb_neq; exact Hs).
  assert (Hne1 : color.eqb pixel o = false) by (apply color_eqb_neq; exact Hne).
  assert (Hne2 : color.eqb o pixel = false)
    by (rewrite color_eqb_sym; exact Hne1).
  pose proof (octIndex_index cube) as Hi.
  destruct fuel as [|fuel]; [discriminate|].
  rewrite Set_S_Vocel1 in H. unfold Vocel1_Set in H.
  rewrite Hs0, Hne1 in H. cbn [orb] in H.
  destruct fuel as [|fuel]; [discriminate|].
  rewrite Set_S_Vocel8, Vocel8_Set_eq in H. cbn zeta in H.
  rewrite get_fill, Hne2 in H.
  destruct (SideShift cube =? 1).
  { rewrite allSame_others_fill in H by assumption.
    injection H as <-. reflexivity. }
  destruct fuel as [|fuel]; [discriminate|].
  rewrite Set_S_VocelTree, VocelTree_Set_eq in H. inv_bind H.
  rewrite get_map, get_fill in Ha.
  destruct (coalesce_cases
              (put (arr8_map Vocel1 (fill o)) (fst (octIndex cube)) a))
    as [[_ Hc]|(px & Hpx & [[Heq Hc]|[_ Hc]])];
    rewrite Hc in H; injection H as <-; try reflexivity.
  exfalso.
  pose proof (map_Vocel1_get _ _ (fst (octIndex cube)) Hpx) as Hg.
  rewrite get_put_same in Hg by exact Hi. subst a.
  apply Set_returns_Vocel1 in Ha.
  destruct (other_index (fst (octIndex cube))) as (j & Hj & Hd).
  pose proof (map_Vocel1_get _ _ j Hpx) as Hg.
  rewrite get_put_other, get_map, get_fill in Hg by auto.
  injection Hg as Hg.
  apply Hne. rewrite <- Ha, Hg.
  rewrite (Heq _ Hi), (Heq _ Hj). reflexivity.
Qed.

Lemma compact_put (m : nat) (sub : arr8 Vocelish) (i : Z) (vnew : Vocelish) :
  in_range8 i ->
  (forall j, in_range8 j -> compact m (get sub j)) ->
  compact m vnew ->
  forall j, in_range8 j -> compact m (get (put sub i vnew) j).
Proof.
  intros Hi Hsub Hnew j Hj. destruct (Z.eq_dec j i) as [->|Hd].
  - rewrite get_put_same by exact Hi. exact Hnew.
  - rewrite get_put_other by auto. apply Hsub; exact Hj.
Qed.

(** [coalesce] of children that are compact one level down is compact. *)
Lemma coalesce_compact (m : nat) (sub : arr8 Vocelish) r :
  (forall j, in_range8 j -> compact m (get sub j)) ->
  coalesce sub = Ok r -> compact (S m) r.
Proof.
  intros Hsub H.
  destruct (coalesce_cases sub) as [[Hf Hc]|(px & Hpx & [[Heq Hc]|[Hneq Hc]])];
    rewrite Hc in H; injection H as <-.
  - split; [exact Hsub|]. intros Hall.
    apply forallb_to_list in Hall. congruence.
  - apply compact_Vocel1.
  - apply compact_S_Vocel8. intros Hs. apply Hneq.
    apply all_same_equal; exact Hs.
Qed.

Lemma cube_shift_cases (cube : Cube) (n : nat) :
  SideShift cube = Z.of_nat n ->
  ((SideShift cube =? 0) = true /\ n = O) \/
  ((SideShift cube =? 0) = false /\ exists m, n = S m).
Proof.
  intros Hs. destruct n as [|m].
  - left. rewrite Hs. auto.
  - right. split; [apply Z.eqb_neq; lia | eauto].
Qed.

Lemma Set_compact (fuel : nat) :
  forall n v cube pixel r,
    compact n v -> SideShift cube = Z.of_nat n -> (n < 256)%nat ->
    Set_ fuel v cube pixel = Ok r -> compact n r.
Proof.
  induction fuel as [|fuel IH]; intros n v cube pixel r Hc Hs Hn H;
    [discriminate|].
  pose proof (octIndex_index cube) as Hi.
  assert (Hu : is_uint8 (SideShift cube)) by (unfold is_uint8; lia).
  destruct v as [o|px|sub].
  - (* Vocel1 *)
    rewrite Set_S_Vocel1 in H. unfold Vocel1_Set in H.
    destruct ((SideShift cube =? 0) || color.eqb pixel o) eqn:E.
    { injection H as <-. apply compact_Vocel1. }
    apply orb_false_elim in E. destruct E as [E0 E1].
    destruct (cube_shift_cases cube n Hs) as [[E _]|[_ [m ->]]]; [congruence|].
    apply color_eqb_neq in E1.
    assert (E2 : color.eqb o pixel = false)
      by (rewrite color_eqb_sym; apply color_eqb_neq; exact E1).
    destruct fuel as [|fuel]; [discriminate|].
    rewrite Set_S_Vocel8, Vocel8_Set_eq in H. cbn zeta in H.
    rewrite get_fill, E2 in H.
    destruct (Z.eqb_spec (SideShift cube) 1) as [E1s|E1s].
    + rewrite allSame_others_fill in H by assumption. injection H as <-.
      apply compact_S_Vocel8. intros Hsame.
      destruct (other_index (fst (octIndex cube))) as (j & Hj & Hd).
      specialize (Hsame (fst (octIndex cube)) j Hi Hj).
      rewrite get_put_same, get_put_other, get_fill in Hsame by auto.
      congruence.
    + destruct m as [|m]; [lia|].
      pose proof (Set_mono_S _ _ _ _ _ H) as H'.
      rewrite Set_S_VocelTree, VocelTree_Set_eq in H'. inv_bind H'.
      rewrite get_map, get_fill in Ha.
      assert (Hhs : SideShift (snd (octIndex cube)) = Z.of_nat (S m))
        by (apply here_shift_nat; assumption).
      assert (Hca : compact (S m) a).
      { apply (IH (S m) (Vocel1 o) (snd (octIndex cube)) pixel a);
          [apply compact_Vocel1 | exact Hhs | lia
          | apply Set_mono_S; exact Ha]. }
      assert (Hna : isVocel1 a = false).
      { eapply Set_Vocel1_splits; [|exact E1|exact Ha]. lia. }
      rewrite (coalesce_not_leaf _ (fst (octIndex cube))) in H';
        [|exact Hi|rewrite get_put_same by exact Hi; exact Hna].
      injection H' as <-. split.
      * apply compact_put; auto. intros j _. rewrite get_map. apply compact_Vocel1.
      * intros Hall. specialize (Hall _ Hi).
        rewrite get_put_same in Hall by exact Hi. congruence.
  - (* Vocel8 *)
    destruct n as [|m]; [destruct Hc as [Hc _]; congruence|].
    rewrite Set_S_Vocel8, Vocel8_Set_eq in H. cbn zeta in H.
    destruct (color.eqb (get px (fst (octIndex cube))) pixel) eqn:E.
    { injection H as <-. exact Hc. }
    destruct (Z.eqb_spec (SideShift cube) 1) as [E1s|E1s].
    + match type of H with context [forallb ?f ?l] =>
        destruct (forallb f l) eqn:Ef end; injection H as <-;
        [apply compact_Vocel1|].
      apply compact_S_Vocel8. intros Hsame.
      pose proof (proj1 (all_same_put _ _ _ Hi) Hsame) as Hoth.
      rewrite (proj2 (allSame_others _ _ _) Hoth) in Ef. discriminate.
    + destruct m as [|m]; [lia|].
      pose proof (Set_mono_S _ _ _ _ _ H) as H'.
      rewrite Set_S_VocelTree, VocelTree_Set_eq in H'. inv_bind H'.
      rewrite get_map in Ha.
      assert (Hhs : SideShift (snd (octIndex cube)) = Z.of_nat (S m))
        by (apply here_shift_nat; assumption).
      assert (Hca : compact (S m) a).
      { apply (IH (S m) (Vocel1 (get px (fst (octIndex cube))))
                  (snd (octIndex cube)) pixel a (compact_Vocel1 _ _) Hhs);
          [lia | exact Ha]. }
      assert (Hna : isVocel1 a = false).
      { eapply Set_Vocel1_splits; [| |exact Ha]; [lia|].
        apply color_eqb_neq in E. congruence. }
      rewrite (coalesce_not_leaf _ (fst (octIndex cube))) in H';
        [|exact Hi|rewrite get_put_same by exact Hi; exact Hna].
      injection H' as <-. split.
      * apply compact_put; auto. intros j _. rewrite get_map. apply compact_Vocel1.
      * intros Hall. specialize (Hall _ Hi).
        rewrite get_put_same in Hall by exact Hi. congruence.
  - (* VocelTree *)
    destruct n as [|m]; [contradiction|]. destruct Hc as [Hsub _].
    rewrite Set_S_VocelTree, VocelTree_Set_eq in H. inv_bind H.
    assert (Hhs : SideShift (snd (octIndex cube)) = Z.of_nat m)
      by (apply here_shift_nat; assumption).
    apply (coalesce_compact m _ r) in H; [exact H|].
    apply compact_put; auto.
    apply (IH m _ (snd (octIndex cube)) pixel a (Hsub _ Hi) Hhs);
      [lia | exact Ha].
Qed.

Lemma Vocelish_Set_compact (n : nat) v cube pixel r :
  compact n v -> SideShift cube = Z.of_nat n -> (n < 256)%nat ->
  Vocelish_Set v cube pixel = Ok r -> compact n r.
Proof. intros Hc Hs Hn H. exact (Set_compact _ _ _ _ _ _ Hc Hs Hn H). Qed.

Lemma with_root_compact (v : Voctree) (shift : Z) point pixel root :
  shift_ok v -> Voctree_compact v -> shift = sideShift v ->
  Vocelish_Set (vocelish v) {| SideShift := shift; CPoint := point |} pixel
    = Ok root ->
  Voctree_compact (with_root v root).
Proof.
  intros Hs Hc -> H. unfold Voctree_compact, shift_ok in *. simpl.
  eapply Vocelish_Set_compact; [exact Hc| | |exact H]; simpl; lia.
Qed.

Lemma wrap_root_compact (v : Voctree) :
  0 <= sideShift v < 62 -> Voctree_compact v ->
  isVocel1 (vocelish v) = false -> Voctree_compact (wrap_root v).
Proof.
  intros Hs Hc Hn. unfold Voctree_compact.
  rewrite wrap_root_shift by exact Hs.
  replace (Z.to_nat (sideShift v + 1)) with (S (Z.to_nat (sideShift v)))
    by lia.
  simpl. split.
  - intros i Hi. case_index i Hi; simpl;
      first [exact Hc | apply compact_Vocel1].
  - intros Hall. specialize (Hall 0). simpl in Hall.
    rewrite Hall in Hn; [discriminate | unfold in_range8; lia].
Qed.

Lemma resize_compact (fuel : nat) :
  forall v z v',
    shift_ok v -> Voctree_compact v -> no_leaf_growth v z ->
    resize_ fuel v z = Ok v' -> Voctree_compact v'.
Proof.
  induction fuel as [|fuel IH]; intros v z v' Hs Hc Hg H; simpl in H;
    [discriminate|].
  unfold shift_ok in *.
  rewrite shift_test_small in H by exact Hs.
  destruct (Z.ltb_spec (2 ^ sideShift v) z) as [Hlt|Hge].
  - destruct (Z.eq_dec (sideShift v) 62) as [E|Hne].
    + rewrite resize_diverges in H; [discriminate| |rewrite <- E; exact Hlt].
      simpl. pose proof (uint8_range (sideShift v + 1)) as Hr.
      unfold is_uint8 in Hr. lia.
    + destruct Hg as [Hg|Hg]; [lia|].
      apply IH in H; [exact H| | |].
      * rewrite wrap_root_shift; lia.
      * apply wrap_root_compact; [lia | exact Hc | exact Hg].
      * right. reflexivity.
  - injection H as <-. exact Hc.
Qed.

Lemma reachable_compact_reachable v : reachable_compact v -> reachable v.
Proof.
  induction 1;
    eauto using reach_New, reach_Set, reach_At, reach_SetPlane,
                reach_GetPlane.
Qed.

Lemma reachable_compact_inv v : reachable_compact v -> Voctree_compact v.
Proof.
  induction 1 as [sx sy v H | v p c v' Hr IH Hp H | v p c _ IH _ _
                 | v z g v' e Hr IH _ Hg H | v z v' g Hr IH _ Hg H].
  - destruct (NewVoctree_inv _ _ _ H) as (_ & Hroot & _).
    unfold Voctree_compact. rewrite Hroot. apply compact_Vocel1.
  - apply Voctree_Set_inv in H. destruct H as (root & Hroot & ->).
    eapply with_root_compact; [|exact IH|reflexivity|exact Hroot].
    apply reachable_shift_ok, reachable_compact_reachable, Hr.
  - exact IH.
  - pose proof (reachable_shift_ok _ (reachable_compact_reachable _ Hr)) as Hs.
    apply SetPlane_inv in H.
    destruct H as [[_ ->]|(_ & _ & v1 & Hres & Hloop)]; [exact IH|].
    pose proof (resize_shift _ _ _ _ Hs Hres) as (Hs1 & _).
    pose proof (resize_compact _ _ _ _ Hs IH Hg Hres) as Hc1.
    assert (Hfin : sideShift v' = sideShift v1 /\ Voctree_compact v').
    { revert Hloop.
      apply (plane_loop_inv
               (fun w => sideShift w = sideShift v1 /\ Voctree_compact w))
        with (cube := fun _ y x => _); [|split; [reflexivity | exact Hc1]].
      intros w y x c root [Hw Hcw] Hroot. split; [exact Hw|].
      eapply with_root_compact; [|exact Hcw|symmetry; exact Hw|exact Hroot].
      unfold shift_ok in *. rewrite Hw. exact Hs1. }
    apply Hfin.
  - pose proof (reachable_shift_ok _ (reachable_compact_reachable _ Hr)) as Hs.
    apply GetPlane_inv in H.
    exact (resize_compact _ _ _ _ Hs IH Hg H).
Qed.

(** Growth over a [Vocel1] root breaks the invariant: after
    [NewVoctree(1, 1)] and [GetPlane(2)] the root is a [VocelTree] of
    eight black [Vocel1]. *)
Lemma growth_breaks_compactness :
  ~ (forall v, reachable v -> Voctree_compact v).
Proof.
  intros H.
  assert (Hr : reachable (grown 1 {| vocelish := Vocel1 black;
                                     rectangle := image.Rect 0 0 1 1;
                                     sideShift := 0 |})).
  { eapply (reach_GetPlane _ 2).
    - apply (reach_New 1 1). reflexivity.
    - unfold is_int. lia.
    - vm_compute. reflexivity. }
  apply H in Hr. destruct Hr as [_ Hr]. apply Hr.
  intros i Hi. case_index i Hi; reflexivity.
Qed.

(** C3 (as the code has it). Every volume state reached through
    [NewVoctree], [Set], [At], [SetPlane] and [GetPlane] without a depth
    growth over a [Vocel1] root satisfies the compactness invariant at
    every node: no [VocelTree] has eight [Vocel1] children, no [Vocel8]
    holds eight equal pixels, and a node addressed at shift 0 is a
    [Vocel1]. *)
Theorem compactness_invariant (v : Voctree) :
  reachable_compact v ->
  Voctree_compact v /\
  (forall sub, vocelish v = VocelTree sub ->
     ~ (forall i, in_range8 i -> isVocel1 (get sub i) = true) /\
     forall i, in_range8 i ->
       compact (Z.to_nat (sideShift v) - 1) (get sub i)) /\
  (forall px, vocelish v = Vocel8 px -> ~ all_same px) /\
  (sideShift v = 0 -> exists c, vocelish v = Vocel1 c).
Proof.
  intros Hr. pose proof (reachable_compact_inv v Hr) as Hc.
  split; [exact Hc|]. unfold Voctree_compact in Hc.
  split; [|split].
  - intros sub E. rewrite E in Hc.
    destruct (Z.to_nat (sideShift v)) as [|m]; [contradiction|].
    destruct Hc as [Hsub Hnot]. split; [exact Hnot|].
    replace (S m - 1)%nat with m by lia. exact Hsub.
  - intros px E. rewrite E in Hc.
    destruct (Z.to_nat (sideShift v)); destruct Hc as [_ Hc]; exact Hc.
  - intros E. rewrite E in Hc. simpl in Hc.
    destruct (vocelish v) as [c|px|sub].
    + exists c. reflexivity.
    + destruct Hc as [Hc _]. congruence.
    + contradiction.
Qed.

Lemma compactness_invariant_witness :
  exists v0 v, NewVoctree 2 2 = Ok v0 /\
    Voctree_Set v0 (mkPoint 1 0 1) (color.mkGray 9) = Ok v /\
    Voctree_compact v.
Proof.
  do 2 eexists. split; [reflexivity|]. split; [vm_compute; reflexivity|].
  apply compactness_invariant.
  eapply (rc_Set _ (mkPoint 1 0 1) (color.mkGray 9)).
  - apply (rc_New 2 2). reflexivity.
  - unfold valid_point, is_uint16; simpl; lia.
  - vm_compute. reflexivity.
Defined.

(* ================================================================== *)
(** * Uniform content has one representation *)

(** One axis of [octIndex] on a coordinate [b * 2^m + x] with
    [x < 2^m]. *)
Lemma axis_corner (m x : Z) (b : bool) :
  0 <= m < 16 -> 0 <= x < 2 ^ m ->
  (0 <? Z.shiftr ((if b then 2 ^ m else 0) + x) m) = b /\
  Z.land ((if b then 2 ^ m else 0) + x)
         (uint16 (uint16 (Z.shiftl 1 m) - 1)) = x.
Proof.
  intros Hm Hx.
  assert (Hp : 0 < 2 ^ m) by (apply Z.pow_pos_nonneg; lia).
  rewrite octIndex_mask by lia.
  rewrite Z.min_l by lia. rewrite Z.land_ones by lia.
  rewrite Z.shiftr_div_pow2 by lia.
  destruct b.
  - replace (2 ^ m + x) with (x + 1 * 2 ^ m) by lia.
    rewrite Z.div_add, Z.mod_add by lia.
    rewrite Z.div_small, Z.mod_small by lia. split; reflexivity.
  - rewrite Z.add_0_l, Z.div_small, Z.mod_small by lia. split; reflexivity.
Qed.

Lemma octIndex_corner (m : nat) (i : Z) (p : Point) :
  (m < 16)%nat -> in_range8 i -> in_cube (Z.of_nat m) p ->
  octIndex {| SideShift := Z.of_nat (S m);
              CPoint := corner (Z.of_nat m) i p |} =
  (i, {| SideShift := Z.of_nat m; CPoint := p |}).
Proof.
  intros Hm Hi (Hx & Hy & Hz). destruct p as [x y z]. simpl in Hx, Hy, Hz.
  unfold octIndex, corner. cbn [SideShift CPoint PX PY PZ].
  replace (Z.of_nat (S m) - 1) with (Z.of_nat m) by lia.
  rewrite (uint8_small (Z.of_nat m)) by (unfold is_uint8; lia).
  destruct (axis_corner (Z.of_nat m) x (Z.testbit i 0)) as [Hbx Hrx];
    [lia | exact Hx |].
  destruct (axis_corner (Z.of_nat m) y (Z.testbit i 1)) as [Hby Hry];
    [lia | exact Hy |].
  destruct (axis_corner (Z.of_nat m) z (Z.testbit i 2)) as [Hbz Hrz];
    [lia | exact Hz |].
  rewrite Hbx, Hby, Hbz, Hrx, Hry, Hrz.
  case_index i Hi; reflexivity.
Qed.

Lemma corner_in_cube (m : nat) (i : Z) (p : Point) :
  in_cube (Z.of_nat m) p -> in_cube (Z.of_nat (S m)) (corner (Z.of_nat m) i p).
Proof.
  intros (Hx & Hy & Hz). unfold in_cube, corner. cbn [PX PY PZ].
  assert (Hp : 0 < 2 ^ Z.of_nat m) by (apply Z.pow_pos_nonneg; lia).
  replace (Z.of_nat (S m)) with (Z.of_nat m + 1) by lia.
  rewrite Z.pow_add_r by lia. change (2 ^ 1) with 2.
  destruct (Z.testbit i 0), (Z.testbit i 1), (Z.testbit i 2); lia.
Qed.

Lemma origin_in_cube (n : nat) : in_cube (Z.of_nat n) (mkPoint 0 0 0).
Proof.
  assert (Hp : 0 < 2 ^ Z.of_nat n) by (apply Z.pow_pos_nonneg; lia).
  unfold in_cube. simpl. lia.
Qed.

(** A compact node, addressed at a shift of at most 16, all of whose
    points read [c], is the single leaf [Vocel1 c]. *)
Lemma compact_uniform (n : nat) :
  forall v c,
    (n <= 16)%nat -> compact n v ->
    (forall p, in_cube (Z.of_nat n) p ->
               At v {| SideShift := Z.of_nat n; CPoint := p |} = Ok c) ->
    v = Vocel1 c.
Proof.
  induction n as [|m IH]; intros v c Hn Hc Hall.
  - destruct v as [o|px|sub].
    + specialize (Hall _ (origin_in_cube 0)). simpl in Hall. congruence.
    + destruct Hc as [Hc _]. congruence.
    + contradiction.
  - destruct v as [o|px|sub].
    + specialize (Hall _ (origin_in_cube (S m))). simpl in Hall. congruence.
    + exfalso. apply compact_S_Vocel8 in Hc. apply Hc.
      assert (Hget : forall i, in_range8 i -> get px i = c).
      { intros i Hi.
        specialize (Hall _ (corner_in_cube m i _ (origin_in_cube m))).
        rewrite At_Vocel8_eq in Hall.
        rewrite octIndex_corner in Hall;
          [|lia|exact Hi|apply origin_in_cube].
        simpl in Hall. congruence. }
      intros i j Hi Hj. rewrite !Hget by assumption. reflexivity.
    + exfalso. destruct Hc as [Hsub Hnot]. apply Hnot.
      intros i Hi.
      rewrite (IH (get sub i) c); [reflexivity | lia | apply Hsub; exact Hi |].
      intros p Hp.
      specialize (Hall _ (corner_in_cube m i p Hp)).
      rewrite At_VocelTree_eq in Hall.
      rewrite octIndex_corner in Hall by (try assumption; lia).
      exact Hall.
Qed.

Lemma in_cube_valid (s : Z) (p : Point) :
  0 <= s <= 16 -> in_cube s p -> valid_point p.
Proof.
  intros Hs (Hx & Hy & Hz).
  assert (H : 2 ^ s <= 2 ^ 16) by (apply Z.pow_le_mono_r; lia).
  unfold valid_point, is_uint16. lia.
Qed.

Lemma Voctree_compact_uniform (v : Voctree) (c : color.Gray) :
  0 <= sideShift v <= 16 -> Voctree_compact v ->
  (forall p, in_volume v p -> Voctree_At v p = Ok c) ->
  vocelish v = Vocel1 c.
Proof.
  intros Hs Hc Hall.
  apply (compact_uniform (Z.to_nat (sideShift v))); [lia | exact Hc |].
  intros p Hp. rewrite Z2Nat.id in * by lia.
  apply Hall. split; [|exact Hp].
  apply (in_cube_valid (sideShift v)); assumption.
Qed.

Lemma Voctree_Sets_reachable_compact writes :
  forall v v',
    reachable_compact v ->
    Forall (fun w => valid_point (fst w)) writes ->
    Voctree_Sets v writes = Ok v' -> reachable_compact v'.
Proof.
  induction writes as [|[point pixel] writes IH]; intros v v' Hr Hv H;
    simpl in H.
  - injection H as <-. exact Hr.
  - inv_bind H. inversion Hv as [|w ws Hw Hws]; subst.
    eapply IH; [|exact Hws|exact H].
    eapply rc_Set; eauto.
Qed.

(* ================================================================== *)
(** * Filling a volume with one value *)

(** After [NewVoctree(1, 1)], [GetPlane(4)] and one write of black at
    (0, 0, 2), each of the 64 voxels reads black and the tree has 17
    nodes: the claim of C4 fails on a volume that grew over a [Vocel1]
    root. *)
Lemma uniform_volume_of_17_nodes :
  ~ (forall v writes v' c,
        reachable v ->
        Forall (fun w => valid_point (fst w)) writes ->
        Voctree_Sets v writes = Ok v' ->
        (forall p, in_volume v' p -> Voctree_At v' p = Ok c) ->
        Voctree_Nodes v' = 1).
Proof.
  intros H.
  set (v0 := {| vocelish := Vocel1 black;
                rectangle := image.Rect 0 0 1 1;
                sideShift := 0 |}).
  assert (Hr : reachable (grown 2 v0)).
  { eapply (reach_GetPlane _ 4).
    - apply (reach_New 1 1). reflexivity.
    - unfold is_int. lia.
    - vm_compute. reflexivity. }
  assert (Hw : exists v',
             Voctree_Sets (grown 2 v0) [(mkPoint 0 0 2, black)] = Ok v' /\
             (forall p, in_volume v' p -> Voctree_At v' p = Ok black) /\
             Voctree_Nodes v' = 17).
  { eexists. split; [vm_compute; reflexivity|]. split; [|reflexivity].
    intros [x y z] [_ (Hx & Hy & Hz)].
    cbn [PX PY PZ sideShift] in Hx, Hy, Hz.
    change (2 ^ 2) with 4 in Hx, Hy, Hz.
    assert (Ex : x = 0 \/ x = 1 \/ x = 2 \/ x = 3) by lia.
    assert (Ey : y = 0 \/ y = 1 \/ y = 2 \/ y = 3) by lia.
    assert (Ez : z = 0 \/ z = 1 \/ z = 2 \/ z = 3) by lia.
    destruct Ex as [-> | [-> | [-> | ->]]];
      destruct Ey as [-> | [-> | [-> | ->]]];
      destruct Ez as [-> | [-> | [-> | ->]]]; vm_compute; reflexivity. }
  destruct Hw as (v' & Hsets & Hall & Hnodes).
  specialize (H (grown 2 v0) [(mkPoint 0 0 2, black)] v' black Hr).
  rewrite H in Hnodes; [discriminate| |exact Hsets|exact Hall].
  constructor; [|constructor].
  unfold valid_point, is_uint16; simpl; lia.
Qed.

(** C4 (as the code has it). On a volume reached without a depth growth
    over a [Vocel1] root, and of shift at most 16 (so that every voxel
    has a 16-bit coordinate), after any sequence of voxel writes that
    leaves every voxel of the volume holding [c], the node count is 1,
    whatever the order of the writes and the earlier splits. *)
Theorem uniform_fill_one_node (v : Voctree)
        (writes : list (Point * color.Gray)) (v' : Voctree)
        (c : color.Gray) :
  reachable_compact v ->
  Forall (fun w => valid_point (fst w)) writes ->
  Voctree_Sets v writes = Ok v' ->
  sideShift v' <= 16 ->
  (forall p, in_volume v' p -> Voctree_At v' p = Ok c) ->
  vocelish v' = Vocel1 c /\ Voctree_Nodes v' = 1.
Proof.
  intros Hr Hv Hsets H16 Hall.
  pose proof (Voctree_Sets_reachable_compact _ _ _ Hr Hv Hsets) as Hr'.
  pose proof (reachable_shift_ok _ (reachable_compact_reachable _ Hr')) as Hs.
  assert (Hroot : vocelish v' = Vocel1 c).
  { apply Voctree_compact_uniform.
    - unfold shift_ok in Hs. lia.
    - apply reachable_compact_inv; exact Hr'.
    - exact Hall. }
  split; [exact Hroot|]. unfold Voctree_Nodes. rewrite Hroot. reflexivity.
Qed.

Lemma uniform_fill_one_node_witness :
  exists v v', NewVoctree 2 1 = Ok v /\
    Voctree_Sets v [(mkPoint 0 0 0, color.mkGray 7);
                    (mkPoint 0 0 0, black)] = Ok v' /\
    Voctree_Nodes v' = 1.
Proof.
  do 2 eexists. split; [reflexivity|]. split; [vm_compute; reflexivity|].
  refine (proj2 (uniform_fill_one_node
            {| vocelish := Vocel1 black;
               rectangle := image.Rect 0 0 2 1;
               sideShift := 1 |}
            [(mkPoint 0 0 0, color.mkGray 7); (mkPoint 0 0 0, black)]
            _ black _ _ _ _ _)).
  - apply (rc_New 2 1). reflexivity.
  - repeat constructor; unfold is_uint16; simpl; lia.
  - vm_compute. reflexivity.
  - simpl. lia.
  - intros [x y z] [_ (Hx & Hy & Hz)].
    cbn [PX PY PZ sideShift] in Hx, Hy, Hz.
    change (2 ^ 1) with 2 in Hx, Hy, Hz.
    assert (Ex : x = 0 \/ x = 1) by lia.
    assert (Ey : y = 0 \/ y = 1) by lia.
    assert (Ez : z = 0 \/ z = 1) by lia.
    destruct Ex as [-> | ->]; destruct Ey as [-> | ->]; destruct Ez as [-> | ->];
      vm_compute; reflexivity.
Defined.

(* ================================================================== *)
(** * Reading after a write *)

Lemma shaped_Vocel1 (n : nat) (o : color.Gray) : shaped n (Vocel1 o).
Proof. destruct n; exact I. Qed.

Lemma shaped_Vocel8 (n : nat) (px : arr8 color.Gray) :
  n <> O -> shaped n (Vocel8 px).
Proof. destruct n; intros H; exact H. Qed.

Lemma here_eta (cube : Cube) (m : nat) :
  SideShift cube = Z.of_nat (S m) -> (S m < 256)%nat ->
  snd (octIndex cube) =
  {| SideShift := Z.of_nat m; CPoint := CPoint (snd (octIndex cube)) |}.
Proof.
  intros Hs Hm. unfold octIndex. cbn [snd SideShift CPoint].
  f_equal. rewrite Hs.
  replace (Z.of_nat (S m) - 1) with (Z.of_nat m) by lia.
  apply uint8_small. unfold is_uint8. lia.
Qed.

(** [coalesce] changes the variant of a node, not what it reads. *)
Lemma coalesce_At (sub : arr8 Vocelish) r :
  coalesce sub = Ok r -> forall cube, At r cube = At (VocelTree sub) cube.
Proof.
  intros H cube.
  destruct (coalesce_cases sub) as [[_ Hc]|(px & Hpx & [[Heq Hc]|[_ Hc]])];
    rewrite Hc in H; injection H as <-.
  - reflexivity.
  - rewrite At_VocelTree_eq, (map_Vocel1_get _ _ _ Hpx). cbn [At].
    rewrite (Heq _ (octIndex_index cube)). reflexivity.
  - rewrite At_VocelTree_eq, (map_Vocel1_get _ _ _ Hpx), At_Vocel8_eq.
    reflexivity.
Qed.

Lemma Set_At (fuel : nat) :
  forall n v p q pixel r,
    shaped n v -> (n < 256)%nat ->
    Set_ fuel v {| SideShift := Z.of_nat n; CPoint := p |} pixel = Ok r ->
    At r {| SideShift := Z.of_nat n; CPoint := q |} =
    if same_path n p q then Ok pixel
    else At v {| SideShift := Z.of_nat n; CPoint := q |}.
Proof.
  induction fuel as [|fuel IH]; intros n v p q pixel r Hsh Hn H;
    [discriminate|].
  set (cp := {| SideShift := Z.of_nat n; CPoint := p |}) in *.
  set (cq := {| SideShift := Z.of_nat n; CPoint := q |}) in *.
  pose proof (octIndex_index cp) as Hip.
  pose proof (octIndex_index cq) as Hiq.
  destruct v as [o|px|sub].
  - (* Vocel1 *)
    rewrite Set_S_Vocel1 in H. unfold Vocel1_Set in H.
    destruct ((SideShift cp =? 0) || color.eqb pixel o) eqn:E.
    + injection H as <-. cbn [At].
      apply orb_prop in E. destruct E as [E|E].
      * apply Z.eqb_eq in E. cbn [SideShift cp] in E.
        assert (n = O) by lia. subst n. reflexivity.
      * apply color_eqb_eq in E. subst o.
        destruct (same_path n p q); reflexivity.
    + apply orb_false_elim in E. destruct E as [E0 _].
      apply Z.eqb_neq in E0. cbn [SideShift cp] in E0.
      unfold cq.
      rewrite (IH n (Vocel8 (fill o)) p q pixel r);
        [|apply shaped_Vocel8; lia|exact Hn|exact H].
      fold cq. rewrite At_Vocel8_eq, get_fill. reflexivity.
  - (* Vocel8 *)
    destruct n as [|m]; [exfalso; apply Hsh; reflexivity|].
    rewrite Set_S_Vocel8, Vocel8_Set_eq in H. cbn zeta in H.
    cbn [same_path]. fold cp cq.
    destruct (color.eqb (get px (fst (octIndex cp))) pixel) eqn:E.
    { injection H as <-.
      destruct (Z.eqb_spec (fst (octIndex cp)) (fst (octIndex cq))) as [Ei|Ei];
        cbn [andb]; [|reflexivity].
      destruct (same_path m _ _); [|reflexivity].
      rewrite At_Vocel8_eq, <- Ei. apply color_eqb_eq in E. congruence. }
    destruct (Z.eqb_spec (SideShift cp) 1) as [E1|E1].
    + cbn [SideShift cp] in E1. assert (m = O) by lia. subst m.
      cbn [same_path]. rewrite andb_true_r. rewrite At_Vocel8_eq.
      match type of H with context [forallb ?f ?l] =>
        destruct (forallb f l) eqn:Ef end; injection H as <-.
      * cbn [At].
        destruct (Z.eqb_spec (fst (octIndex cp)) (fst (octIndex cq)))
          as [Ei|Ei]; [reflexivity|].
        pose proof (proj1 (allSame_others _ _ _) Ef) as Hoth.
        rewrite (Hoth _ Hiq) by congruence. reflexivity.
      * rewrite At_Vocel8_eq.
        destruct (Z.eqb_spec (fst (octIndex cp)) (fst (octIndex cq)))
          as [Ei|Ei].
        -- rewrite <- Ei, get_put_same by exact Hip. reflexivity.
        -- rewrite get_put_other by auto. reflexivity.
    + unfold cq.
      rewrite (IH (S m) (VocelTree (arr8_map Vocel1 px)) p q pixel r);
        [|intros i _; rewrite get_map; apply shaped_Vocel1|exact Hn|exact H].
      cbn [same_path]. fold cp cq.
      rewrite At_VocelTree_eq, get_map, At_Vocel8_eq. reflexivity.
  - (* VocelTree *)
    destruct n as [|m]; [contradiction|].
    rewrite Set_S_VocelTree, VocelTree_Set_eq in H. inv_bind H.
    rewrite (coalesce_At _ _ H), !At_VocelTree_eq.
    cbn [same_path]. fold cp cq.
    destruct (Z.eqb_spec (fst (octIndex cp)) (fst (octIndex cq))) as [Ei|Ei];
      cbn [andb].
    + rewrite <- Ei, get_put_same by exact Hip.
      rewrite (here_eta cp m eq_refl Hn) in Ha.
      rewrite (here_eta cq m eq_refl Hn).
      apply (IH m _ _ _ _ _ (Hsh _ Hip)); [lia | exact Ha].
    + rewrite get_put_other by auto. reflexivity.
Qed.

(** ** Two voxels of a cube share a path only if they are equal *)

Lemma axis_split (m x : Z) :
  is_uint16 x -> 0 <= m < 256 -> x < 2 ^ (m + 1) ->
  x = (if 0 <? Z.shiftr x m then 2 ^ m else 0)
      + Z.land x (uint16 (uint16 (Z.shiftl 1 m) - 1)).
Proof.
  intros Hx Hm Hlt. unfold is_uint16 in Hx.
  assert (Hp : 0 < 2 ^ m) by (apply Z.pow_pos_nonneg; lia).
  rewrite octIndex_mask by lia. rewrite Z.land_ones by lia.
  rewrite Z.shiftr_div_pow2 by lia.
  destruct (Z_le_gt_dec m 16) as [Hle|Hgt].
  - rewrite Z.min_l by lia.
    rewrite Z.pow_add_r in Hlt by lia. change (2 ^ 1) with 2 in Hlt.
    pose proof (Z.div_mod x (2 ^ m)) as Hdm.
    pose proof (Z.mod_pos_bound x (2 ^ m) Hp) as Hmod.
    assert (Hq : 0 <= x / 2 ^ m < 2).
    { split; [apply Z.div_pos; lia|].
      apply Z.div_lt_upper_bound; lia. }
    destruct (Z.ltb_spec 0 (x / 2 ^ m)).
    + assert (Hq1 : x / 2 ^ m = 1) by lia. rewrite Hq1 in Hdm. lia.
    + assert (Hq0 : x / 2 ^ m = 0) by lia. rewrite Hq0 in Hdm. lia.
  - rewrite Z.min_r by lia.
    assert (H16 : 2 ^ 16 < 2 ^ m) by (apply Z.pow_lt_mono_r; lia).
    rewrite Z.div_small by lia. rewrite Z.mod_small by lia.
    simpl. lia.
Qed.

Lemma octIndex_fst_bits (c1 c2 : Cube) :
  fst (octIndex c1) = fst (octIndex c2) ->
  (0 <? Z.shiftr (PX (CPoint c1)) (uint8 (SideShift c1 - 1))) =
  (0 <? Z.shiftr (PX (CPoint c2)) (uint8 (SideShift c2 - 1))) /\
  (0 <? Z.shiftr (PY (CPoint c1)) (uint8 (SideShift c1 - 1))) =
  (0 <? Z.shiftr (PY (CPoint c2)) (uint8 (SideShift c2 - 1))) /\
  (0 <? Z.shiftr (PZ (CPoint c1)) (uint8 (SideShift c1 - 1))) =
  (0 <? Z.shiftr (PZ (CPoint c2)) (uint8 (SideShift c2 - 1))).
Proof.
  unfold octIndex. cbn [fst].
  destruct (0 <? Z.shiftr (PX (CPoint c1)) _),
           (0 <? Z.shiftr (PY (CPoint c1)) _),
           (0 <? Z.shiftr (PZ (CPoint c1)) _),
           (0 <? Z.shiftr (PX (CPoint c2)) _),
           (0 <? Z.shiftr (PY (CPoint c2)) _),
           (0 <? Z.shiftr (PZ (CPoint c2)) _);
    cbn; intros H; try discriminate H; auto.
Qed.

Lemma same_path_eq (n : nat) :
  forall p q,
    (n < 256)%nat -> valid_point p -> valid_point q ->
    in_cube (Z.of_nat n) p -> in_cube (Z.of_nat n) q ->
    same_path n p q = true -> p = q.
Proof.
  induction n as [|m IH]; intros p q Hn Hvp Hvq Hp Hq H.
  - destruct p as [x y z], q as [x' y' z'].
    destruct Hp as (Hx & Hy & Hz), Hq as (Hx' & Hy' & Hz').
    cbn [PX PY PZ] in *. change (2 ^ Z.of_nat 0) with 1 in *.
    f_equal; lia.
  - cbn [same_path] in H. apply andb_prop in H. destruct H as [Hi Hrest].
    apply Z.eqb_eq in Hi.
    set (cp := {| SideShift := Z.of_nat (S m); CPoint := p |}) in *.
    set (cq := {| SideShift := Z.of_nat (S m); CPoint := q |}) in *.
    assert (Hcp : valid_cube cp)
      by (split; [exact Hvp | unfold is_uint8; cbn [SideShift cp]; lia]).
    assert (Hcq : valid_cube cq)
      by (split; [exact Hvq | unfold is_uint8; cbn [SideShift cq]; lia]).
    assert (H1 : 1 <= Z.of_nat (S m)) by lia.
    destruct (octIndex_here cp Hcp H1) as (_ & Hpx & Hpy & Hpz).
    destruct (octIndex_here cq Hcq H1) as (_ & Hqx & Hqy & Hqz).
    cbn [SideShift cp cq] in Hpx, Hpy, Hpz, Hqx, Hqy, Hqz.
    replace (Z.of_nat (S m) - 1) with (Z.of_nat m) in * by lia.
    apply IH in Hrest;
      [|lia|apply (octIndex_valid cp Hcp)|apply (octIndex_valid cq Hcq)
       |repeat split; lia|repeat split; lia].
    destruct (octIndex_fst_bits cp cq Hi) as (Hbx & Hby & Hbz).
    unfold octIndex in Hrest. cbn [snd CPoint SideShift cp cq] in Hrest, Hbx, Hby, Hbz.
    replace (Z.of_nat (S m) - 1) with (Z.of_nat m) in * by lia.
    rewrite (uint8_small (Z.of_nat m)) in * by (unfold is_uint8; lia).
    injection Hrest as Hrx Hry Hrz.
    destruct p as [x y z], q as [x' y' z'].
    destruct Hvp as (Hux & Huy & Huz), Hvq as (Hux' & Huy' & Huz').
    destruct Hp as (Hx & Hy & Hz), Hq as (Hx' & Hy' & Hz').
    cbn [PX PY PZ] in *.
    replace (Z.of_nat (S m)) with (Z.of_nat m + 1) in * by lia.
    assert (Hm : 0 <= Z.of_nat m < 256) by lia.
    f_equal.
    + rewrite (axis_split (Z.of_nat m) x), (axis_split (Z.of_nat m) x')
        by (try assumption; lia).
      rewrite Hbx, Hrx. reflexivity.
    + rewrite (axis_split (Z.of_nat m) y), (axis_split (Z.of_nat m) y')
        by (try assumption; lia).
      rewrite Hby, Hry. reflexivity.
    + rewrite (axis_split (Z.of_nat m) z), (axis_split (Z.of_nat m) z')
        by (try assumption; lia).
      rewrite Hbz, Hrz. reflexivity.
Qed.

(* ================================================================== *)
(** * Splitting a uniform volume *)

Lemma Nodes_pos (v : Vocelish) : 1 <= Nodes v.
Proof.
  induction v as [o|px|sub IH]; [simpl; lia | simpl; lia |].
  destruct IH as [s0 H0 s1 H1 s2 H2 s3 H3 s4 H4 s5 H5 s6 H6 s7 H7].
  cbn -[Z.add]. lia.
Qed.

Lemma Nodes_not_leaf (v : Vocelish) : isVocel1 v = false -> 8 <= Nodes v.
Proof.
  destruct v as [o|px|sub]; intros H; [discriminate | simpl; lia |].
  destruct sub as [s0 s1 s2 s3 s4 s5 s6 s7]. cbn -[Z.add].
  pose proof (Nodes_pos s0). pose proof (Nodes_pos s1).
  pose proof (Nodes_pos s2). pose proof (Nodes_pos s3).
  pose proof (Nodes_pos s4). pose proof (Nodes_pos s5).
  pose proof (Nodes_pos s6). pose proof (Nodes_pos s7). lia.
Qed.

(** On the one-voxel volume a write of another value keeps the node
    count at 1: the claim of C5 fails at shift 0. *)
Lemma single_voxel_write_keeps_one_node :
  ~ (forall v c0 c p v',
        reachable v ->
        (forall q, in_volume v q -> Voctree_At v q = Ok c0) ->
        c <> c0 -> in_volume v p ->
        Voctree_Set v p c = Ok v' ->
        Voctree_Nodes v < Voctree_Nodes v').
Proof.
  intros H.
  specialize (H {| vocelish := Vocel1 black;
                   rectangle := image.Rect 0 0 1 1;
                   sideShift := 0 |}
                black (color.mkGray 255) (mkPoint 0 0 0)
                {| vocelish := Vocel1 (color.mkGray 255);
                   rectangle := image.Rect 0 0 1 1;
                   sideShift := 0 |}).
  assert (Habs : 1 < 1); [|lia].
  apply H.
  - apply (reach_New 1 1). reflexivity.
  - intros q _. reflexivity.
  - discriminate.
  - unfold in_volume, valid_point, in_cube, is_uint16; simpl; lia.
  - reflexivity.
Qed.

(** On a volume of uniform content that is not held by a single
    [Vocel1] (here the eight black leaves left by a growth), the same
    write lowers the node count, from 9 to 8. *)
Lemma split_of_grown_volume_loses_a_node :
  exists v0 v gray v',
    NewVoctree 1 1 = Ok v0 /\ GetPlane v0 2 = Ok (v, gray) /\
    (forall q, in_volume v q -> Voctree_At v q = Ok black) /\
    Voctree_Set v (mkPoint 0 0 0) (color.mkGray 255) = Ok v' /\
    Voctree_Nodes v = 9 /\ Voctree_Nodes v' = 8.
Proof.
  do 4 eexists. split; [reflexivity|]. split; [vm_compute; reflexivity|].
  split; [|split; [vm_compute; reflexivity | split; reflexivity]].
  intros [x y z] [_ (Hx & Hy & Hz)].
  cbn [PX PY PZ sideShift] in Hx, Hy, Hz.
  change (2 ^ 1) with 2 in Hx, Hy, Hz.
  assert (Ex : x = 0 \/ x = 1) by lia.
  assert (Ey : y = 0 \/ y = 1) by lia.
  assert (Ez : z = 0 \/ z = 1) by lia.
  destruct Ex as [-> | ->]; destruct Ey as [-> | ->];
    destruct Ez as [-> | ->]; vm_compute; reflexivity.
Qed.

(** C5 (as the code has it). On a volume of shift at least 1 whose
    content is one uniform value held by a single [Vocel1] root, writing
    a different value at a voxel [p] increases the node count, and every
    other voxel [q] reads what it read before. *)
Theorem split_correctness (v : Voctree) (c0 c : color.Gray) (p : Point) :
  1 <= sideShift v < 256 ->
  vocelish v = Vocel1 c0 ->
  c <> c0 -> in_volume v p ->
  exists v',
    Voctree_Set v p c = Ok v' /\
    Voctree_Nodes v < Voctree_Nodes v' /\
    Voctree_At v' p = Ok c /\
    (forall q, in_volume v q -> q <> p -> Voctree_At v' q = Voctree_At v q).
Proof.
  intros Hs Hroot Hne [Hvp Hp].
  set (cube := {| SideShift := sideShift v; CPoint := p |}).
  assert (Hv : valid_cube cube)
    by (split; [exact Hvp | unfold is_uint8; simpl; lia]).
  destruct (Vocelish_Set_total (vocelish v) cube c Hv) as [r Hr].
  exists (with_root v r).
  assert (Hn : (Z.to_nat (sideShift v) < 256)%nat) by lia.
  assert (Hz : Z.of_nat (Z.to_nat (sideShift v)) = sideShift v) by lia.
  assert (Hframe : forall q,
             At r {| SideShift := sideShift v; CPoint := q |} =
             if same_path (Z.to_nat (sideShift v)) p q then Ok c
             else At (vocelish v) {| SideShift := sideShift v; CPoint := q |}).
  { intros q. rewrite <- Hz at 1 3.
    apply (Set_At (fuel_of (vocelish v))); [|exact Hn|].
    - rewrite Hroot. apply shaped_Vocel1.
    - rewrite Hz. exact Hr. }
  split; [unfold Voctree_Set; fold cube; rewrite Hr; reflexivity|].
  split; [|split].
  - unfold Voctree_Nodes. simpl vocelish at 2. rewrite Hroot.
    assert (Hnl : isVocel1 r = false).
    { unfold Vocelish_Set in Hr.
      remember (fuel_of (vocelish v)) as fuel eqn:Ef. clear Ef.
      rewrite Hroot in Hr.
      apply (Set_Vocel1_splits fuel c0 c cube r);
        [simpl; lia | exact Hne | exact Hr]. }
    pose proof (Nodes_not_leaf r Hnl). simpl. lia.
  - unfold Voctree_At. simpl. rewrite Hframe.
    destruct (same_path _ p p) eqn:E; [reflexivity|].
    exfalso.
    assert (Hid : forall n a, same_path n a a = true).
    { induction n as [|m IHm]; intros a; [reflexivity|].
      cbn [same_path]. rewrite Z.eqb_refl, IHm. reflexivity. }
    rewrite Hid in E. discriminate.
  - intros q [Hvq Hq] Hqp. unfold Voctree_At. simpl. rewrite Hframe.
    destruct (same_path _ p q) eqn:E; [|reflexivity].
    exfalso. apply Hqp. symmetry.
    apply (same_path_eq (Z.to_nat (sideShift v))); try assumption;
      rewrite Hz; assumption.
Qed.

Lemma split_correctness_witness :
  exists v, NewVoctree 4 4 = Ok v /\
  exists v',
    Voctree_Set v (mkPoint 3 0 1) (color.mkGray 255) = Ok v' /\
    Voctree_Nodes v < Voctree_Nodes v' /\
    Voctree_At v' (mkPoint 3 0 1) = Ok (color.mkGray 255) /\
    (forall q, in_volume v q -> q <> mkPoint 3 0 1 ->
               Voctree_At v' q = Voctree_At v q).
Proof.
  eexists. split; [reflexivity|].
  apply (split_correctness
           {| vocelish := Vocel1 black;
              rectangle := image.Rect 0 0 4 4;
              sideShift := 2 |} black (color.mkGray 255) (mkPoint 3 0 1)).
  - simpl. lia.
  - reflexivity.
  - discriminate.
  - unfold in_volume, valid_point, in_cube, is_uint16; simpl; lia.
Defined.

(* ================================================================== *)
(** * The shape of every reachable tree *)

Lemma compact_shaped (n : nat) : forall v, compact n v -> shaped n v.
Proof.
  induction n as [|m IH]; intros v Hc; destruct v as [o|px|sub]; simpl in *;
    try tauto.
  intros i Hi. apply IH. apply Hc. exact Hi.
Qed.

Lemma coalesce_shaped (m : nat) (sub : arr8 Vocelish) r :
  (forall j, in_range8 j -> shaped m (get sub j)) ->
  coalesce sub = Ok r -> shaped (S m) r.
Proof.
  intros Hsub H.
  destruct (coalesce_cases sub) as [[_ Hc]|(px & _ & [[_ Hc]|[_ Hc]])];
    rewrite Hc in H; injection H as <-; simpl; auto.
Qed.

Lemma Set_shaped (fuel : nat) :
  forall n v cube pixel r,
    shaped n v -> SideShift cube = Z.of_nat n -> (n < 256)%nat ->
    Set_ fuel v cube pixel = Ok r -> shaped n r.
Proof.
  induction fuel as [|fuel IH]; intros n v cube pixel r Hsh Hs Hn H;
    [discriminate|].
  pose proof (octIndex_index cube) as Hi.
  assert (Hu : is_uint8 (SideShift cube)) by (unfold is_uint8; lia).
  destruct v as [o|px|sub].
  - rewrite Set_S_Vocel1 in H. unfold Vocel1_Set in H.
    destruct ((SideShift cube =? 0) || color.eqb pixel o) eqn:E.
    { injection H as <-. apply shaped_Vocel1. }
    apply orb_false_elim in E. destruct E as [E0 _].
    apply Z.eqb_neq in E0.
    apply (IH n (Vocel8 (fill o)) cube pixel r); auto.
    apply shaped_Vocel8. lia.
  - destruct n as [|m]; [exfalso; apply Hsh; reflexivity|].
    rewrite Set_S_Vocel8, Vocel8_Set_eq in H. cbn zeta in H.
    destruct (color.eqb _ pixel).
    { injection H as <-. exact Hsh. }
    destruct (SideShift cube =? 1).
    + match type of H with context [forallb ?f ?l] =>
        destruct (forallb f l) end; injection H as <-; simpl; auto.
    + apply (IH (S m) (VocelTree (arr8_map Vocel1 px)) cube pixel r); auto.
      intros i _. rewrite get_map. apply shaped_Vocel1.
  - destruct n as [|m]; [contradiction|].
    rewrite Set_S_VocelTree, VocelTree_Set_eq in H. inv_bind H.
    assert (Hhs : SideShift (snd (octIndex cube)) = Z.of_nat m)
      by (apply here_shift_nat; assumption).
    apply (coalesce_shaped m _ r) in H; [exact H|].
    intros j Hj. destruct (Z.eq_dec j (fst (octIndex cube))) as [->|Hd].
    + rewrite get_put_same by exact Hi.
      apply (IH m _ (snd (octIndex cube)) pixel a (Hsh _ Hi) Hhs);
        [lia | exact Ha].
    + rewrite get_put_other by auto. apply Hsh; exact Hj.
Qed.

Lemma with_root_shaped (v : Voctree) (shift : Z) point pixel root :
  shift_ok v -> Voctree_shaped v -> shift = sideShift v ->
  Vocelish_Set (vocelish v) {| SideShift := shift; CPoint := point |} pixel
    = Ok root ->
  Voctree_shaped (with_root v root).
Proof.
  intros Hs Hc -> H. unfold Voctree_shaped, shift_ok in *. simpl.
  apply (Set_shaped _ _ _ _ _ _ Hc) in H; [exact H| |]; simpl; lia.
Qed.

Lemma wrap_root_shaped (v : Voctree) :
  0 <= sideShift v < 62 -> Voctree_shaped v -> Voctree_shaped (wrap_root v).
Proof.
  intros Hs Hc. unfold Voctree_shaped.
  rewrite wrap_root_shift by exact Hs.
  replace (Z.to_nat (sideShift v + 1)) with (S (Z.to_nat (sideShift v)))
    by lia.
  simpl. intros i Hi.
  case_index i Hi; simpl; first [exact Hc | apply shaped_Vocel1].
Qed.

Lemma resize_shaped (fuel : nat) :
  forall v z v',
    shift_ok v -> Voctree_shaped v ->
    resize_ fuel v z = Ok v' -> Voctree_shaped v'.
Proof.
  induction fuel as [|fuel IH]; intros v z v' Hs Hc H; simpl in H;
    [discriminate|].
  unfold shift_ok in *.
  rewrite shift_test_small in H by exact Hs.
  destruct (Z.ltb_spec (2 ^ sideShift v) z) as [Hlt|Hge].
  - destruct (Z.eq_dec (sideShift v) 62) as [E|Hne].
    + rewrite resize_diverges in H; [discriminate| |rewrite <- E; exact Hlt].
      simpl. pose proof (uint8_range (sideShift v + 1)) as Hr.
      unfold is_uint8 in Hr. lia.
    + apply IH in H; [exact H| |].
      * rewrite wrap_root_shift; lia.
      * apply wrap_root_shaped; [lia | exact Hc].
  - injection H as <-. exact Hc.
Qed.

Lemma reachable_shaped v : reachable v -> Voctree_shaped v.
Proof.
  induction 1 as [sx sy v H | v p c v' Hr IH Hp H | v p c _ IH _ _
                 | v z g v' e Hr IH _ H | v z v' g Hr IH _ H].
  - destruct (NewVoctree_inv _ _ _ H) as (_ & Hroot & _).
    unfold Voctree_shaped. rewrite Hroot. apply shaped_Vocel1.
  - apply Voctree_Set_inv in H. destruct H as (root & Hroot & ->).
    eapply with_root_shaped; [|exact IH|reflexivity|exact Hroot].
    apply reachable_shift_ok, Hr.
  - exact IH.
  - pose proof (reachable_shift_ok _ Hr) as Hs.
    apply SetPlane_inv in H.
    destruct H as [[_ ->]|(_ & _ & v1 & Hres & Hloop)]; [exact IH|].
    pose proof (resize_shift _ _ _ _ Hs Hres) as (Hs1 & _).
    pose proof (resize_shaped _ _ _ _ Hs IH Hres) as Hc1.
    assert (Hfin : sideShift v' = sideShift v1 /\ Voctree_shaped v').
    { revert Hloop.
      apply (plane_loop_inv
               (fun w => sideShift w = sideShift v1 /\ Voctree_shaped w))
        with (cube := fun _ y x => _); [|split; [reflexivity | exact Hc1]].
      intros w y x c root [Hw Hcw] Hroot. split; [exact Hw|].
      eapply with_root_shaped; [|exact Hcw|symmetry; exact Hw|exact Hroot].
      unfold shift_ok in *. rewrite Hw. exact Hs1. }
    apply Hfin.
  - pose proof (reachable_shift_ok _ Hr) as Hs.
    apply GetPlane_inv in H.
    exact (resize_shaped _ _ _ _ Hs IH H).
Qed.

(* ================================================================== *)
(** * The volume as a map from voxels to pixels *)

Lemma Point_eqb_eq (p q : Point) : Point_eqb p q = true <-> p = q.
Proof.
  unfold Point_eqb. destruct p as [x y z], q as [x' y' z']. simpl.
  rewrite !andb_true_iff, !Z.eqb_eq. split.
  - intros [[-> ->] ->]. reflexivity.
  - intros [= -> -> ->]. auto.
Qed.

Lemma same_path_refl (n : nat) : forall p, same_path n p p = true.
Proof.
  induction n as [|m IH]; intros p; [reflexivity|].
  cbn [same_path]. rewrite Z.eqb_refl, IH. reflexivity.
Qed.

Lemma same_path_Point_eqb (n : nat) (p q : Point) :
  (n < 256)%nat -> valid_point p -> valid_point q ->
  in_cube (Z.of_nat n) p -> in_cube (Z.of_nat n) q ->
  same_path n p q = Point_eqb p q.
Proof.
  intros Hn Hvp Hvq Hp Hq.
  destruct (Point_eqb p q) eqn:E.
  - apply Point_eqb_eq in E. subst q. apply same_path_refl.
  - destruct (same_path n p q) eqn:Es; [|reflexivity].
    apply same_path_eq in Es; try assumption.
    apply Point_eqb_eq in Es. congruence.
Qed.

(** One write, then one read. *)
Lemma Voctree_Set_At (v : Voctree) (p q : Point) (c : color.Gray) v' :
  shift_ok v -> Voctree_shaped v ->
  in_volume v p -> in_volume v q ->
  Voctree_Set v p c = Ok v' ->
  Voctree_At v' q = if Point_eqb p q then Ok c else Voctree_At v q.
Proof.
  intros Hs Hsh [Hvp Hp] [Hvq Hq] H.
  apply Voctree_Set_inv in H. destruct H as (root & Hroot & ->).
  unfold shift_ok in Hs.
  assert (Hn : (Z.to_nat (sideShift v) < 256)%nat) by lia.
  assert (Hz : Z.of_nat (Z.to_nat (sideShift v)) = sideShift v) by lia.
  unfold Voctree_At. cbn [vocelish sideShift with_root].
  rewrite <- (same_path_Point_eqb (Z.to_nat (sideShift v)));
    try assumption; try (rewrite Hz; assumption).
  rewrite <- Hz at 1 3.
  apply (Set_At (fuel_of (vocelish v))); [exact Hsh | exact Hn |].
  rewrite Hz. exact Hroot.
Qed.

Lemma Voctree_Set_total (v : Voctree) (p : Point) (c : color.Gray) :
  shift_ok v -> valid_point p -> exists v', Voctree_Set v p c = Ok v'.
Proof.
  intros Hs Hp.
  destruct (Vocelish_Set_total (vocelish v)
              {| SideShift := sideShift v; CPoint := p |} c
              (shift_ok_valid v p Hs Hp)) as [root Hroot].
  exists (with_root v root). unfold Voctree_Set. rewrite Hroot. reflexivity.
Qed.

(** X1. On a reachable volume a write at a voxel [p] returns, the next
    read at [p] gives the pixel written, and every other voxel reads
    what it read before. *)
Theorem read_after_write (v : Voctree) (p : Point) (c : color.Gray) :
  reachable v -> in_volume v p ->
  exists v',
    Voctree_Set v p c = Ok v' /\
    Voctree_At v' p = Ok c /\
    (forall q, in_volume v q -> q <> p -> Voctree_At v' q = Voctree_At v q).
Proof.
  intros Hr Hp.
  pose proof (reachable_shift_ok v Hr) as Hs.
  pose proof (reachable_shaped v Hr) as Hsh.
  destruct (Voctree_Set_total v p c Hs (proj1 Hp)) as [v' Hv'].
  exists v'. split; [exact Hv'|]. split.
  - rewrite (Voctree_Set_At v p p c v' Hs Hsh Hp Hp Hv').
    rewrite (proj2 (Point_eqb_eq p p) eq_refl). reflexivity.
  - intros q Hq Hne.
    rewrite (Voctree_Set_At v p q c v' Hs Hsh Hp Hq Hv').
    destruct (Point_eqb p q) eqn:E; [|reflexivity].
    apply Point_eqb_eq in E. congruence.
Qed.

Lemma read_after_write_witness :
  exists v0 v, NewVoctree 4 4 = Ok v0 /\
    Voctree_Set v0 (mkPoint 0 3 2) (color.mkGray 7) = Ok v /\
  exists v',
    Voctree_Set v (mkPoint 1 3 2) (color.mkGray 9) = Ok v' /\
    Voctree_At v' (mkPoint 1 3 2) = Ok (color.mkGray 9) /\
    (forall q, in_volume v q -> q <> mkPoint 1 3 2 ->
               Voctree_At v' q = Voctree_At v q).
Proof.
  do 2 eexists. split; [reflexivity|]. split; [vm_compute; reflexivity|].
  apply read_after_write.
  - eapply (reach_Set _ (mkPoint 0 3 2) (color.mkGray 7)).
    + apply (reach_New 4 4). reflexivity.
    + unfold valid_point, is_uint16; simpl; lia.
    + vm_compute. reflexivity.
  - unfold in_volume, valid_point, in_cube, is_uint16; simpl; lia.
Defined.

Lemma Voctree_Sets_At (writes : list (Point * color.Gray)) :
  forall v,
    shift_ok v -> Voctree_shaped v ->
    Forall (fun w => in_volume v (fst w)) writes ->
    exists v',
      Voctree_Sets v writes = Ok v' /\
      sideShift v' = sideShift v /\ rectangle v' = rectangle v /\
      Voctree_shaped v' /\
      (forall q, in_volume v q ->
         Voctree_At v' q =
         match last_write q writes with
         | Some c => Ok c
         | None => Voctree_At v q
         end).
Proof.
  induction writes as [|[p c] writes IH]; intros v Hs Hsh Hall.
  - exists v. simpl. auto.
  - inversion Hall as [|w ws Hp Hrest]; subst. simpl in Hp.
    destruct (Voctree_Set_total v p c Hs (proj1 Hp)) as [v1 Hv1].
    pose proof Hv1 as Hinv. apply Voctree_Set_inv in Hinv.
    destruct Hinv as (root & Hroot & E1).
    assert (Hsh1 : Voctree_shaped v1).
    { subst v1. eapply with_root_shaped; eauto. }
    assert (Hk : sideShift v1 = sideShift v) by (subst v1; reflexivity).
    assert (Hrect : rectangle v1 = rectangle v) by (subst v1; reflexivity).
    destruct (IH v1) as (v' & Hv' & Hk' & Hrect' & Hsh' & Hread).
    + unfold shift_ok. rewrite Hk. exact Hs.
    + exact Hsh1.
    + eapply Forall_impl; [|exact Hrest].
      intros w [Hw1 Hw2]. split; [exact Hw1 | rewrite Hk; exact Hw2].
    + exists v'. cbn [Voctree_Sets]. rewrite Hv1. cbn [bind].
      split; [exact Hv'|]. split; [congruence|]. split; [congruence|].
      split; [exact Hsh'|].
      intros q Hq. cbn [last_write].
      rewrite Hread by (destruct Hq; split; [|rewrite Hk]; assumption).
      destruct (last_write q writes); [reflexivity|].
      rewrite (Voctree_Set_At v p q c v1 Hs Hsh Hp Hq Hv1).
      destruct (Point_eqb p q); reflexivity.
Qed.

(** X2. Any sequence of writes at voxels of a reachable volume returns,
    and afterwards each voxel reads the pixel of the last write made to
    it, or what it read before when no write touched it: the octree
    behaves as a map from voxels to pixels. *)
Theorem writes_as_map (v : Voctree) (writes : list (Point * color.Gray)) :
  reachable v ->
  Forall (fun w => in_volume v (fst w)) writes ->
  exists v',
    Voctree_Sets v writes = Ok v' /\
    (forall q, in_volume v q ->
       Voctree_At v' q =
       match last_write q writes with
       | Some c => Ok c
       | None => Voctree_At v q
       end).
Proof.
  intros Hr Hall.
  destruct (Voctree_Sets_At writes v (reachable_shift_ok v Hr)
              (reachable_shaped v Hr) Hall)
    as (v' & Hv' & _ & _ & _ & Hread).
  exists v'. auto.
Qed.

Lemma writes_as_map_witness :
  exists v, NewVoctree 2 2 = Ok v /\
  exists v',
    Voctree_Sets v [(mkPoint 1 0 1, color.mkGray 5);
                    (mkPoint 0 0 0, color.mkGray 6);
                    (mkPoint 1 0 1, color.mkGray 7)] = Ok v' /\
    Voctree_At v' (mkPoint 1 0 1) = Ok (color.mkGray 7).
Proof.
  eexists. split; [reflexivity|].
  destruct (writes_as_map
              {| vocelish := Vocel1 black;
                 rectangle := image.Rect 0 0 2 2;
                 sideShift := 1 |}
              [(mkPoint 1 0 1, color.mkGray 5);
               (mkPoint 0 0 0, color.mkGray 6);
               (mkPoint 1 0 1, color.mkGray 7)])
    as (v' & Hv' & Hread).
  - apply (reach_New 2 2). reflexivity.
  - repeat constructor;
      unfold in_volume, valid_point, in_cube, is_uint16; simpl; lia.
  - exists v'. split; [exact Hv'|].
    apply (Hread (mkPoint 1 0 1)).
    unfold in_volume, valid_point, in_cube, is_uint16; simpl; lia.
Defined.

(* ================================================================== *)
(** * Octant addressing as a bijection, and where stray points land *)

Lemma octIndex_testbits (c : Cube) :
  Z.testbit (fst (octIndex c)) 0
  = (0 <? Z.shiftr (PX (CPoint c)) (uint8 (SideShift c - 1))) /\
  Z.testbit (fst (octIndex c)) 1
  = (0 <? Z.shiftr (PY (CPoint c)) (uint8 (SideShift c - 1))) /\
  Z.testbit (fst (octIndex c)) 2
  = (0 <? Z.shiftr (PZ (CPoint c)) (uint8 (SideShift c - 1))).
Proof.
  unfold octIndex. cbn [fst].
  destruct (0 <? Z.shiftr (PX (CPoint c)) _),
           (0 <? Z.shiftr (PY (CPoint c)) _),
           (0 <? Z.shiftr (PZ (CPoint c)) _); cbn; auto.
Qed.

(** The octant and the residue of an in-cube point give the point back. *)
Lemma corner_octIndex (s : Z) (p : Point) :
  1 <= s < 256 -> valid_point p -> in_cube s p ->
  corner (s - 1)
         (fst (octIndex {| SideShift := s; CPoint := p |}))
         (CPoint (snd (octIndex {| SideShift := s; CPoint := p |}))) = p.
Proof.
  intros Hs (Hux & Huy & Huz) (Hx & Hy & Hz).
  destruct (octIndex_testbits {| SideShift := s; CPoint := p |})
    as (Hbx & Hby & Hbz).
  cbn [SideShift CPoint] in Hbx, Hby, Hbz.
  unfold corner. rewrite Hbx, Hby, Hbz.
  unfold octIndex. cbn [snd SideShift CPoint PX PY PZ].
  rewrite (uint8_small (s - 1)) by (unfold is_uint8; lia).
  destruct p as [x y z]. cbn [PX PY PZ] in *.
  f_equal; symmetry; apply axis_split; try assumption; try lia;
    replace (s - 1 + 1) with s by lia; lia.
Qed.

Lemma in_cube_dec (s : Z) (p : Point) : {in_cube s p} + {~ in_cube s p}.
Proof.
  unfold in_cube.
  destruct (Z_le_dec 0 (PX p)), (Z_lt_dec (PX p) (2 ^ s)),
           (Z_le_dec 0 (PY p)), (Z_lt_dec (PY p) (2 ^ s)),
           (Z_le_dec 0 (PZ p)), (Z_lt_dec (PZ p) (2 ^ s));
    first [left; lia | right; lia].
Qed.

(** X3. For a cube of shift 1 to 16, [octIndex] is a bijection between
    the points of the cube and the pairs of an octant index and a point
    of the half-size cube: [corner] rebuilds the point from what
    [octIndex] returns, and [octIndex] of a rebuilt point returns the
    octant and the residue it was built from. *)
Theorem octIndex_bijection (s : Z) :
  1 <= s <= 16 ->
  (forall p, in_cube s p ->
     let c := {| SideShift := s; CPoint := p |} in
     in_range8 (fst (octIndex c)) /\
     SideShift (snd (octIndex c)) = s - 1 /\
     in_cube (s - 1) (CPoint (snd (octIndex c))) /\
     corner (s - 1) (fst (octIndex c)) (CPoint (snd (octIndex c))) = p) /\
  (forall i p', in_range8 i -> in_cube (s - 1) p' ->
     in_cube s (corner (s - 1) i p') /\
     octIndex {| SideShift := s; CPoint := corner (s - 1) i p' |}
     = (i, {| SideShift := s - 1; CPoint := p' |})).
Proof.
  intros Hs. split.
  - intros p Hp c.
    assert (Hvp : valid_point p) by (apply (in_cube_valid s); [lia | exact Hp]).
    assert (Hc : valid_cube c)
      by (split; [exact Hvp | unfold is_uint8; simpl; lia]).
    destruct (octIndex_here c Hc) as (Hk & Hx & Hy & Hz); [simpl; lia|].
    cbn [SideShift c] in Hk, Hx, Hy, Hz.
    split; [apply octIndex_index|]. split; [exact Hk|].
    split; [repeat split; lia|].
    apply corner_octIndex; [lia | exact Hvp | exact Hp].
  - intros i p' Hi Hp'.
    remember (Z.to_nat (s - 1)) as m eqn:Em.
    assert (E1 : s - 1 = Z.of_nat m) by lia.
    assert (E2 : s = Z.of_nat (S m)) by lia.
    rewrite E1 in Hp' |- *. rewrite E2.
    split.
    + apply corner_in_cube. exact Hp'.
    + apply octIndex_corner; [lia | exact Hi | exact Hp'].
Qed.

Lemma octIndex_bijection_witness :
  corner 2 (fst (octIndex {| SideShift := 3; CPoint := mkPoint 5 2 7 |}))
         (CPoint (snd (octIndex {| SideShift := 3;
                                   CPoint := mkPoint 5 2 7 |})))
  = mkPoint 5 2 7.
Proof.
  refine (proj2 (proj2 (proj2
            (proj1 (octIndex_bijection 3 _) (mkPoint 5 2 7) _)))).
  - lia.
  - unfold in_cube; simpl; lia.
Defined.

(** ** Unchecked coordinates *)

Lemma alias_axis_spec (s x : Z) :
  1 <= s <= 16 -> is_uint16 x ->
  0 <= alias_axis s x < 2 ^ s /\
  (0 <? Z.shiftr (alias_axis s x) (s - 1)) = (0 <? Z.shiftr x (s - 1)) /\
  Z.land (alias_axis s x) (uint16 (uint16 (Z.shiftl 1 (s - 1)) - 1))
  = Z.land x (uint16 (uint16 (Z.shiftl 1 (s - 1)) - 1)) /\
  (x < 2 ^ s -> alias_axis s x = x).
Proof.
  intros Hs Hx. unfold alias_axis.
  assert (Hp : 0 < 2 ^ (s - 1)) by (apply Z.pow_pos_nonneg; lia).
  pose proof (Z.mod_pos_bound x (2 ^ (s - 1)) Hp) as Hm.
  assert (Hpow : 2 ^ s = 2 * 2 ^ (s - 1)).
  { replace s with (s - 1 + 1) at 1 by lia.
    rewrite Z.pow_add_r by lia. change (2 ^ 1) with 2. lia. }
  destruct (axis_corner (s - 1) (x mod 2 ^ (s - 1))
              (0 <? Z.shiftr x (s - 1))) as [Hb Hr]; [lia | exact Hm |].
  split; [destruct (0 <? Z.shiftr x (s - 1)); lia|].
  split; [exact Hb|]. split.
  - rewrite Hr. rewrite octIndex_mask by lia.
    rewrite Z.min_l by lia. rewrite Z.land_ones by lia. reflexivity.
  - intros Hlt.
    assert (Hr1 : 0 <= s - 1 < 256) by lia.
    assert (Hlt1 : x < 2 ^ (s - 1 + 1))
      by (replace (s - 1 + 1) with s by lia; exact Hlt).
    pose proof (axis_split (s - 1) x Hx Hr1 Hlt1) as Hsplit.
    rewrite masked_coord in Hsplit by assumption.
    rewrite Z.min_l in Hsplit by lia.
    symmetry. exact Hsplit.
Qed.

Lemma alias_octIndex (s : Z) (p : Point) :
  1 <= s <= 16 -> valid_point p ->
  octIndex {| SideShift := s; CPoint := alias s p |}
  = octIndex {| SideShift := s; CPoint := p |}.
Proof.
  intros Hs (Hx & Hy & Hz).
  destruct (alias_axis_spec s (PX p) Hs Hx) as (_ & Hbx & Hrx & _).
  destruct (alias_axis_spec s (PY p) Hs Hy) as (_ & Hby & Hry & _).
  destruct (alias_axis_spec s (PZ p) Hs Hz) as (_ & Hbz & Hrz & _).
  unfold octIndex, alias. cbn [SideShift CPoint PX PY PZ].
  rewrite (uint8_small (s - 1)) by (unfold is_uint8; lia).
  rewrite Hbx, Hby, Hbz, Hrx, Hry, Hrz. reflexivity.
Qed.

Lemma alias_in_cube (s : Z) (p : Point) :
  1 <= s <= 16 -> valid_point p ->
  in_cube s (alias s p) /\ (in_cube s p -> alias s p = p).
Proof.
  intros Hs (Hx & Hy & Hz).
  destruct (alias_axis_spec s (PX p) Hs Hx) as (Hax & _ & _ & Hix).
  destruct (alias_axis_spec s (PY p) Hs Hy) as (Hay & _ & _ & Hiy).
  destruct (alias_axis_spec s (PZ p) Hs Hz) as (Haz & _ & _ & Hiz).
  split; [repeat split; simpl; lia|].
  intros (Hpx & Hpy & Hpz). unfold alias. destruct p as [x y z].
  cbn [PX PY PZ] in *. f_equal; auto; lia.
Qed.

(** X4. Coordinates are not checked against the cube.  On a volume of
    shift 1 to 16, a write or a read at any 16-bit point [p] is the write
    or the read at the voxel [alias shift p] of the volume: each axis
    keeps its low [shift - 1] bits and lands in the upper half exactly
    when it is at or above [2^(shift-1)].  For a point of the volume,
    that voxel is the point itself. *)
Theorem unchecked_point_aliases (v : Voctree) (p : Point) :
  1 <= sideShift v <= 16 -> valid_point p ->
  in_volume v (alias (sideShift v) p) /\
  (in_volume v p -> alias (sideShift v) p = p) /\
  (forall c, Voctree_Set v p c = Voctree_Set v (alias (sideShift v) p) c) /\
  Voctree_At v p = Voctree_At v (alias (sideShift v) p).
Proof.
  intros Hs Hp.
  destruct (alias_in_cube (sideShift v) p Hs Hp) as [Hin Hid].
  pose proof (alias_octIndex (sideShift v) p Hs Hp) as Ho.
  split; [|split; [|split]].
  - split; [|exact Hin]. apply (in_cube_valid (sideShift v)); [lia | exact Hin].
  - intros [_ Hc]. apply Hid. exact Hc.
  - intros c. unfold Voctree_Set, Vocelish_Set.
    rewrite (Set_cube_ext
               {| SideShift := sideShift v; CPoint := p |}
               {| SideShift := sideShift v; CPoint := alias (sideShift v) p |}
               eq_refl (eq_sym Ho)).
    reflexivity.
  - unfold Voctree_At.
    apply (At_cube_ext
             {| SideShift := sideShift v; CPoint := p |}
             {| SideShift := sideShift v; CPoint := alias (sideShift v) p |}
             (eq_sym Ho)).
Qed.

Lemma unchecked_point_aliases_witness :
  exists v, NewVoctree 4 4 = Ok v /\
    alias (sideShift v) (mkPoint 9 1 4) = mkPoint 3 1 2 /\
    Voctree_Set v (mkPoint 9 1 4) (color.mkGray 8)
    = Voctree_Set v (mkPoint 3 1 2) (color.mkGray 8).
Proof.
  eexists. split; [reflexivity|]. split; [reflexivity|].
  refine (proj1 (proj2 (proj2 (unchecked_point_aliases
            {| vocelish := Vocel1 black;
               rectangle := image.Rect 0 0 4 4;
               sideShift := 2 |} (mkPoint 9 1 4) _ _))) (color.mkGray 8)).
  - simpl. lia.
  - unfold valid_point, is_uint16; simpl; lia.
Defined.

(* ================================================================== *)
(** * Growth keeps what the volume holds *)

Lemma axis_low (s x : Z) :
  0 <= s < 256 -> is_uint16 x -> x < 2 ^ s ->
  (0 <? Z.shiftr x s) = false /\
  Z.land x (uint16 (uint16 (Z.shiftl 1 s) - 1)) = x.
Proof.
  intros Hs Hx Hlt. unfold is_uint16 in Hx.
  rewrite Z.shiftr_div_pow2 by lia. rewrite Z.div_small by lia.
  split; [reflexivity|].
  rewrite masked_coord by (unfold is_uint16; lia).
  apply Z.mod_small. split; [lia|].
  destruct (Z.min_spec s 16) as [[_ ->]|[_ ->]]; lia.
Qed.

Lemma axis_high (s x : Z) :
  0 <= s -> 2 ^ s <= x -> (0 <? Z.shiftr x s) = true.
Proof.
  intros Hs Hle. rewrite Z.shiftr_div_pow2 by lia.
  assert (Hp : 0 < 2 ^ s) by (apply Z.pow_pos_nonneg; lia).
  apply Z.ltb_lt.
  assert (1 <= x / 2 ^ s); [|lia].
  apply Z.div_le_lower_bound; lia.
Qed.

(** In the cube one level up, the points of the old cube are octant 0
    and keep their coordinates. *)
Lemma octIndex_low (s : Z) (p : Point) :
  0 <= s < 255 -> valid_point p -> in_cube s p ->
  octIndex {| SideShift := s + 1; CPoint := p |}
  = (0, {| SideShift := s; CPoint := p |}).
Proof.
  intros Hs (Hux & Huy & Huz) (Hx & Hy & Hz).
  destruct (axis_low s (PX p)) as [Hbx Hrx]; try assumption; try lia.
  destruct (axis_low s (PY p)) as [Hby Hry]; try assumption; try lia.
  destruct (axis_low s (PZ p)) as [Hbz Hrz]; try assumption; try lia.
  unfold octIndex. cbn [SideShift CPoint].
  replace (s + 1 - 1) with s by lia.
  rewrite (uint8_small s) by (unfold is_uint8; lia).
  rewrite Hbx, Hby, Hbz, Hrx, Hry, Hrz. destruct p; reflexivity.
Qed.

Lemma octIndex_outside (s : Z) (p : Point) :
  0 <= s < 255 -> valid_point p -> ~ in_cube s p ->
  fst (octIndex {| SideShift := s + 1; CPoint := p |}) <> 0.
Proof.
  intros Hs (Hux & Huy & Huz) Hout E.
  destruct (octIndex_testbits {| SideShift := s + 1; CPoint := p |})
    as (Hbx & Hby & Hbz).
  rewrite E in Hbx, Hby, Hbz. cbn [SideShift CPoint] in Hbx, Hby, Hbz.
  replace (s + 1 - 1) with s in * by lia.
  rewrite (uint8_small s) in * by (unfold is_uint8; lia).
  apply Hout. unfold in_cube, is_uint16 in *.
  repeat split; try lia.
  - destruct (Z_lt_le_dec (PX p) (2 ^ s)) as [|Hge]; [assumption|].
    rewrite (axis_high s _ (proj1 Hs) Hge) in Hbx. discriminate.
  - destruct (Z_lt_le_dec (PY p) (2 ^ s)) as [|Hge]; [assumption|].
    rewrite (axis_high s _ (proj1 Hs) Hge) in Hby. discriminate.
  - destruct (Z_lt_le_dec (PZ p) (2 ^ s)) as [|Hge]; [assumption|].
    rewrite (axis_high s _ (proj1 Hs) Hge) in Hbz. discriminate.
Qed.

Lemma wrap_root_At (v : Voctree) (p : Point) :
  0 <= sideShift v < 62 -> valid_point p ->
  Voctree_At (wrap_root v) p =
  if in_cube_dec (sideShift v) p then Voctree_At v p else Ok black.
Proof.
  intros Hs Hp. unfold Voctree_At.
  rewrite wrap_root_shift by exact Hs.
  cbn [vocelish wrap_root]. rewrite At_VocelTree_eq.
  destruct (in_cube_dec (sideShift v) p) as [Hin|Hout].
  - rewrite octIndex_low by (try assumption; lia). reflexivity.
  - pose proof (octIndex_outside (sideShift v) p ltac:(lia) Hp Hout) as Hne.
    pose proof (octIndex_index {| SideShift := sideShift v + 1; CPoint := p |})
      as Hi.
    remember (fst (octIndex {| SideShift := sideShift v + 1; CPoint := p |}))
      as i eqn:Ei. clear Ei.
    case_index i Hi; try contradiction; reflexivity.
Qed.

Lemma grown_shift (n : nat) (v : Voctree) :
  0 <= sideShift v -> sideShift v + Z.of_nat n <= 62 ->
  sideShift (grown n v) = sideShift v + Z.of_nat n.
Proof.
  intros H0. induction n as [|n IH]; intros Hn.
  - simpl. lia.
  - unfold grown in *. rewrite Nat.iter_succ.
    rewrite wrap_root_shift; rewrite IH; lia.
Qed.

Lemma in_cube_mono (s s' : Z) (p : Point) :
  0 <= s <= s' -> in_cube s p -> in_cube s' p.
Proof.
  intros Hs (Hx & Hy & Hz).
  assert (2 ^ s <= 2 ^ s') by (apply Z.pow_le_mono_r; lia).
  unfold in_cube. lia.
Qed.

Lemma grown_At (n : nat) (v : Voctree) (p : Point) :
  0 <= sideShift v -> sideShift v + Z.of_nat n <= 62 -> valid_point p ->
  Voctree_At (grown n v) p =
  if in_cube_dec (sideShift v) p then Voctree_At v p
  else match n with O => Voctree_At v p | S _ => Ok black end.
Proof.
  intros H0. induction n as [|n IH]; intros Hn Hp.
  - simpl. destruct (in_cube_dec _ _); reflexivity.
  - unfold grown in *. rewrite Nat.iter_succ.
    fold (grown n v) in *.
    rewrite wrap_root_At; [|rewrite grown_shift; lia|exact Hp].
    rewrite grown_shift by lia.
    destruct (in_cube_dec (sideShift v) p) as [Hin|Hout].
    + destruct (in_cube_dec (sideShift v + Z.of_nat n) p) as [_|Hno].
      * rewrite IH by (try assumption; lia).
        destruct (in_cube_dec (sideShift v) p); [reflexivity|contradiction].
      * exfalso. apply Hno.
        apply (in_cube_mono (sideShift v)); [lia | exact Hin].
    + destruct (in_cube_dec (sideShift v + Z.of_nat n) p) as [Hyes|_];
        [|reflexivity].
      rewrite IH by (try assumption; lia).
      destruct (in_cube_dec (sideShift v) p); [contradiction|].
      destruct n; [|reflexivity].
      exfalso. apply Hout. replace (sideShift v) with (sideShift v + Z.of_nat 0)
        by (simpl; lia). exact Hyes.
Qed.

Lemma resize_grown_bound (fuel : nat) :
  forall v z v',
    shift_ok v -> resize_ fuel v z = Ok v' ->
    exists n, v' = grown n v /\ sideShift v + Z.of_nat n <= 62.
Proof.
  induction fuel as [|fuel IH]; intros v z v' Hs H; simpl in H;
    [discriminate|].
  unfold shift_ok in *.
  rewrite shift_test_small in H by exact Hs.
  destruct (Z.ltb_spec (2 ^ sideShift v) z) as [Hlt|Hge].
  - destruct (Z.eq_dec (sideShift v) 62) as [E|Hne].
    + rewrite resize_diverges in H; [discriminate| |rewrite <- E; exact Hlt].
      simpl. pose proof (uint8_range (sideShift v + 1)) as Hr.
      unfold is_uint8 in Hr. lia.
    + apply IH in H; [|rewrite wrap_root_shift; lia].
      destruct H as (n & -> & Hn). rewrite wrap_root_shift in Hn by lia.
      exists (S n). split; [|lia].
      unfold grown. rewrite Nat.iter_succ_r. reflexivity.
  - injection H as <-. exists O. split; [reflexivity | simpl; lia].
Qed.

Lemma resize_At (v : Voctree) (z : Z) v' (p : Point) :
  shift_ok v -> resizeSideShift v z = Ok v' -> valid_point p ->
  Voctree_At v' p =
  if in_cube_dec (sideShift v) p then Voctree_At v p
  else if sideShift v <? sideShift v' then Ok black else Voctree_At v p.
Proof.
  intros Hs H Hp.
  destruct (resize_grown_bound _ _ _ _ Hs H) as (n & -> & Hn).
  unfold shift_ok in *.
  rewrite grown_At by (try assumption; lia).
  rewrite grown_shift by lia.
  destruct (in_cube_dec (sideShift v) p); [reflexivity|].
  destruct n.
  - simpl. rewrite Z.add_0_r, Z.ltb_irrefl. reflexivity.
  - destruct (Z.ltb_spec (sideShift v) (sideShift v + Z.of_nat (S n)));
      [reflexivity | lia].
Qed.


(** X5. [GetPlane] changes no content.  Whatever depth growth the call
    makes, every voxel of the volume reads afterwards what it read
    before, and when the shift has grown every 16-bit point outside the
    old cube reads black. *)
Theorem growth_keeps_reads (v : Voctree) (z : Z) v' (gray : image.Gray) :
  reachable v -> GetPlane v z = Ok (v', gray) ->
  (forall p, in_volume v p -> Voctree_At v' p = Voctree_At v p) /\
  (sideShift v < sideShift v' ->
   forall p, valid_point p -> ~ in_cube (sideShift v) p ->
             Voctree_At v' p = Ok black).
Proof.
  intros Hr H. apply GetPlane_inv in H.
  pose proof (reachable_shift_ok v Hr) as Hs. split.
  - intros p [Hvp Hp]. rewrite (resize_At v z v' p Hs H Hvp).
    destruct (in_cube_dec (sideShift v) p); [reflexivity | contradiction].
  - intros Hlt p Hvp Hout. rewrite (resize_At v z v' p Hs H Hvp).
    destruct (in_cube_dec (sideShift v) p); [contradiction|].
    apply Z.ltb_lt in Hlt. rewrite Hlt. reflexivity.
Qed.

Lemma growth_keeps_reads_witness :
  exists v0 v v' gray,
    NewVoctree 2 2 = Ok v0 /\
    Voctree_Set v0 (mkPoint 1 1 0) (color.mkGray 3) = Ok v /\
    GetPlane v 7 = Ok (v', gray) /\
    sideShift v' = 3 /\
    (forall p, in_volume v p -> Voctree_At v' p = Voctree_At v p).
Proof.
  do 4 eexists. split; [reflexivity|].
  split; [vm_compute; reflexivity|].
  split; [vm_compute; reflexivity|].
  split; [reflexivity|].
  refine (proj1 (growth_keeps_reads _ 7 _ _ _ _)).
  - eapply (reach_Set _ (mkPoint 1 1 0) (color.mkGray 3)).
    + apply (reach_New 2 2). reflexivity.
    + unfold valid_point, is_uint16; simpl; lia.
    + vm_compute. reflexivity.
  - vm_compute. reflexivity.
Defined.

(* ================================================================== *)
(** * A fresh volume *)

Lemma grow_until_min (fuel : nat) :
  forall s size s',
    0 <= s <= 62 -> grow_until fuel s size = Ok s' ->
    s' = s \/ 2 ^ (s' - 1) < size.
Proof.
  pose proof pow2_62_lt_63 as H63.
  induction fuel as [|fuel IH]; intros s size s' Hs H;
    [discriminate|].
  rewrite grow_until_step in H by exact Hs.
  destruct (Z.ltb_spec (2 ^ s) size) as [Hlt|Hge].
  - destruct (Z.eq_dec s 62) as [->|Hne].
    + exfalso. revert H. apply grow_until_never_returns; lia.
    + apply IH in H; [|lia]. right.
      destruct H as [->|H]; [|exact H].
      replace (s + 1 - 1) with s by lia. exact Hlt.
  - injection H as <-. left. reflexivity.
Qed.

(** X6. [NewVoctree] returns for extents up to [2^62].  The volume it
    returns is one black [Vocel1]: its node count is 1 and every read
    gives black.  Its shift is the smallest whose side covers both
    extents, and its rectangle is the one asked for. *)
Theorem fresh_volume (sizex sizey : Z) :
  sizex <= 2 ^ 62 -> sizey <= 2 ^ 62 ->
  exists v,
    NewVoctree sizex sizey = Ok v /\
    Voctree_Nodes v = 1 /\
    (forall p, Voctree_At v p = Ok black) /\
    rectangle v = image.Rect 0 0 sizex sizey /\
    0 <= sideShift v <= 62 /\
    sizex <= 2 ^ sideShift v /\ sizey <= 2 ^ sideShift v /\
    (sideShift v = 0 \/ 2 ^ (sideShift v - 1) < Z.max sizex sizey).
Proof.
  intros Hx Hy.
  destruct (NewVoctree_total sizex sizey Hx Hy) as [v Hv].
  exists v. split; [exact Hv|].
  destruct (NewVoctree_inv _ _ _ Hv) as (Hs & Hroot & Hrect & Hcx & Hcy).
  split; [unfold Voctree_Nodes; rewrite Hroot; reflexivity|].
  split; [intros p; unfold Voctree_At; rewrite Hroot; reflexivity|].
  split; [exact Hrect|]. split; [exact Hs|].
  split; [exact Hcx|]. split; [exact Hcy|].
  unfold NewVoctree, NewVoctree_ in Hv.
  inv_bind Hv. inv_bind Hv. injection Hv as <-.
  cbn [sideShift].
  assert (H0 : 0 <= 0 <= 62) by lia.
  pose proof (grow_until_shift _ _ _ _ H0 Ha) as [Ha1 _].
  pose proof (grow_until_min _ _ _ _ H0 Ha) as Hm1.
  assert (H1 : 0 <= a <= 62) by lia.
  pose proof (grow_until_shift _ _ _ _ H1 Ha0) as [Ha2 _].
  pose proof (grow_until_min _ _ _ _ H1 Ha0) as Hm2.
  rewrite (uint8_small a0) by (unfold is_uint8; lia).
  destruct Hm2 as [->|Hm2]; [|right; lia].
  destruct Hm1 as [->|Hm1]; [left; reflexivity | right; lia].
Qed.

Lemma fresh_volume_witness :
  exists v, NewVoctree 128 100 = Ok v /\ sideShift v = 7 /\
            Voctree_Nodes v = 1.
Proof.
  destruct (fresh_volume 128 100) as (v & Hv & Hn & _); try lia.
  exists v. split; [exact Hv|]. split; [|exact Hn].
  vm_compute in Hv. injection Hv as <-. reflexivity.
Defined.

(* ================================================================== *)
(** * Calls that never return *)

(** X7. With [z] above [2^62] the loop of [resizeSideShift] never ends
    on a reachable volume: no budget of iterations is enough, because
    [1 << SideShift] never reaches such a [z] in an [int].  Hence
    [GetPlane], and [SetPlane] given a buffer of the right length, do not
    return either. *)
Theorem growth_beyond_int_diverges (v : Voctree) (z : Z) :
  reachable v -> 2 ^ 62 < z ->
  (forall fuel, resize_ fuel v z = OutOfFuel) /\
  GetPlane v z = OutOfFuel /\
  (forall gray,
      len (image.Pix gray)
        = int (image.X (Voctree_Size v) * image.Y (Voctree_Size v)) ->
      SetPlane v z gray = OutOfFuel).
Proof.
  intros Hr Hz. pose proof (reachable_shift_ok v Hr) as Hs.
  assert (Hd : forall fuel, resize_ fuel v z = OutOfFuel).
  { intros fuel. apply resize_diverges; [apply Hs | exact Hz]. }
  split; [exact Hd|]. split.
  - unfold GetPlane, resizeSideShift. cbn zeta. rewrite Hd. reflexivity.
  - intros gray Hlen. unfold SetPlane, resizeSideShift, Voctree_Size in *.
    cbn zeta. apply Z.eqb_eq in Hlen. rewrite Hlen. cbn [negb].
    rewrite Hd. reflexivity.
Qed.

Lemma growth_beyond_int_diverges_witness :
  exists v, NewVoctree 1 1 = Ok v /\ GetPlane v (2 ^ 62 + 1) = OutOfFuel.
Proof.
  eexists. split; [reflexivity|].
  refine (proj1 (proj2 (growth_beyond_int_diverges _ (2 ^ 62 + 1) _ _))).
  - apply (reach_New 1 1). reflexivity.
  - lia.
Defined.

(** X8. [NewVoctree] with an extent above [2^62] returns no volume,
    whatever the number of rounds its loops are given: the test
    [(1 << sideShift) < size] stays true at every count, so the loop goes
    on until the [int] counter wraps to a negative value, after [2^63]
    rounds, and there the shift panics. *)
Theorem NewVoctree_beyond_int_panics (sizex sizey : Z) :
  2 ^ 62 < sizex \/ (sizex <= 2 ^ 62 /\ 2 ^ 62 < sizey) ->
  (forall fuel v, NewVoctree_ fuel sizex sizey <> Ok v) /\
  (forall fuel, 2 ^ 63 < Z.of_nat fuel ->
                NewVoctree_ fuel sizex sizey = Panic) /\
  (forall fuel, Z.of_nat fuel <= 2 ^ 62 ->
                NewVoctree_ fuel sizex sizey = OutOfFuel) /\
  NewVoctree sizex sizey = OutOfFuel.
Proof.
  intros H. pose proof pow2_62_lt_63 as H63.
  assert (Hrun : forall fuel,
             NewVoctree_ fuel sizex sizey
             = if Z.of_nat fuel <=? 2 ^ 62 then OutOfFuel
               else if 2 ^ 63 <? Z.of_nat fuel then Panic
               else NewVoctree_ fuel sizex sizey).
  { intros fuel. unfold NewVoctree_.
    destruct (Z.leb_spec (Z.of_nat fuel) (2 ^ 62)) as [Hlo|Hlo];
      [|destruct (Z.ltb_spec (2 ^ 63) (Z.of_nat fuel)) as [Hhi|Hhi];
        [|reflexivity]].
    - destruct H as [Hx|[Hx Hy]].
      + rewrite grow_until_beyond by lia.
        destruct (Z.leb_spec (Z.of_nat fuel) (2 ^ 63 - 0)); [reflexivity|lia].
      + destruct (grow_until fuel 0 sizex) as [s| |] eqn:Es; cbn [bind];
          try reflexivity.
        * assert (H0 : 0 <= 0 <= 62) by lia.
          pose proof (grow_until_shift _ _ _ _ H0 Es) as [Hr _].
          rewrite grow_until_beyond by lia.
          destruct (Z.leb_spec (Z.of_nat fuel) (2 ^ 63 - s));
            [reflexivity|lia].
        * exfalso.
          destruct (Nat.le_gt_cases 63 fuel) as [Hf|Hf].
          -- destruct (grow_until_returns 63 fuel 0 sizex) as [s Hs];
               try lia. congruence.
          -- clear - Es Hx Hf.
             assert (Hgen : forall n s, 0 <= s <= 62 ->
                       grow_until n s sizex <> Panic).
             { induction n as [|n IHn]; intros s Hs; [discriminate|].
               rewrite grow_until_step by exact Hs.
               destruct (Z.ltb_spec (2 ^ s) sizex) as [Hlt|Hge];
                 [|discriminate].
               apply IHn.
               assert (s <> 62) by (intros ->; lia). lia. }
             apply (Hgen fuel 0); [lia | exact Es].
    - destruct H as [Hx|[Hx Hy]].
      + rewrite grow_until_beyond by lia.
        destruct (Z.leb_spec (Z.of_nat fuel) (2 ^ 63 - 0)); [lia|reflexivity].
      + destruct (grow_until_returns 63 fuel 0 sizex) as [s Hs]; try lia.
        rewrite Hs. cbn [bind].
        assert (H0 : 0 <= 0 <= 62) by lia.
        pose proof (grow_until_shift _ _ _ _ H0 Hs) as [Hr _].
        rewrite grow_until_beyond by lia.
        destruct (Z.leb_spec (Z.of_nat fuel) (2 ^ 63 - s)); [lia|reflexivity]. }
  assert (Hno : forall fuel v, NewVoctree_ fuel sizex sizey <> Ok v).
  { intros fuel v. unfold NewVoctree_. destruct H as [Hx|[Hx Hy]].
    - rewrite grow_until_beyond by lia.
      destruct (_ <=? _); discriminate.
    - destruct (grow_until fuel 0 sizex) as [s| |] eqn:Es; cbn [bind];
        try discriminate.
      assert (H0 : 0 <= 0 <= 62) by lia.
      pose proof (grow_until_shift _ _ _ _ H0 Es) as [Hr _].
      rewrite grow_until_beyond by lia.
      destruct (_ <=? _); discriminate. }
  split; [exact Hno|]. split; [|split].
  - intros fuel Hf. rewrite Hrun.
    destruct (Z.leb_spec (Z.of_nat fuel) (2 ^ 62)); [lia|].
    destruct (Z.ltb_spec (2 ^ 63) (Z.of_nat fuel)); [reflexivity|lia].
  - intros fuel Hf. rewrite Hrun.
    destruct (Z.leb_spec (Z.of_nat fuel) (2 ^ 62)); [reflexivity|lia].
  - unfold NewVoctree. rewrite Hrun.
    destruct (Z.leb_spec (Z.of_nat 65) (2 ^ 62)) as [_|Hgt]; [reflexivity|].
    exfalso. assert (2 ^ 7 <= 2 ^ 62) by (apply Z.pow_le_mono_r; lia).
    change (2 ^ 7) with 128 in *. lia.
Qed.

Lemma NewVoctree_beyond_int_panics_witness :
  (forall fuel v, NewVoctree_ fuel 16 (2 ^ 63 - 1) <> Ok v) /\
  NewVoctree 16 (2 ^ 63 - 1) = OutOfFuel.
Proof.
  assert (H : 2 ^ 62 < 16 \/ (16 <= 2 ^ 62 /\ 2 ^ 62 < 2 ^ 63 - 1)).
  { right. assert (2 ^ 4 <= 2 ^ 62) by (apply Z.pow_le_mono_r; lia).
    change (2 ^ 4) with 16 in *.
    assert (2 ^ 63 = 2 * 2 ^ 62) by (change 63 with (Z.succ 62);
                                     apply Z.pow_succ_r; lia).
    lia. }
  destruct (NewVoctree_beyond_int_panics 16 (2 ^ 63 - 1) H)
    as (Hno & _ & _ & Hrun).
  split; [exact Hno | exact Hrun].
Defined.

(* ================================================================== *)
(** * The buffer of [GetPlane] *)

Lemma At_peek (v : Vocelish) (cube : Cube) : At v cube = Ok (peek v cube).
Proof. unfold peek. destruct (At_total v cube) as [g ->]. reflexivity. Qed.

Lemma for_ext_in {S : Type} (body body' : S -> Z -> result S) (l : list Z) :
  (forall s i, In i l -> body s i = body' s i) ->
  forall s, for_ l s body = for_ l s body'.
Proof.
  induction l as [|i l IH]; intros Hb s; simpl; [reflexivity|].
  rewrite Hb by (left; reflexivity).
  destruct (body' s i); simpl; auto.
  apply IH. intros s' j Hj. apply Hb. right. exact Hj.
Qed.

Lemma in_range (n i : Z) : In i (range n) <-> 0 <= i < n.
Proof.
  unfold range. rewrite in_map_iff. split.
  - intros (k & <- & Hk). apply in_seq in Hk. lia.
  - intros Hi. exists (Z.to_nat i). split; [lia | apply in_seq; lia].
Qed.

Lemma range_length (n : Z) : length (range n) = Z.to_nat n.
Proof. unfold range. rewrite length_map, length_seq. reflexivity. Qed.

Lemma replace_nth_app {A : Type} (pre : list A) (b a : A) (post : list A) :
  replace_nth (pre ++ b :: post) (length pre) a = pre ++ a :: post.
Proof. induction pre as [|c pre IH]; simpl; [reflexivity | rewrite IH; reflexivity]. Qed.

(** A run of stores at consecutive indices overwrites that stretch. *)
Lemma store_run (val : Z -> Z) (base : Z) (n : nat) :
  forall (a : nat) (pre mid post : list Z),
    Z.of_nat (length pre) = base + Z.of_nat a -> length mid = n ->
    for_ (map Z.of_nat (seq a n)) (pre ++ mid ++ post)
         (fun pix x => store pix (base + x) (val x))
    = Ok (pre ++ map val (map Z.of_nat (seq a n)) ++ post).
Proof.
  induction n as [|n IH]; intros a pre mid post Hpre Hmid.
  - destruct mid; [reflexivity | discriminate].
  - destruct mid as [|b mid]; [discriminate|]. simpl in Hmid.
    cbn [seq map for_]. unfold store at 1.
    assert (Hlen : len (pre ++ (b :: mid) ++ post)
                   = base + Z.of_nat a + 1 + Z.of_nat (length (mid ++ post))).
    { unfold len. rewrite !length_app. simpl. lia. }
    rewrite Hlen.
    destruct (Z.ltb_spec (base + Z.of_nat a) 0); [lia|].
    destruct (Z.leb_spec (base + Z.of_nat a + 1
                          + Z.of_nat (length (mid ++ post)))
                         (base + Z.of_nat a)); [lia|].
    cbn [orb bind].
    replace (Z.to_nat (base + Z.of_nat a)) with (length pre) by lia.
    change ((b :: mid) ++ post) with (b :: mid ++ post).
    rewrite replace_nth_app.
    replace (pre ++ val (Z.of_nat a) :: mid ++ post)
      with ((pre ++ [val (Z.of_nat a)]) ++ mid ++ post)
      by (rewrite <- app_assoc; reflexivity).
    rewrite (IH (S a)).
    + rewrite <- app_assoc. reflexivity.
    + rewrite length_app. simpl. lia.
    + lia.
Qed.

Lemma store_rows (val : Z -> Z -> Z) (w : nat) (m : nat) :
  forall (b : nat) (done todo : list Z),
    length done = (b * w)%nat -> length todo = (m * w)%nat ->
    for_ (map Z.of_nat (seq b m)) (done ++ todo)
         (fun pix y =>
            for_ (map Z.of_nat (seq 0 w)) pix
                 (fun pix x => store pix (y * Z.of_nat w + x) (val y x)))
    = Ok (done ++ flat_map (fun y => map (val y) (map Z.of_nat (seq 0 w)))
                           (map Z.of_nat (seq b m))).
Proof.
  induction m as [|m IH]; intros b done todo Hdone Htodo.
  - destruct todo; [|discriminate]. reflexivity.
  - cbn [seq map for_ flat_map].
    rewrite <- (firstn_skipn w todo).
    rewrite (store_run (val (Z.of_nat b)) (Z.of_nat b * Z.of_nat w) w
                       0 done (firstn w todo) (skipn w todo)).
    + cbn [bind].
      replace (done ++ map (val (Z.of_nat b)) (map Z.of_nat (seq 0 w))
                    ++ skipn w todo)
        with ((done ++ map (val (Z.of_nat b)) (map Z.of_nat (seq 0 w)))
                ++ skipn w todo)
        by (rewrite <- app_assoc; reflexivity).
      rewrite (IH (S b)).
      * rewrite <- app_assoc. reflexivity.
      * rewrite length_app, !length_map, length_seq. lia.
      * rewrite length_skipn. lia.
    + lia.
    + rewrite length_firstn. lia.
Qed.

Lemma row_major_length {A : Type} (w h : Z) (entry : Z -> Z -> A) :
  0 <= w -> 0 <= h -> len (row_major w h entry) = w * h.
Proof.
  intros Hw Hh. unfold row_major, len, range.
  assert (H : forall l : list Z,
             length (flat_map (fun y => map (fun x => entry y x)
                        (map Z.of_nat (seq 0 (Z.to_nat w)))) l)
             = (length l * Z.to_nat w)%nat).
  { induction l as [|y l IH]; simpl; [reflexivity|].
    rewrite length_app, IH, !length_map, length_seq. lia. }
  rewrite H, length_map, length_seq. lia.
Qed.

Lemma row_major_nth {A : Type} (w h : Z) (entry : Z -> Z -> A) (x y : Z) :
  0 <= x < w -> 0 <= y < h ->
  nth_error (row_major w h entry) (Z.to_nat (y * w + x)) = Some (entry y x).
Proof.
  intros Hx Hy. unfold row_major, range.
  assert (Hrow : forall yy,
             nth_error (map (fun x => entry yy x)
                            (map Z.of_nat (seq 0 (Z.to_nat w))))
                       (Z.to_nat x) = Some (entry yy x)).
  { intros yy. rewrite map_map, nth_error_map, nth_error_seq.
    destruct (Nat.ltb_spec (Z.to_nat x) (Z.to_nat w)); [|lia].
    simpl. do 2 f_equal. lia. }
  assert (H : forall (m b : nat) (k : nat),
             (k < m)%nat ->
             nth_error
               (flat_map (fun y => map (fun x => entry y x)
                                       (map Z.of_nat (seq 0 (Z.to_nat w))))
                         (map Z.of_nat (seq b m)))
               (k * Z.to_nat w + Z.to_nat x)
             = Some (entry (Z.of_nat (b + k)) x)).
  { induction m as [|m IH]; intros b k Hk; [lia|].
    cbn [seq map flat_map].
    destruct k as [|k].
    - simpl. rewrite nth_error_app1
        by (rewrite !length_map, length_seq; lia).
      rewrite Nat.add_0_r. apply Hrow.
    - rewrite nth_error_app2
        by (rewrite !length_map, length_seq; lia).
      rewrite !length_map, length_seq.
      replace (S k * Z.to_nat w + Z.to_nat x - Z.to_nat w)%nat
        with (k * Z.to_nat w + Z.to_nat x)%nat by lia.
      rewrite (IH (S b) k) by lia. do 2 f_equal. lia. }
  replace (Z.to_nat (y * w + x))
    with (Z.to_nat y * Z.to_nat w + Z.to_nat x)%nat by nia.
  rewrite (H (Z.to_nat h) 0%nat (Z.to_nat y)) by lia.
  do 2 f_equal. lia.
Qed.


Lemma plane_index (w h x y : Z) :
  0 <= w -> 0 <= h -> w * h < 2 ^ 63 -> 0 <= x < w -> 0 <= y < h ->
  int (int (y * w) + x) = y * w + x /\ 0 <= y * w + x < w * h.
Proof.
  intros Hw Hh Hwh Hx Hy.
  assert (H1 : 0 <= y * w) by nia.
  assert (H2 : y * w + x < w * h) by nia.
  rewrite (int_small (y * w)) by (unfold is_int; lia).
  rewrite int_small by (unfold is_int; lia). lia.
Qed.

(** What [GetPlane] computes once the growth has returned. *)
Lemma GetPlane_eq (v : Voctree) (z : Z) v1 :
  let w := image.X (Voctree_Size v) in
  let h := image.Y (Voctree_Size v) in
  0 <= w -> 0 <= h -> w * h < 2 ^ 63 ->
  resizeSideShift v z = Ok v1 ->
  GetPlane v z
  = Ok (v1, {| image.Pix := row_major w h (fun y x => plane_read v1 z x y);
               image.Stride := w;
               image.Bounds := rectangle v1 |}).
Proof.
  intros w h Hw Hh Hwh Hres. unfold GetPlane. cbn zeta.
  fold (Voctree_Size v). fold w h.
  rewrite Hres. cbn [bind].
  rewrite (int_small (w * h)) by (unfold is_int; nia).
  unfold make. destruct (Z.ltb_spec (w * h) 0); [nia|]. cbn [bind].
  rewrite (for_ext_in _
             (fun pix y =>
                for_ (map Z.of_nat (seq 0 (Z.to_nat w))) pix
                     (fun pix x =>
                        store pix (y * Z.of_nat (Z.to_nat w) + x)
                              (plane_read v1 z x y)))).
  - change (repeat 0 (Z.to_nat (w * h)))
      with ([] ++ repeat 0 (Z.to_nat (w * h))).
    unfold range.
    rewrite (store_rows (fun y x => plane_read v1 z x y)
                        (Z.to_nat w) (Z.to_nat h) 0 []).
    + cbn [bind app]. reflexivity.
    + reflexivity.
    + rewrite repeat_length. nia.
  - intros pix y Hy. apply in_range in Hy.
    apply for_ext_in. intros pix' x Hx. apply in_range in Hx.
    rewrite At_peek. cbn [bind].
    destruct (plane_index w h x y Hw Hh Hwh Hx Hy) as [-> _].
    rewrite Z2Nat.id by lia. reflexivity.
Qed.

(** X9. [GetPlane] returns for every [z] up to [2^62] on a reachable
    volume whose extent has a product below [2^63]: the image has the
    volume's rectangle, a stride of the width, [width * height] bytes,
    and the byte at [y * width + x] is the intensity read at column [x],
    row [y] of plane [z] (row-major). *)
Theorem GetPlane_buffer (v : Voctree) (z : Z) :
  let w := image.X (Voctree_Size v) in
  let h := image.Y (Voctree_Size v) in
  reachable v -> z <= 2 ^ 62 -> 0 <= w -> 0 <= h -> w * h < 2 ^ 63 ->
  exists v' gray,
    GetPlane v z = Ok (v', gray) /\
    image.Bounds gray = rectangle v /\
    image.Stride gray = w /\
    len (image.Pix gray) = w * h /\
    (forall x y, 0 <= x < w -> 0 <= y < h ->
       exists c,
         Voctree_At v' (plane_point z x y) = Ok c /\
         nth_error (image.Pix gray) (Z.to_nat (y * w + x))
         = Some (color.Y c)).
Proof.
  intros w h Hr Hz Hw Hh Hwh.
  destruct (resizeSideShift_total v z (reachable_shift_ok v Hr) Hz)
    as [v1 Hres].
  exists v1. eexists. split; [apply GetPlane_eq; eassumption|].
  cbn [image.Bounds image.Stride image.Pix].
  split; [apply (resize_shift _ _ _ _ (reachable_shift_ok v Hr) Hres)|].
  split; [reflexivity|].
  split; [apply row_major_length; assumption|].
  intros x y Hx Hy.
  exists (peek (vocelish v1)
               {| SideShift := sideShift v1; CPoint := plane_point z x y |}).
  split; [apply At_peek|].
  apply (row_major_nth w h (fun y x => plane_read v1 z x y)); assumption.
Qed.

(** Discharges the leading closed premises of [H] by evaluation. *)
Ltac feed_closed H :=
  repeat match type of H with
         | ?A -> _ =>
             let Ha := fresh in
             assert (Ha : A)
               by (vm_compute; first [congruence | split; congruence]);
             specialize (H Ha); clear Ha
         end.

Lemma GetPlane_buffer_witness :
  exists v0 v v' gray,
    NewVoctree 2 2 = Ok v0 /\
    Voctree_Set v0 (mkPoint 1 0 1) (color.mkGray 9) = Ok v /\
    GetPlane v 1 = Ok (v', gray) /\
    len (image.Pix gray) = 4 /\
    nth_error (image.Pix gray) 1 = Some 9.
Proof.
  do 2 eexists.
  assert (Hr : reachable
                 {| vocelish :=
                      Vocel8 (Arr8 black black black black black
                                   (color.mkGray 9) black black);
                    rectangle := image.Rect 0 0 2 2;
                    sideShift := 1 |}).
  { eapply (reach_Set _ (mkPoint 1 0 1) (color.mkGray 9)).
    - apply (reach_New 2 2). reflexivity.
    - unfold valid_point, is_uint16; simpl; lia.
    - vm_compute. reflexivity. }
  pose proof (GetPlane_buffer _ 1 Hr) as H. cbv zeta in H.
  feed_closed H.
  destruct H as (v' & gray & Hg & _ & _ & Hlen & Hnth).
  exists v', gray.
  split; [reflexivity|]. split; [vm_compute; reflexivity|].
  split; [exact Hg|]. split; [exact Hlen|].
  destruct (Hnth 1 0) as (c & Hc & Hn); try (vm_compute; split; congruence).
  pose proof Hg as Hg'. vm_compute in Hg'. injection Hg' as <- _.
  vm_compute in Hc. injection Hc as <-. exact Hn.
Defined.

(* ================================================================== *)
(** * What [SetPlane] writes *)

Lemma load_nth (pix : list Z) (i : Z) :
  0 <= i < len pix -> load pix i = Ok (nth (Z.to_nat i) pix 0).
Proof.
  intros Hi. unfold load, len in *.
  destruct (Z.ltb_spec i 0); [lia|].
  rewrite (nth_error_nth' pix 0) by lia. reflexivity.
Qed.

Lemma Voctree_Sets_app (l1 l2 : list (Point * color.Gray)) :
  forall v,
    Voctree_Sets v (l1 ++ l2)
    = (v' <- Voctree_Sets v l1 ;; Voctree_Sets v' l2).
Proof.
  induction l1 as [|[p c] l1 IH]; intros v; simpl; [reflexivity|].
  destruct (Voctree_Set v p c); simpl; auto.
Qed.

Lemma Voctree_Sets_shift (l : list (Point * color.Gray)) :
  forall v v', Voctree_Sets v l = Ok v' ->
               sideShift v' = sideShift v /\ rectangle v' = rectangle v.
Proof.
  induction l as [|[p c] l IH]; intros v v' H; simpl in H.
  - injection H as <-. auto.
  - inv_bind H. apply IH in H. apply Voctree_Set_inv in Ha.
    destruct Ha as (root & _ & ->). exact H.
Qed.

(** One row of the loop of [SetPlane] is a sequence of voxel writes. *)
Lemma plane_row_Sets (pix : list Z) (shift : Z)
      (index : Z -> Z) (point : Z -> Point) (xs : list Z) :
  (forall x, In x xs -> 0 <= index x < len pix) ->
  forall w,
    sideShift w = shift ->
    for_ xs w (fun w x =>
      c <- load pix (index x) ;;
      root <- Vocelish_Set (vocelish w)
                {| SideShift := shift; CPoint := point x |}
                (color.mkGray c) ;;
      Ok (with_root w root))
    = Voctree_Sets w
        (map (fun x => (point x,
                        color.mkGray (nth (Z.to_nat (index x)) pix 0))) xs).
Proof.
  induction xs as [|x xs IH]; intros Hin w Hw; [reflexivity|].
  cbn [for_ map Voctree_Sets].
  rewrite load_nth by (apply Hin; left; reflexivity). cbn [bind].
  unfold Voctree_Set. rewrite Hw.
  destruct (Vocelish_Set _ _ _); cbn [bind]; try reflexivity.
  apply IH; [|exact Hw].
  intros x' Hx'. apply Hin. right. exact Hx'.
Qed.

Lemma plane_rows_Sets (pix : list Z) (shift : Z)
      (index : Z -> Z -> Z) (point : Z -> Z -> Point) (xs ys : list Z) :
  (forall x y, In x xs -> In y ys -> 0 <= index y x < len pix) ->
  forall w,
    sideShift w = shift ->
    for_ ys w (fun w y =>
      for_ xs w (fun w x =>
        c <- load pix (index y x) ;;
        root <- Vocelish_Set (vocelish w)
                  {| SideShift := shift; CPoint := point y x |}
                  (color.mkGray c) ;;
        Ok (with_root w root)))
    = Voctree_Sets w
        (flat_map
           (fun y =>
              map (fun x => (point y x,
                             color.mkGray
                               (nth (Z.to_nat (index y x)) pix 0))) xs)
           ys).
Proof.
  induction ys as [|y ys IH]; intros Hin w Hw; [reflexivity|].
  cbn [for_ flat_map]. rewrite Voctree_Sets_app.
  rewrite (plane_row_Sets pix shift (index y) (point y) xs);
    [|intros x Hx; apply Hin; [exact Hx | left; reflexivity]|exact Hw].
  destruct (Voctree_Sets w _) as [w'| |] eqn:E; cbn [bind]; try reflexivity.
  apply IH.
  - intros x y' Hx Hy'. apply Hin; [exact Hx | right; exact Hy'].
  - apply Voctree_Sets_shift in E. destruct E as [E _]. congruence.
Qed.

Lemma flat_map_ext_on {A B : Type} (f g : A -> list B) (l : list A) :
  (forall a, In a l -> f a = g a) -> flat_map f l = flat_map g l.
Proof.
  induction l as [|a l IH]; intros H; [reflexivity|].
  cbn [flat_map]. rewrite (H a (or_introl eq_refl)).
  rewrite IH by (intros b Hb; apply H; right; exact Hb). reflexivity.
Qed.

Lemma row_major_ext {A : Type} (w h : Z) (f g : Z -> Z -> A) :
  (forall x y, 0 <= x < w -> 0 <= y < h -> f y x = g y x) ->
  row_major w h f = row_major w h g.
Proof.
  intros H. unfold row_major.
  apply flat_map_ext_on. intros y Hy. apply in_range in Hy.
  apply map_ext_in. intros x Hx. apply in_range in Hx. auto.
Qed.

Lemma row_major_in {A : Type} (w h : Z) (f : Z -> Z -> A) (a : A) :
  In a (row_major w h f) <->
  exists x y, 0 <= x < w /\ 0 <= y < h /\ a = f y x.
Proof.
  unfold row_major. rewrite in_flat_map. split.
  - intros (y & Hy & Ha). apply in_map_iff in Ha.
    destruct Ha as (x & <- & Hx).
    apply in_range in Hx, Hy. eauto.
  - intros (x & y & Hx & Hy & ->). exists y.
    split; [apply in_range; exact Hy|].
    apply in_map_iff. exists x. split; [reflexivity|].
    apply in_range; exact Hx.
Qed.

(** What [SetPlane] computes once the length test has passed and the
    growth has returned. *)
Lemma SetPlane_eq (v : Voctree) (z : Z) (gray : image.Gray) v1 :
  let w := image.X (Voctree_Size v) in
  let h := image.Y (Voctree_Size v) in
  0 <= w -> 0 <= h -> w * h < 2 ^ 63 ->
  len (image.Pix gray) = w * h ->
  resizeSideShift v z = Ok v1 ->
  SetPlane v z gray
  = (v' <- Voctree_Sets v1 (plane_writes z w h (image.Pix gray)) ;;
     Ok (v', None)).
Proof.
  intros w h Hw Hh Hwh Hlen Hres. unfold SetPlane. cbn zeta.
  fold (Voctree_Size v). fold w h.
  rewrite (int_small (w * h)) by (unfold is_int; nia).
  rewrite (proj2 (Z.eqb_eq _ _) Hlen). cbn [negb].
  rewrite Hres. cbn [bind].
  rewrite (for_ext_in _
    (fun u y =>
       for_ (range w) u (fun u x =>
         c <- load (image.Pix gray) (y * w + x) ;;
         root <- Vocelish_Set (vocelish u)
                   {| SideShift := sideShift v1;
                      CPoint := plane_point z x y |} (color.mkGray c) ;;
         Ok (with_root u root)))).
  - rewrite (plane_rows_Sets (image.Pix gray) (sideShift v1)
               (fun y x => y * w + x) (fun y x => plane_point z x y)
               (range w) (range h)); [reflexivity| |reflexivity].
    intros x y Hx Hy. apply in_range in Hx, Hy. rewrite Hlen.
    apply (plane_index w h x y); assumption.
  - intros u y Hy. apply in_range in Hy.
    apply for_ext_in. intros u' x Hx. apply in_range in Hx.
    destruct (plane_index w h x y Hw Hh Hwh Hx Hy) as [-> _].
    reflexivity.
Qed.

(** ** The last write of a plane *)

Lemma last_write_None (q : Point) (l : list (Point * color.Gray)) :
  (forall a, In a l -> fst a <> q) -> last_write q l = None.
Proof.
  induction l as [|[p c] l IH]; intros H; [reflexivity|].
  cbn [last_write]. rewrite IH by (intros a Ha; apply H; right; exact Ha).
  destruct (Point_eqb p q) eqn:E; [|reflexivity].
  apply Point_eqb_eq in E. exfalso.
  apply (H (p, c)); [left; reflexivity | exact E].
Qed.

Lemma last_write_Some (q : Point) (c : color.Gray)
      (l : list (Point * color.Gray)) :
  In (q, c) l ->
  (forall a, In a l -> fst a = q -> snd a = c) ->
  last_write q l = Some c.
Proof.
  induction l as [|[p c'] l IH]; intros Hin Hall; [contradiction|].
  cbn [last_write].
  destruct (last_write q l) as [c''|] eqn:E.
  - destruct Hin as [Hin|Hin].
    + assert (Hex : exists a, In a l /\ fst a = q /\ snd a = c'').
      { clear - E. induction l as [|[p1 c1] l IHl]; [discriminate|].
        cbn [last_write] in E.
        destruct (last_write q l) eqn:E1.
        - injection E as <-. destruct (IHl eq_refl) as (a & Ha & Hq & Hc).
          exists a. split; [right; exact Ha | auto].
        - destruct (Point_eqb p1 q) eqn:Ep; [|discriminate].
          injection E as <-. apply Point_eqb_eq in Ep.
          exists (p1, c1). split; [left; reflexivity | auto]. }
      destruct Hex as (a & Ha & Hq & Hc).
      rewrite <- Hc. f_equal. apply Hall; [right; exact Ha | exact Hq].
    + apply IH; [exact Hin|].
      intros a Ha. apply Hall. right. exact Ha.
  - destruct Hin as [Hin|Hin].
    + injection Hin as -> ->.
      rewrite (proj2 (Point_eqb_eq q q) eq_refl). reflexivity.
    + assert (Hno : None = Some c); [|discriminate Hno].
      apply IH; [exact Hin|].
      intros a Ha. apply Hall. right. exact Ha.
Qed.

Lemma plane_point_small (z x y : Z) :
  0 <= x < 2 ^ 16 -> 0 <= y < 2 ^ 16 -> 0 <= z < 2 ^ 16 ->
  plane_point z x y = mkPoint x y z.
Proof.
  intros Hx Hy Hz. unfold plane_point.
  rewrite !uint16_small by (unfold is_uint16; lia). reflexivity.
Qed.

Lemma last_write_plane (z w h : Z) (pix : list Z) (q : Point) :
  0 <= w <= 2 ^ 16 -> 0 <= h <= 2 ^ 16 -> 0 <= z < 2 ^ 16 ->
  0 <= PX q -> 0 <= PY q ->
  last_write q (plane_writes z w h pix)
  = if in_plane z w h q
    then Some (color.mkGray (nth (Z.to_nat (PY q * w + PX q)) pix 0))
    else None.
Proof.
  intros Hw Hh Hz Hqx Hqy. unfold in_plane, plane_writes.
  destruct (Z.eqb_spec (PZ q) z) as [Ez|Ez];
    [destruct (Z.ltb_spec (PX q) w) as [Ex|Ex];
     [destruct (Z.ltb_spec (PY q) h) as [Ey|Ey]|]|]; cbn [andb].
  - apply last_write_Some.
    + apply row_major_in. exists (PX q), (PY q).
      split; [lia|]. split; [lia|].
      rewrite plane_point_small by lia.
      destruct q; simpl in *; subst; reflexivity.
    + intros a Ha Hfst. apply row_major_in in Ha.
      destruct Ha as (x & y & Hx & Hy & ->). cbn [fst snd] in *.
      rewrite plane_point_small in Hfst by lia. subst q. reflexivity.
  - apply last_write_None. intros a Ha Hfst. apply row_major_in in Ha.
    destruct Ha as (x & y & Hx & Hy & ->). cbn [fst] in Hfst.
    rewrite plane_point_small in Hfst by lia. subst q. simpl in Ey. lia.
  - apply last_write_None. intros a Ha Hfst. apply row_major_in in Ha.
    destruct Ha as (x & y & Hx & Hy & ->). cbn [fst] in Hfst.
    rewrite plane_point_small in Hfst by lia. subst q. simpl in Ex. lia.
  - apply last_write_None. intros a Ha Hfst. apply row_major_in in Ha.
    destruct Ha as (x & y & Hx & Hy & ->). cbn [fst] in Hfst.
    rewrite plane_point_small in Hfst by lia. subst q. simpl in Ez. lia.
Qed.


Lemma pow2_16_le_62 : 2 ^ 16 <= 2 ^ 62.
Proof. apply Z.pow_le_mono_r; lia. Qed.

(** The reads after a [SetPlane] whose plane lies inside the cube. *)
Lemma SetPlane_reads (v : Voctree) (z : Z) (gray : image.Gray) :
  let w := image.X (Voctree_Size v) in
  let h := image.Y (Voctree_Size v) in
  shift_ok v -> Voctree_shaped v ->
  0 <= w <= 2 ^ sideShift v -> 0 <= h <= 2 ^ sideShift v ->
  w <= 2 ^ 16 -> h <= 2 ^ 16 ->
  len (image.Pix gray) = w * h ->
  0 <= z < 2 ^ 16 ->
  (forall k, sideShift v <= k -> z <> 2 ^ k) ->
  exists v1 v',
    resizeSideShift v z = Ok v1 /\
    SetPlane v z gray = Ok (v', None) /\
    sideShift v' = sideShift v1 /\ rectangle v' = rectangle v /\
    shift_ok v' /\ Voctree_shaped v' /\ z < 2 ^ sideShift v' /\
    (forall q, in_volume v' q ->
       Voctree_At v' q =
       if in_plane z w h q
       then Ok (color.mkGray
                  (nth (Z.to_nat (PY q * w + PX q)) (image.Pix gray) 0))
       else Voctree_At v1 q).
Proof.
  intros w h Hs Hsh Hw Hh Hw16 Hh16 Hlen Hz Hpow.
  pose proof pow2_16_le_62 as H1662.
  destruct (resizeSideShift_total v z Hs) as [v1 Hres]; [lia|].
  pose proof (resize_shift _ _ _ _ Hs Hres) as (Hs1 & Hle & Hz1 & Hrect1).
  pose proof (resize_shaped _ _ _ _ Hs Hsh Hres) as Hsh1.
  assert (Hzlt : z < 2 ^ sideShift v1).
  { specialize (Hpow (sideShift v1) Hle). lia. }
  assert (Hmono : 2 ^ sideShift v <= 2 ^ sideShift v1)
    by (apply Z.pow_le_mono_r; unfold shift_ok in Hs; lia).
  assert (Hwh : w * h < 2 ^ 63).
  { assert (w * h <= 2 ^ 16 * 2 ^ 16) by nia.
    change (2 ^ 16 * 2 ^ 16) with (2 ^ 32) in *.
    assert (2 ^ 32 < 2 ^ 63) by (apply Z.pow_lt_mono_r; lia). lia. }
  destruct (Voctree_Sets_At (plane_writes z w h (image.Pix gray)) v1 Hs1 Hsh1)
    as (v' & Hv' & Hk & Hrect & Hsh' & Hread).
  { apply Forall_forall. intros a Ha. unfold plane_writes in Ha.
    apply row_major_in in Ha. destruct Ha as (x & y & Hx & Hy & ->).
    cbn [fst]. rewrite plane_point_small by lia.
    unfold in_volume, valid_point, in_cube, is_uint16. simpl. lia. }
  exists v1, v'. split; [exact Hres|]. split.
  { rewrite (SetPlane_eq v z gray v1); try assumption; try (fold w; lia);
      try (fold h; lia).
    fold w h. rewrite Hv'. reflexivity. }
  split; [exact Hk|]. split; [congruence|].
  split; [unfold shift_ok in *; rewrite Hk; exact Hs1|].
  split; [exact Hsh'|]. split; [rewrite Hk; exact Hzlt|].
  intros q Hq.
  assert (Hq1 : in_volume v1 q)
    by (destruct Hq as [Hq1 Hq2]; split; [|rewrite <- Hk]; assumption).
  rewrite (Hread q Hq1).
  destruct Hq1 as [_ (Hqx & Hqy & _)].
  rewrite last_write_plane by lia.
  destruct (in_plane z w h q); reflexivity.
Qed.

(** X10. What one [SetPlane] does.  On a reachable volume whose extent
    lies inside the cube and inside the 16-bit coordinates, with a
    buffer of [width * height] bytes and a plane index [z] below [2^16]
    that is not a power of two at or above the side, the call succeeds;
    afterwards the voxel at column [x], row [y] of plane [z] reads the
    byte [y * width + x] of the buffer, every other voxel of the old
    cube reads what it read before, and the voxels added by growth read
    black. *)
Theorem SetPlane_effect (v : Voctree) (z : Z) (gray : image.Gray) :
  let w := image.X (Voctree_Size v) in
  let h := image.Y (Voctree_Size v) in
  reachable v ->
  0 <= w <= 2 ^ sideShift v -> 0 <= h <= 2 ^ sideShift v ->
  w <= 2 ^ 16 -> h <= 2 ^ 16 ->
  len (image.Pix gray) = w * h ->
  0 <= z < 2 ^ 16 ->
  (forall k, sideShift v <= k -> z <> 2 ^ k) ->
  exists v',
    SetPlane v z gray = Ok (v', None) /\
    z < 2 ^ sideShift v' /\
    (forall q, in_volume v' q ->
       Voctree_At v' q =
       if in_plane z w h q
       then Ok (color.mkGray
                  (nth (Z.to_nat (PY q * w + PX q)) (image.Pix gray) 0))
       else if in_cube_dec (sideShift v) q then Voctree_At v q
            else Ok black).
Proof.
  intros w h Hr Hw Hh Hw16 Hh16 Hlen Hz Hpow.
  pose proof (reachable_shift_ok v Hr) as Hs.
  destruct (SetPlane_reads v z gray Hs (reachable_shaped v Hr)
              Hw Hh Hw16 Hh16 Hlen Hz Hpow)
    as (v1 & v' & Hres & Hset & Hk & _ & _ & _ & Hzlt & Hread).
  exists v'. split; [exact Hset|]. split; [exact Hzlt|].
  intros q Hq. rewrite (Hread q Hq). fold w h.
  destruct (in_plane z w h q); [reflexivity|].
  rewrite (resize_At v z v1 q Hs Hres (proj1 Hq)).
  destruct (in_cube_dec (sideShift v) q) as [Hin|Hout]; [reflexivity|].
  destruct (Z.ltb_spec (sideShift v) (sideShift v1)) as [_|Hge];
    [reflexivity|].
  exfalso. apply Hout.
  pose proof (resize_shift _ _ _ _ Hs Hres) as (_ & Hle & _).
  assert (E : sideShift v = sideShift v1) by lia.
  rewrite E, <- Hk. apply Hq.
Qed.

Lemma SetPlane_effect_witness :
  exists v v',
    NewVoctree 2 2 = Ok v /\
    SetPlane v 3 (image.mkGray [1; 2; 3; 4] 2 (image.Rect 0 0 2 2))
      = Ok (v', None) /\
    Voctree_At v' (mkPoint 1 1 3) = Ok (color.mkGray 4) /\
    Voctree_At v' (mkPoint 1 1 2) = Ok black.
Proof.
  exists {| vocelish := Vocel1 black;
            rectangle := image.Rect 0 0 2 2;
            sideShift := 1 |}.
  pose proof (SetPlane_effect
                {| vocelish := Vocel1 black;
                   rectangle := image.Rect 0 0 2 2;
                   sideShift := 1 |} 3
                (image.mkGray [1; 2; 3; 4] 2 (image.Rect 0 0 2 2))) as H.
  cbv zeta in H.
  specialize (H (reach_New 2 2 _ eq_refl)).
  feed_closed H.
  destruct H as (v' & Hset & Hz & Hread).
  { intros k Hk E. cbn [sideShift] in Hk.
    assert (Hp : 2 ^ 2 <= 2 ^ k \/ k = 1).
    { destruct (Z.eq_dec k 1) as [Ek|Ek]; [right; exact Ek | left].
      apply Z.pow_le_mono_r; lia. }
    destruct Hp as [Hp | ->]; [|discriminate E].
    change (2 ^ 2) with 4 in Hp. lia. }
  exists v'. split; [reflexivity|]. split; [exact Hset|].
  pose proof Hset as Hc. vm_compute in Hc. injection Hc as Hc.
  split.
  - rewrite (Hread (mkPoint 1 1 3)); [reflexivity|].
    rewrite <- Hc. vm_compute. repeat split; congruence.
  - rewrite (Hread (mkPoint 1 1 2));
      [|rewrite <- Hc; vm_compute; repeat split; congruence].
    destruct (in_cube_dec _ _) as [(_ & _ & _ & Hin)|_]; [|reflexivity].
    vm_compute in Hin. discriminate Hin.
Defined.

(* ================================================================== *)
(** * Writing a plane and reading it back *)

Lemma row_major_nth_id (w h : Z) (pix : list Z) :
  0 <= w -> 0 <= h -> len pix = w * h ->
  row_major w h (fun y x => nth (Z.to_nat (y * w + x)) pix 0) = pix.
Proof.
  intros Hw Hh Hlen. apply nth_error_ext. intros n.
  pose proof (row_major_length w h
                (fun y x => nth (Z.to_nat (y * w + x)) pix 0) Hw Hh) as Hl.
  unfold len in *.
  destruct (Nat.lt_ge_cases n (length pix)) as [Hlt|Hge].
  - assert (Hwpos : 0 < w) by nia.
    pose proof (Z.div_mod (Z.of_nat n) w ltac:(lia)) as Hdm.
    pose proof (Z.mod_pos_bound (Z.of_nat n) w Hwpos) as Hmod.
    assert (Hdiv : 0 <= Z.of_nat n / w < h).
    { split; [apply Z.div_pos; lia|].
      apply Z.div_lt_upper_bound; lia. }
    pose proof (row_major_nth w h
                  (fun y x => nth (Z.to_nat (y * w + x)) pix 0)
                  (Z.of_nat n mod w) (Z.of_nat n / w) Hmod Hdiv) as E.
    cbv beta in E.
    replace (Z.to_nat (Z.of_nat n / w * w + Z.of_nat n mod w)) with n in E
      by lia.
    rewrite E. symmetry. apply nth_error_nth'. exact Hlt.
  - rewrite (proj2 (nth_error_None pix n)) by exact Hge.
    apply nth_error_None. lia.
Qed.

(** X11. Round trip.  Under the conditions of X10, [GetPlane] at the
    same [z] right after [SetPlane] returns the volume unchanged and an
    image whose bytes are exactly the buffer that was written. *)
Theorem SetPlane_GetPlane (v : Voctree) (z : Z) (gray : image.Gray) :
  let w := image.X (Voctree_Size v) in
  let h := image.Y (Voctree_Size v) in
  reachable v ->
  0 <= w <= 2 ^ sideShift v -> 0 <= h <= 2 ^ sideShift v ->
  w <= 2 ^ 16 -> h <= 2 ^ 16 ->
  len (image.Pix gray) = w * h ->
  0 <= z < 2 ^ 16 ->
  (forall k, sideShift v <= k -> z <> 2 ^ k) ->
  exists v',
    SetPlane v z gray = Ok (v', None) /\
    GetPlane v' z
    = Ok (v', {| image.Pix := image.Pix gray;
                 image.Stride := w;
                 image.Bounds := rectangle v |}).
Proof.
  intros w h Hr Hw Hh Hw16 Hh16 Hlen Hz Hpow.
  pose proof (reachable_shift_ok v Hr) as Hs.
  destruct (SetPlane_reads v z gray Hs (reachable_shaped v Hr)
              Hw Hh Hw16 Hh16 Hlen Hz Hpow)
    as (v1 & v' & Hres & Hset & Hk & Hrect & Hs' & Hsh' & Hzlt & Hread).
  exists v'. split; [exact Hset|].
  assert (Hsize : Voctree_Size v' = Voctree_Size v)
    by (unfold Voctree_Size; rewrite Hrect; reflexivity).
  assert (Hwh : w * h < 2 ^ 63).
  { assert (w * h <= 2 ^ 16 * 2 ^ 16) by nia.
    change (2 ^ 16 * 2 ^ 16) with (2 ^ 32) in *.
    assert (2 ^ 32 < 2 ^ 63) by (apply Z.pow_lt_mono_r; lia). lia. }
  pose proof (resize_shift _ _ _ _ Hs Hres) as (_ & Hle & _ & _).
  assert (Hmono : 2 ^ sideShift v <= 2 ^ sideShift v')
    by (apply Z.pow_le_mono_r; unfold shift_ok in Hs; lia).
  rewrite (GetPlane_eq v' z v'); rewrite ?Hsize; fold w h;
    try lia; [|apply no_growth_needed; [exact Hs' | lia]].
  rewrite Hrect. do 3 f_equal.
  rewrite (row_major_ext w h _
             (fun y x => nth (Z.to_nat (y * w + x)) (image.Pix gray) 0)).
  - apply row_major_nth_id; lia.
  - intros x y Hx Hy. unfold plane_read, peek.
    rewrite plane_point_small by lia.
    assert (Hq : in_volume v' (mkPoint x y z)).
    { unfold in_volume, valid_point, in_cube, is_uint16. simpl. lia. }
    pose proof (Hread _ Hq) as Hrd. unfold Voctree_At in Hrd.
    rewrite Hrd. unfold in_plane. cbn [PX PY PZ].
    rewrite Z.eqb_refl.
    rewrite (proj2 (Z.ltb_lt x (image.X (Voctree_Size v))))
      by (fold w; lia).
    rewrite (proj2 (Z.ltb_lt y (image.Y (Voctree_Size v))))
      by (fold h; lia).
    reflexivity.
Qed.

Lemma SetPlane_GetPlane_witness :
  exists v v',
    NewVoctree 2 2 = Ok v /\
    SetPlane v 0 (image.mkGray [1; 2; 3; 4] 2 (image.Rect 0 0 2 2))
      = Ok (v', None) /\
    GetPlane v' 0 = Ok (v', image.mkGray [1; 2; 3; 4] 2 (image.Rect 0 0 2 2)).
Proof.
  exists {| vocelish := Vocel1 black;
            rectangle := image.Rect 0 0 2 2;
            sideShift := 1 |}.
  pose proof (SetPlane_GetPlane
                {| vocelish := Vocel1 black;
                   rectangle := image.Rect 0 0 2 2;
                   sideShift := 1 |} 0
                (image.mkGray [1; 2; 3; 4] 2 (image.Rect 0 0 2 2))) as H.
  cbv zeta in H.
  specialize (H (reach_New 2 2 _ eq_refl)).
  feed_closed H.
  destruct H as (v' & Hset & Hget).
  { intros k Hk E.
    assert (0 < 2 ^ k) by (apply Z.pow_pos_nonneg; cbn [sideShift] in Hk; lia).
    lia. }
  exists v'. split; [reflexivity|]. split; [exact Hset | exact Hget].
Defined.

(* ================================================================== *)
(** * The node count as an oracle of the content *)

(** A compact node all of whose octants are uniform, with values that
    are not all equal, is the [Vocel8] of those values. *)
Lemma compact_octants (m : nat) (v : Vocelish) (px : arr8 color.Gray) :
  (m < 16)%nat -> compact (S m) v -> ~ all_same px ->
  (forall i p, in_range8 i -> in_cube (Z.of_nat m) p ->
     At v {| SideShift := Z.of_nat (S m);
             CPoint := corner (Z.of_nat m) i p |} = Ok (get px i)) ->
  v = Vocel8 px.
Proof.
  intros Hm Hc Hns Hall.
  destruct v as [o|px'|sub].
  - exfalso. apply Hns. intros i j Hi Hj.
    pose proof (Hall i _ Hi (origin_in_cube m)) as H1.
    pose proof (Hall j _ Hj (origin_in_cube m)) as H2.
    simpl in H1, H2. congruence.
  - f_equal. apply arr8_ext. intros i Hi.
    specialize (Hall i _ Hi (origin_in_cube m)).
    rewrite At_Vocel8_eq in Hall.
    rewrite octIndex_corner in Hall; [|lia|exact Hi|apply origin_in_cube].
    simpl in Hall. congruence.
  - exfalso. destruct Hc as [Hsub Hnot]. apply Hnot. intros i Hi.
    rewrite (compact_uniform m (get sub i) (get px i));
      [reflexivity | lia | apply Hsub; exact Hi |].
    intros p Hp. specialize (Hall i p Hi Hp).
    rewrite At_VocelTree_eq in Hall.
    rewrite octIndex_corner in Hall by (try assumption; lia).
    exact Hall.
Qed.

Lemma Nodes_VocelTree (sub : arr8 Vocelish) : 9 <= Nodes (VocelTree sub).
Proof.
  destruct sub as [s0 s1 s2 s3 s4 s5 s6 s7]. cbn -[Z.add].
  pose proof (Nodes_pos s0). pose proof (Nodes_pos s1).
  pose proof (Nodes_pos s2). pose proof (Nodes_pos s3).
  pose proof (Nodes_pos s4). pose proof (Nodes_pos s5).
  pose proof (Nodes_pos s6). pose proof (Nodes_pos s7). lia.
Qed.

(** X12. On a volume reached without growing over a [Vocel1] root, of
    shift at most 16, the node count is 1 exactly when all the voxels
    hold one value; no node count lies strictly between 1 and 8. *)
Theorem one_node_iff_uniform (v : Voctree) :
  reachable_compact v -> sideShift v <= 16 ->
  (Voctree_Nodes v = 1 <->
   exists c, forall p, in_volume v p -> Voctree_At v p = Ok c) /\
  (Voctree_Nodes v = 1 \/ 8 <= Voctree_Nodes v).
Proof.
  intros Hr H16.
  pose proof (reachable_shift_ok _ (reachable_compact_reachable _ Hr)) as Hs.
  pose proof (reachable_compact_inv v Hr) as Hc.
  unfold shift_ok in Hs. unfold Voctree_Nodes, Voctree_At. split.
  - split.
    + intros Hn. destruct (vocelish v) as [o|px|sub] eqn:E.
      * exists o. intros p _. reflexivity.
      * simpl in Hn. discriminate.
      * pose proof (Nodes_VocelTree sub). lia.
    + intros [c Hall].
      rewrite (Voctree_compact_uniform v c); [reflexivity | lia | exact Hc |].
      exact Hall.
  - destruct (vocelish v) as [o|px|sub].
    + left. reflexivity.
    + right. simpl. lia.
    + right. pose proof (Nodes_VocelTree sub). lia.
Qed.

Lemma one_node_iff_uniform_witness :
  exists v0 v, NewVoctree 2 2 = Ok v0 /\
    Voctree_Set v0 (mkPoint 0 1 1) (color.mkGray 200) = Ok v /\
    8 <= Voctree_Nodes v.
Proof.
  do 2 eexists. split; [reflexivity|]. split; [vm_compute; reflexivity|].
  destruct (one_node_iff_uniform
              {| vocelish :=
                   Vocel8 (Arr8 black black black black black black
                                (color.mkGray 200) black);
                 rectangle := image.Rect 0 0 2 2;
                 sideShift := 1 |}) as [_ [H|H]].
  - eapply (rc_Set _ (mkPoint 0 1 1) (color.mkGray 200)).
    + apply (rc_New 2 2). reflexivity.
    + unfold valid_point, is_uint16; simpl; lia.
    + vm_compute. reflexivity.
  - simpl. lia.
  - discriminate H.
  - exact H.
Defined.

(** X13. On such a volume of shift 1 to 16, the node count is 8 exactly
    when each of the eight octants holds one value and the eight values
    are not all equal; the root is then the [Vocel8] of those values. *)
Theorem eight_nodes_iff_octants (v : Voctree) :
  reachable_compact v -> 1 <= sideShift v <= 16 ->
  (Voctree_Nodes v = 8 <->
   exists px,
     ~ all_same px /\
     forall i p, in_range8 i -> in_cube (sideShift v - 1) p ->
       Voctree_At v (corner (sideShift v - 1) i p) = Ok (get px i)) /\
  (forall px,
     ~ all_same px ->
     (forall i p, in_range8 i -> in_cube (sideShift v - 1) p ->
        Voctree_At v (corner (sideShift v - 1) i p) = Ok (get px i)) ->
     vocelish v = Vocel8 px).
Proof.
  intros Hr Hs.
  pose proof (reachable_compact_inv v Hr) as Hc.
  unfold Voctree_compact in Hc. unfold Voctree_Nodes, Voctree_At.
  remember (Z.to_nat (sideShift v - 1)) as m eqn:Em.
  assert (E1 : sideShift v - 1 = Z.of_nat m) by lia.
  assert (E2 : sideShift v = Z.of_nat (S m)) by lia.
  replace (Z.to_nat (sideShift v)) with (S m) in Hc by lia.
  rewrite E1. rewrite E2.
  assert (Hroot : forall px,
             ~ all_same px ->
             (forall i p, in_range8 i -> in_cube (Z.of_nat m) p ->
                At (vocelish v)
                   {| SideShift := Z.of_nat (S m);
                      CPoint := corner (Z.of_nat m) i p |}
                = Ok (get px i)) ->
             vocelish v = Vocel8 px).
  { intros px Hns Hall.
    apply (compact_octants m); [lia | exact Hc | exact Hns | exact Hall]. }
  split; [|exact Hroot]. split.
  - intros Hn. destruct (vocelish v) as [o|px|sub] eqn:E.
    + discriminate Hn.
    + exists px. split; [apply compact_S_Vocel8 in Hc; exact Hc|].
      intros i p Hi Hp. rewrite At_Vocel8_eq.
      rewrite octIndex_corner by (try assumption; lia). reflexivity.
    + pose proof (Nodes_VocelTree sub). lia.
  - intros (px & Hns & Hall). rewrite (Hroot px Hns Hall). reflexivity.
Qed.

Lemma eight_nodes_iff_octants_witness :
  exists v0 v, NewVoctree 2 2 = Ok v0 /\
    Voctree_Set v0 (mkPoint 0 1 1) (color.mkGray 200) = Ok v /\
    Voctree_Nodes v = 8.
Proof.
  do 2 eexists. split; [reflexivity|]. split; [vm_compute; reflexivity|].
  refine (proj2 (proj1 (eight_nodes_iff_octants
            {| vocelish :=
                 Vocel8 (Arr8 black black black black black black
                              (color.mkGray 200) black);
               rectangle := image.Rect 0 0 2 2;
               sideShift := 1 |} _ _)) _).
  - eapply (rc_Set _ (mkPoint 0 1 1) (color.mkGray 200)).
    + apply (rc_New 2 2). reflexivity.
    + unfold valid_point, is_uint16; simpl; lia.
    + vm_compute. reflexivity.
  - simpl. lia.
  - exists (Arr8 black black black black black black
                 (color.mkGray 200) black).
    split.
    + intros H. specialize (H 0 6). simpl in H.
      assert (E : black = color.mkGray 200)
        by (apply H; unfold in_range8; lia).
      discriminate E.
    + intros i [x y z] Hi (Hx & Hy & Hz). cbn [PX PY PZ sideShift] in *.
      change (2 ^ (1 - 1)) with 1 in *.
      assert (x = 0) by lia. assert (y = 0) by lia. assert (z = 0) by lia.
      subst x y z. case_index i Hi; reflexivity.
Defined.

(* ================================================================== *)
(** * Filling a volume plane by plane *)

Lemma nth_repeat_lt {A : Type} (c d : A) (n k : nat) :
  (k < n)%nat -> nth k (repeat c n) d = c.
Proof.
  revert k. induction n as [|n IH]; intros k Hk; [lia|].
  destruct k as [|k]; simpl; [reflexivity | apply IH; lia].
Qed.

Lemma SetPlanes_uniform (c : Z) (planes : list (Z * image.Gray)) :
  forall v,
    reachable_compact v ->
    sideShift v <= 16 ->
    image.X (Voctree_Size v) = 2 ^ sideShift v ->
    image.Y (Voctree_Size v) = 2 ^ sideShift v ->
    (forall z gray, In (z, gray) planes ->
       0 <= z < 2 ^ sideShift v /\
       image.Pix gray
       = repeat c (Z.to_nat (2 ^ sideShift v * 2 ^ sideShift v))) ->
    exists v',
      SetPlanes v planes = Ok v' /\
      reachable_compact v' /\
      sideShift v' = sideShift v /\
      (forall q, in_volume v q ->
         Voctree_At v' q =
         if existsb (fun p => fst p =? PZ q) planes
         then Ok (color.mkGray c) else Voctree_At v q).
Proof.
  induction planes as [|[z gray] planes IH]; intros v Hr H16 Hw Hh Hall.
  - exists v. simpl. auto.
  - pose proof (reachable_compact_reachable v Hr) as Hr'.
    pose proof (reachable_shift_ok v Hr') as Hs.
    destruct (Hall z gray (or_introl eq_refl)) as [Hz Hpix].
    assert (Hp : 0 < 2 ^ sideShift v)
      by (apply Z.pow_pos_nonneg; unfold shift_ok in Hs; lia).
    assert (Hp16 : 2 ^ sideShift v <= 2 ^ 16)
      by (apply Z.pow_le_mono_r; unfold shift_ok in Hs; lia).
    destruct (SetPlane_reads v z gray Hs (reachable_shaped v Hr'))
      as (v1 & v' & Hres & Hset & Hk & Hrect & _ & _ & _ & Hread);
      rewrite ?Hw, ?Hh; try lia.
    { rewrite Hpix. unfold len. rewrite repeat_length. nia. }
    { intros k Hk E.
      assert (2 ^ sideShift v <= 2 ^ k)
        by (apply Z.pow_le_mono_r; unfold shift_ok in Hs; lia).
      lia. }
    rewrite (no_growth_needed v z Hs) in Hres by lia.
    injection Hres as <-.
    assert (Hrc : reachable_compact v').
    { apply (rc_SetPlane v z gray v' None Hr);
        [unfold is_int; lia | left; lia | exact Hset]. }
    assert (Hsize : Voctree_Size v' = Voctree_Size v)
      by (unfold Voctree_Size; rewrite Hrect; reflexivity).
    destruct (IH v' Hrc) as (v'' & Hv'' & Hrc'' & Hk'' & Hread'');
      rewrite ?Hsize, ?Hk; try assumption.
    { intros z' g' Hin. apply Hall. right. exact Hin. }
    exists v''. cbn [SetPlanes]. rewrite Hset. cbn [bind fst].
    split; [exact Hv''|]. split; [exact Hrc''|]. split; [congruence|].
    intros q Hq.
    assert (Hq' : in_volume v' q)
      by (destruct Hq; split; [|rewrite Hk]; assumption).
    rewrite (Hread'' q Hq'). cbn [existsb fst].
    destruct (existsb (fun p => fst p =? PZ q) planes);
      [rewrite orb_true_r; reflexivity|].
    rewrite orb_false_r. rewrite (Hread q Hq').
    destruct Hq as [_ (Hqx & Hqy & Hqz)].
    unfold in_plane. rewrite Hw, Hh.
    destruct (Z.ltb_spec (PX q) (2 ^ sideShift v)); [|lia].
    destruct (Z.ltb_spec (PY q) (2 ^ sideShift v)); [|lia].
    rewrite !andb_true_r, (Z.eqb_sym z (PZ q)).
    destruct (PZ q =? z); [|reflexivity].
    rewrite Hpix, nth_repeat_lt by nia. reflexivity.
Qed.

(** X14. The scenario of [TestVoctreeCreate] for any power-of-two size
    up to [2^16]: on a volume whose extent is the whole cube face, reached
    without growing over a [Vocel1] root, writing a plane of one
    intensity [c] at every [z] of the cube, in any order and any number
    of times, leaves every voxel reading [c] and a node count of 1. *)
Theorem uniform_planes_one_node (v : Voctree) (c : Z)
        (planes : list (Z * image.Gray)) :
  reachable_compact v ->
  sideShift v <= 16 ->
  image.X (Voctree_Size v) = 2 ^ sideShift v ->
  image.Y (Voctree_Size v) = 2 ^ sideShift v ->
  (forall z gray, In (z, gray) planes ->
     0 <= z < 2 ^ sideShift v /\
     image.Pix gray
     = repeat c (Z.to_nat (2 ^ sideShift v * 2 ^ sideShift v))) ->
  (forall z, 0 <= z < 2 ^ sideShift v -> exists gray, In (z, gray) planes) ->
  exists v',
    SetPlanes v planes = Ok v' /\
    (forall q, in_volume v' q -> Voctree_At v' q = Ok (color.mkGray c)) /\
    vocelish v' = Vocel1 (color.mkGray c) /\
    Voctree_Nodes v' = 1.
Proof.
  intros Hr H16 Hw Hh Hall Hcover.
  destruct (SetPlanes_uniform c planes v Hr H16 Hw Hh Hall)
    as (v' & Hv' & Hrc & Hk & Hread).
  exists v'. split; [exact Hv'|].
  assert (Hu : forall q, in_volume v' q ->
                         Voctree_At v' q = Ok (color.mkGray c)).
  { intros q Hq.
    assert (Hq' : in_volume v q)
      by (destruct Hq; split; [|rewrite <- Hk]; assumption).
    rewrite (Hread q Hq').
    destruct Hq' as [_ (_ & _ & Hqz)].
    destruct (Hcover (PZ q) Hqz) as [gray Hin].
    assert (E : existsb (fun p => fst p =? PZ q) planes = true).
    { apply existsb_exists. exists (PZ q, gray).
      split; [exact Hin | apply Z.eqb_refl]. }
    rewrite E. reflexivity. }
  split; [exact Hu|].
  pose proof (reachable_shift_ok _ (reachable_compact_reachable _ Hrc)) as Hs.
  assert (Hroot : vocelish v' = Vocel1 (color.mkGray c)).
  { apply Voctree_compact_uniform;
      [unfold shift_ok in Hs; lia | apply reachable_compact_inv; exact Hrc
      | exact Hu]. }
  split; [exact Hroot|]. unfold Voctree_Nodes. rewrite Hroot. reflexivity.
Qed.

Lemma uniform_planes_one_node_witness :
  exists v v',
    NewVoctree 2 2 = Ok v /\
    SetPlanes v [(1, image.mkGray [255; 255; 255; 255] 2
                       (image.Rect 0 0 2 2));
                 (0, image.mkGray [255; 255; 255; 255] 2
                       (image.Rect 0 0 2 2))] = Ok v' /\
    Voctree_Nodes v' = 1.
Proof.
  eexists.
  destruct (uniform_planes_one_node
              {| vocelish := Vocel1 black;
                 rectangle := image.Rect 0 0 2 2;
                 sideShift := 1 |} 255
              [(1, image.mkGray [255; 255; 255; 255] 2 (image.Rect 0 0 2 2));
               (0, image.mkGray [255; 255; 255; 255] 2 (image.Rect 0 0 2 2))])
    as (v' & Hv' & _ & _ & Hn).
  - apply (rc_New 2 2). reflexivity.
  - simpl. lia.
  - reflexivity.
  - reflexivity.
  - intros z gray [E|[E|[]]]; injection E as <- <-; simpl; split;
      try lia; reflexivity.
  - intros z Hz. cbn [sideShift] in Hz. change (2 ^ 1) with 2 in Hz.
    assert (E : z = 0 \/ z = 1) by lia.
    destruct E as [-> | ->]; eexists; simpl; eauto.
  - exists v'. split; [reflexivity|]. split; [exact Hv' | exact Hn].
Defined.


(* ================================================================== *)
(** * The extent and the cube *)

Lemma created_reachable (sizex sizey : Z) (v : Voctree) :
  created sizex sizey v -> reachable v.
Proof.
  induction 1 as [v H | v p c v' _ IH Hp H | v p c _ IH Hp H
                 | v z g v' e _ IH Hz H | v z v' g _ IH Hz H].
  - exact (reach_New _ _ _ H).
  - exact (reach_Set _ _ _ _ IH Hp H).
  - exact IH.
  - exact (reach_SetPlane _ _ _ _ _ IH Hz H).
  - exact (reach_GetPlane _ _ _ _ IH Hz H).
Qed.

(** Each operation keeps the rectangle and never lowers the shift. *)
Lemma created_extent (sizex sizey : Z) (v0 v : Voctree) :
  NewVoctree sizex sizey = Ok v0 -> created sizex sizey v ->
  rectangle v = rectangle v0 /\ sideShift v0 <= sideShift v.
Proof.
  intros H0.
  induction 1 as [v H | v p c v' Hc IH _ H | v p c _ IH _ _
                 | v z g v' e Hc IH _ H | v z v' g Hc IH _ H].
  - assert (v = v0) by congruence. subst v. split; [reflexivity | lia].
  - apply Voctree_Set_inv in H. destruct H as (root & _ & ->). exact IH.
  - exact IH.
  - pose proof (reachable_shift_ok v (created_reachable _ _ _ Hc)) as Hs.
    destruct IH as [Hrect Hle0].
    apply SetPlane_inv in H.
    destruct H as [[_ ->]|(_ & _ & v1 & Hres & Hloop)]; [auto|].
    destruct (resize_shift _ _ _ _ Hs Hres) as (_ & Hle & _ & Hrect1).
    assert (Hinv : rectangle v' = rectangle v /\ sideShift v' = sideShift v1).
    { revert Hloop.
      apply (plane_loop_inv
               (fun w => rectangle w = rectangle v /\
                         sideShift w = sideShift v1))
        with (cube := fun _ y x => _); [|auto].
      intros w y x c root Hw _. exact Hw. }
    destruct Hinv as [Hr' Hs']. rewrite Hr', Hs'. split; [exact Hrect | lia].
  - pose proof (reachable_shift_ok v (created_reachable _ _ _ Hc)) as Hs.
    destruct IH as [Hrect Hle0].
    apply GetPlane_inv in H.
    destruct (resize_shift _ _ _ _ Hs H) as (_ & Hle & _ & Hrect1).
    rewrite Hrect1. split; [exact Hrect | lia].
Qed.

(** X15. The extent is fixed at creation and the cube always covers it.
    Let [v0] be the volume that [NewVoctree(sizex, sizey)] returned and
    [v] what any sequence of [Set], [At], [SetPlane] and [GetPlane] calls
    has made of it.  The rectangle of [v] is the rectangle of [v0], that
    is [image.Rect(0, 0, sizex, sizey)]; its shift is at least that of
    [v0], and the side of its cube is at least [sizex] and [sizey].  For
    non-negative sizes, the size of [v] is [(sizex, sizey)] and every
    column [x] and row [y] that the plane loops visit lies inside the
    cube. *)
Theorem extent_inside_cube (sizex sizey : Z) (v0 v : Voctree) :
  NewVoctree sizex sizey = Ok v0 -> created sizex sizey v ->
  rectangle v = rectangle v0 /\
  rectangle v = image.Rect 0 0 sizex sizey /\
  sideShift v0 <= sideShift v /\
  sizex <= 2 ^ sideShift v /\ sizey <= 2 ^ sideShift v /\
  (0 <= sizex -> 0 <= sizey ->
   Voctree_Size v = image.mkPoint sizex sizey /\
   forall x y z,
     0 <= x < image.X (Voctree_Size v) ->
     0 <= y < image.Y (Voctree_Size v) ->
     0 <= z < 2 ^ sideShift v ->
     in_cube (sideShift v) (mkPoint x y z)).
Proof.
  intros H0 Hc.
  pose proof (reachable_shift_ok v (created_reachable _ _ _ Hc)) as Hs.
  destruct (created_extent _ _ _ _ H0 Hc) as [Hrect Hle].
  destruct (NewVoctree_inv _ _ _ H0) as (Hs0 & _ & Hrect0 & Hx0 & Hy0).
  assert (Hmono : 2 ^ sideShift v0 <= 2 ^ sideShift v)
    by (apply Z.pow_le_mono_r; unfold shift_ok in Hs0; lia).
  assert (Hp : 2 ^ sideShift v <= 2 ^ 62)
    by (apply Z.pow_le_mono_r; unfold shift_ok in Hs; lia).
  split; [exact Hrect|]. split; [congruence|]. split; [exact Hle|].
  split; [lia|]. split; [lia|]. intros Hsx Hsy.
  assert (Hsize : Voctree_Size v = image.mkPoint sizex sizey).
  { unfold Voctree_Size. rewrite Hrect, Hrect0.
    unfold image.Rect, image.Size.
    destruct (Z.ltb_spec sizex 0); [lia|].
    destruct (Z.ltb_spec sizey 0); [lia|].
    cbn [image.Min image.Max image.X image.Y].
    rewrite !Z.sub_0_r, !int_small by (unfold is_int; lia). reflexivity. }
  split; [exact Hsize|]. rewrite Hsize. cbn [image.X image.Y].
  intros x y z Hx' Hy' Hz. unfold in_cube. cbn [PX PY PZ]. lia.
Qed.

Lemma extent_inside_cube_witness :
  exists v0 v gray,
    NewVoctree 3 2 = Ok v0 /\
    GetPlane v0 9 = Ok (v, gray) /\
    sideShift v0 = 2 /\ sideShift v = 4 /\
    rectangle v = rectangle v0 /\
    rectangle v = image.Rect 0 0 3 2 /\
    Voctree_Size v = image.mkPoint 3 2.
Proof.
  exists {| vocelish := Vocel1 black;
            rectangle := image.Rect 0 0 3 2;
            sideShift := 2 |}.
  assert (H0 : NewVoctree 3 2
               = Ok {| vocelish := Vocel1 black;
                       rectangle := image.Rect 0 0 3 2;
                       sideShift := 2 |}) by reflexivity.
  assert (Hg : exists v gray,
             GetPlane {| vocelish := Vocel1 black;
                         rectangle := image.Rect 0 0 3 2;
                         sideShift := 2 |} 9 = Ok (v, gray) /\
             sideShift v = 4).
  { do 2 eexists. split; [vm_compute; reflexivity | reflexivity]. }
  destruct Hg as (v & gray & Hg & Hs4).
  assert (Hc : created 3 2 v).
  { apply (cr_GetPlane 3 2 _ 9 v gray (cr_New 3 2 _ H0)); [|exact Hg].
    unfold is_int. lia. }
  destruct (extent_inside_cube 3 2 _ v H0 Hc)
    as (Hrect & Hrect0 & _ & _ & _ & Hsize).
  destruct Hsize as [Hsize _]; [lia | lia |].
  exists v, gray. split; [exact H0|]. split; [exact Hg|].
  split; [reflexivity|]. split; [exact Hs4|].
  split; [exact Hrect|]. split; [exact Hrect0 | exact Hsize].
Defined.
